(** * partial.py: vendoring files of a GitHub repository

    A shallow embedding of [src/partial.py] and the properties of its
    version resolver, file copier, commit recorder and marker substitution.

    Conventions of the embedding.

    - A Python [str] is a Rocq [string]; a character stands for the code
      point of the same number, so the strings of the model are the Python
      strings over U+0000..U+00FF.  The character classes below are the
      Python ones restricted to that range.
    - A raised exception is a value of [exn]; a computation that may raise
      has type [result A].  Code that also changes the outside world (the
      file system, the shell) threads that world explicitly, see [M].
    - What lies outside the program (the HTTP API, [pathlib]'s glob, the exit
      codes of shell commands) is a parameter of the function that uses
      it. *)

From Stdlib Require Import String Ascii List Bool NArith Arith Lia.
From Stdlib Require Import Sorting.Sorted Sorting.Permutation.
Import ListNotations.
Open Scope string_scope.

(* ================================================================== *)
(** * Part I: the embedding                                            *)
(* ================================================================== *)

(** ** Python values and exceptions *)

Module Py.

(** The exception classes that the program can raise.  [HTTPError] is the
    one class the program catches; the others are told apart only by
    name. *)
Inductive exn : Type :=
| HTTPError (status : nat)        (* urllib.error.HTTPError *)
| URLError                        (* urllib.error.URLError, not HTTP *)
| JSONDecodeError
| KeyError
| TypeError
| IndexError
| AssertionError
| ValueError
| OSError                         (* FileExistsError, IsADirectoryError, ... *)
| CalledProcessError (code : nat).

Definition result (A : Type) : Type := (exn + A)%type.

Definition ret {A} (a : A) : result A := inr a.
Definition raise {A} (e : exn) : result A := inl e.
Definition bind {A B} (m : result A) (k : A -> result B) : result B :=
  match m with
  | inl e => inl e
  | inr a => k a
  end.

(** [isinstance(e, urllib.error.HTTPError)] *)
Definition is_HTTPError (e : exn) : bool :=
  match e with
  | HTTPError _ => true
  | _ => false
  end.

(** *** Characters *)

Definition ord (c : ascii) : N := N_of_ascii c.

Definition between (lo hi n : N) : bool := (N.leb lo n && N.leb n hi)%bool.

(** [str.isspace] on one character: TAB..CR, FS..US, SPACE, NEL, NBSP. *)
Definition isspace (c : ascii) : bool :=
  (between 9 13 (ord c) || between 28 32 (ord c)
   || N.eqb (ord c) 133 || N.eqb (ord c) 160)%bool.

(** The class [\d] of [re] and the digits [int] accepts: 0..9. *)
Definition isdecimal (c : ascii) : bool := between 48 57 (ord c).

(** [str.isdigit] on one character: the decimal digits and the
    superscripts U+00B2, U+00B3, U+00B9. *)
Definition isdigit (c : ascii) : bool :=
  (isdecimal c || N.eqb (ord c) 178 || N.eqb (ord c) 179
   || N.eqb (ord c) 185)%bool.

Definition LF : ascii := "010"%char.
Definition CR : ascii := "013"%char.
Definition DQUOTE : ascii := "034"%char.

End Py.

Export Py.

Declare Scope py_scope.
Delimit Scope py_scope with py.
Notation "x <- m ;; k" := (bind m (fun x => k))
  (at level 61, m at next level, right associativity) : py_scope.
Open Scope py_scope.

(** [c in s] and [all(p(c) for c in s)] *)
Fixpoint mem (c : ascii) (s : string) : bool :=
  match s with
  | "" => false
  | String d r => (Ascii.eqb c d || mem c r)%bool
  end.

Fixpoint forallb_string (p : ascii -> bool) (s : string) : bool :=
  match s with
  | "" => true
  | String c r => (p c && forallb_string p r)%bool
  end.

Definition NL : string := String LF "".

(** [[f(x) for x in l]], stopping at the first exception. *)
Fixpoint mapM {A B} (f : A -> result B) (l : list A) : result (list B) :=
  match l with
  | [] => ret []
  | x :: xs => y <- f x ;; ys <- mapM f xs ;; ret (y :: ys)
  end.

(** [l[-1]] *)
Fixpoint last_item {A} (l : list A) : result A :=
  match l with
  | [] => raise IndexError
  | [x] => ret x
  | _ :: xs => last_item xs
  end.

(** ** JSON documents, as [json.loads] returns them *)

#[local] Set Warnings "-register-all".
Inductive json : Type :=
| JNull
| JBool (b : bool)
| JNumber (literal : string)
| JStr (s : string)
| JArr (items : list json)
| JObj (members : list (string * json)).   (* the dict's items, keys distinct *)

Fixpoint lookup (key : string) (members : list (string * json)) : option json :=
  match members with
  | [] => None
  | (k, v) :: rest => if String.eqb k key then Some v else lookup key rest
  end.

(** [j[key]] for a [str] key: only a dict can be subscripted by a string. *)
Definition getitem (j : json) (key : string) : result json :=
  match j with
  | JObj members =>
      match lookup key members with
      | Some v => ret v
      | None => raise KeyError
      end
  | _ => raise TypeError
  end.

(** [for x in j]: a list yields its items, a dict its keys, a string its
    characters; nothing else is iterable. *)
Definition iter (j : json) : result (list json) :=
  match j with
  | JArr items => ret items
  | JObj members => ret (map (fun kv => JStr (fst kv)) members)
  | JStr s => ret (map (fun c => JStr (String c "")) (list_ascii_of_string s))
  | _ => raise TypeError
  end.

(** ** Version resolver: [latest_release_tag] *)

Module Resolver.

(** [int(s)] for a run of decimal digits; Python integers have no bound,
    and the cap an interpreter may put on the length of [s] is left out. *)
Fixpoint int_from (acc : N) (s : string) : N :=
  match s with
  | "" => acc
  | String c r => int_from (10 * acc + (ord c - 48)) r
  end.

Definition int (s : string) : N := int_from 0 s.

Definition starts_decimal (s : string) : bool :=
  match s with
  | String c _ => isdecimal c
  | "" => false
  end.

(** [re.findall(r"\d+", v)]: the maximal runs of decimal digits, left to
    right.  A digit joins the run that starts right behind it, or starts a
    run of its own. *)
Fixpoint findall_digits (s : string) : list string :=
  match s with
  | "" => []
  | String c r =>
      if isdecimal c then
        match findall_digits r with
        | run :: runs =>
            if starts_decimal r then String c run :: runs
            else String c "" :: run :: runs
        | [] => [String c ""]
        end
      else findall_digits r
  end.

(** [tuple(map(int, re.findall(r"\d+", v)))] for a string [v]. *)
Definition tag_key (v : string) : list N := map int (findall_digits v).

(** The sort key [lambda v: ...]: [re.findall] refuses what is not a
    string. *)
Definition sort_key (v : json) : result (list N) :=
  match v with
  | JStr s => ret (tag_key s)
  | _ => raise TypeError
  end.

(** [a < b] on tuples of integers: the first position where they differ
    decides, and a proper prefix is smaller. *)
Fixpoint tuple_lt (a b : list N) : bool :=
  match a, b with
  | [], [] => false
  | [], _ :: _ => true
  | _ :: _, [] => false
  | x :: a', y :: b' => if N.eqb x y then tuple_lt a' b' else N.ltb x y
  end.

(** [a <= b] on tuples, as [not (b < a)] *)
Definition tuple_le (a b : list N) : Prop := tuple_lt b a = false.

Definition key_le {A} (x y : list N * A) : Prop := tuple_le (fst x) (fst y).

(** [list.sort(key=...)] computes every key once, sorts the decorated
    items with [<] on the keys and is stable: items of equal key keep their
    order.  A stable sort is determined by that; straight insertion from the
    right is the one written here. *)
Fixpoint insert {A} (x : list N * A) (l : list (list N * A)) : list (list N * A) :=
  match l with
  | [] => [x]
  | y :: ys => if tuple_lt (fst y) (fst x) then y :: insert x ys else x :: y :: ys
  end.

Fixpoint sort {A} (l : list (list N * A)) : list (list N * A) :=
  match l with
  | [] => []
  | x :: xs => insert x (sort xs)
  end.

Definition sort_by_key (tags : list json) : result (list json) :=
  keys <- mapM sort_key tags ;;
  ret (map snd (sort (combine keys tags))).

(** Lines 26 and 27: sort the tag names, return the last. *)
Definition select_latest (tags : list json) : result json :=
  sorted <- sort_by_key tags ;;
  last_item sorted.

(** The names with their keys, as the sort holds them. *)
Definition decorate (names : list string) : list (list N * string) :=
  map (fun n => (tag_key n, n)) names.

Definition api : string := "https://api.github.com/repos/".
Definition releases_latest_url (repo : string) : string := api ++ repo ++ "/releases/latest".
Definition tags_url (repo : string) : string := api ++ repo ++ "/tags".

Section WithNetwork.

(** [json.loads(urlopen(url).read())]: the parsed body, or the exception
    that [urlopen], [read] or [loads] raised. *)
Variable urlopen : string -> result json.

Definition release_path (repo : string) : result json :=
  response <- urlopen (releases_latest_url repo) ;;
  getitem response "tag_name".

Definition tags_path (repo : string) : result json :=
  response <- urlopen (tags_url repo) ;;
  items <- iter response ;;
  tags <- mapM (fun tag => getitem tag "name") items ;;
  select_latest tags.

Definition latest_release_tag (repo : string) : result json :=
  match release_path repo with
  | inl (HTTPError _) => tags_path repo
  | r => r
  end.

End WithNetwork.

(** The body of the tags endpoint for a repository with the given tag names. *)
Definition tags_response (names : list string) : json :=
  JArr (map (fun n => JObj [("name", JStr n)]) names).

End Resolver.

(** ** Code that changes the world

    [M S A] is a computation on a world of type [S] (the file system, the
    log of shell commands) that returns an [A] or raises; what it did to
    the world before raising stays done. *)

Definition M (S A : Type) : Type := S -> S * result A.

Definition retM {S A} (a : A) : M S A := fun st => (st, inr a).
Definition lift {S A} (r : result A) : M S A := fun st => (st, r).
Definition gets {S A} (f : S -> A) : M S A := fun st => (st, inr (f st)).
Definition modify {S} (f : S -> S) : M S unit := fun st => (f st, inr tt).
Definition bindM {S A B} (m : M S A) (k : A -> M S B) : M S B :=
  fun st =>
    match m st with
    | (st', inl e) => (st', inl e)
    | (st', inr a) => k a st'
    end.

Declare Scope world_scope.
Delimit Scope world_scope with world.
Notation "x <-- m ;; k" := (bindM m (fun x => k))
  (at level 61, m at next level, right associativity) : world_scope.
Notation "m ;;; k" := (bindM m (fun _ => k))
  (at level 61, right associativity) : world_scope.

(** [for x in l: acc = body(acc, x)] *)
Fixpoint foldM {S A B} (body : B -> A -> M S B) (acc : B) (l : list A) : M S B :=
  match l with
  | [] => retM acc
  | x :: xs => bindM (body acc x) (fun acc' => foldM body acc' xs)
  end.

(** ** Paths and the file system *)

(** [Path.parts] of a relative path; [Path(".")] has no parts. *)
Definition path : Type := list string.

Fixpoint path_eqb (p q : path) : bool :=
  match p, q with
  | [], [] => true
  | a :: p', b :: q' => (String.eqb a b && path_eqb p' q')%bool
  | _, _ => false
  end.

(** [p] is [q] or an ancestor of [q]. *)
Fixpoint is_prefix (p q : path) : bool :=
  match p, q with
  | [], _ => true
  | a :: p', b :: q' => (String.eqb a b && is_prefix p' q')%bool
  | _ :: _, [] => false
  end.

(** [q.relative_to(p)] *)
Fixpoint relative_to (q p : path) : result path :=
  match p, q with
  | [], _ => ret q
  | a :: p', b :: q' => if String.eqb a b then relative_to q' p' else raise ValueError
  | _ :: _, [] => raise ValueError
  end.

(** [f.parts[0]] *)
Definition first_part (f : path) : result string :=
  match f with
  | [] => raise IndexError
  | top :: _ => ret top
  end.

(** [p.parent] and [p.name] *)
Definition parent (p : path) : path := removelast p.
Definition name (p : path) : string := last p "".

(** A file holds its text (the bytes, decoded); a directory holds nothing
    itself: its entries are the longer paths.  [Link] is a symbolic link to
    a directory that lies outside the tree: what is seen through it are the
    longer paths, as for a directory, and wherever a link is followed it
    counts as one. *)
Inductive node : Type :=
| File (content : string)
| Dir
| Link.

(** The tree below the current directory, by relative path.  A path is
    looked up by its parts; for a path without [..] that is the answer of
    the file system.  Where a property depends on the place that a path
    stands for, it is stated for paths without [..]. *)
Definition fs : Type := path -> option node.

Definition stat (st : fs) (p : path) : option node :=
  match p with
  | [] => Some Dir
  | _ => st p
  end.

Definition is_file (st : fs) (p : path) : bool :=
  match stat st p with
  | Some (File _) => true
  | _ => false
  end.

(** [p.is_dir()] follows a link. *)
Definition is_dir (st : fs) (p : path) : bool :=
  match stat st p with
  | Some Dir | Some Link => true
  | _ => false
  end.

(** [os.path.islink(p)] *)
Definition is_link (st : fs) (p : path) : bool :=
  match stat st p with
  | Some Link => true
  | _ => false
  end.

Definition update (st : fs) (p : path) (n : node) : fs :=
  fun q => if path_eqb q p then Some n else st q.

(** [p.unlink()] of a regular file *)
Definition unlink (p : path) (st : fs) : fs :=
  fun q => if path_eqb q p then None else st q.

(** [shutil.rmtree(p, ignore_errors=True)]: the directory and all below it
    go; on a regular file and on a symbolic link the call fails, is ignored
    and removes nothing. *)
Definition rmtree (p : path) (st : fs) : fs :=
  if (is_file st p || is_link st p)%bool then st
  else fun q => if is_prefix p q then None else st q.

(** ** File copier: [copy_files] *)

Module Copier.

Open Scope world_scope.

(** *** Text mode, lines 95 to 97 *)

(** Reading with [newline=None]: CR LF and a lone CR arrive as LF. *)
Fixpoint universal_newlines (s : string) : string :=
  match s with
  | "" => ""
  | String c r =>
      if Ascii.eqb c CR then
        match r with
        | String c' r' =>
            if Ascii.eqb c' LF then String LF (universal_newlines r')
            else String LF (universal_newlines r)
        | "" => String LF ""
        end
      else String c (universal_newlines r)
  end.

(** [rfile.readlines()]: every line keeps its LF; the last one may lack
    it. *)
Fixpoint readlines (s : string) : list string :=
  match s with
  | "" => []
  | String c r =>
      if Ascii.eqb c LF then String c "" :: readlines r
      else
        match readlines r with
        | [] => [String c ""]
        | l :: ls => String c l :: ls
        end
  end.

(** [l.rstrip()] *)
Fixpoint rstrip (s : string) : string :=
  match s with
  | "" => ""
  | String c r =>
      match rstrip r with
      | "" => if isspace c then "" else String c ""
      | r' => String c r'
      end
  end.

(** The lines handed to [wfile.writelines]. *)
Definition written_lines (modifier : string -> string) (content : string) : list string :=
  map (fun l => modifier (rstrip l) ++ NL)
      (readlines (universal_newlines content)).

(** [writelines] writes them one after the other. *)
Definition join_all (lines : list string) : string := fold_right append "" lines.

(** The text of the destination file once it is closed. *)
Definition copy_text (modifier : string -> string) (content : string) : string :=
  join_all (written_lines modifier content).

(** The last character is white space. *)
Fixpoint ends_in_space (s : string) : bool :=
  match s with
  | "" => false
  | String c "" => isspace c
  | String _ r => ends_in_space r
  end.

(** A line as the specification wants it, without its line end: no line end
    inside, no white space at its end. *)
Definition clean_line (s : string) : bool :=
  (negb (mem LF s) && negb (ends_in_space s))%bool.

(** A line of [readlines] has its only line end at its end, if at all. *)
Definition is_line (l : string) : Prop :=
  exists body, (l = body ++ NL \/ l = body) /\ mem LF body = false.

(** *** File system steps *)

(** [p.mkdir(parents=True, exist_ok=True)]: every missing ancestor is made,
    from the top down; a regular file in the way is an error. *)
Fixpoint mkdir_from (done todo : path) : M fs unit :=
  match todo with
  | [] => retM tt
  | part :: rest =>
      let p := (done ++ [part])%list in
      fun st =>
        match stat st p with
        | Some (File _) => (st, raise OSError)
        | Some Dir | Some Link => mkdir_from p rest st
        | None => mkdir_from p rest (update st p Dir)
        end
  end.

Definition mkdir_parents (p : path) : M fs unit := mkdir_from [] p.

(** [p.open("r")] then reading it all *)
Definition read_file (p : path) : M fs string :=
  fun st =>
    match stat st p with
    | Some (File content) => (st, ret content)
    | _ => (st, raise OSError)
    end.

(** [p.open("w")]: the file is made or emptied. *)
Definition open_write (p : path) : M fs unit :=
  fun st => if is_dir st p then (st, raise OSError) else (update st p (File ""), ret tt).

Definition write_file (p : path) (content : string) : M fs unit :=
  modify (fun st => update st p (File content)).

(** Lines 95 to 97: both files are opened, the source first; the lines are
    read after the destination was emptied. *)
Definition copy_normalized (modifier : string -> string) (fsrc fdest : path) : M fs unit :=
  _ <-- read_file fsrc ;;
  open_write fdest ;;;
  content <-- read_file fsrc ;;
  write_file fdest (copy_text modifier content).

(** [shutil.copy2(fsrc, fdest)]: into [fdest] when that is a directory; a
    file is not copied onto itself. *)
Definition copy2 (fsrc fdest : path) : M fs unit :=
  is_d <-- gets (fun st => is_dir st fdest) ;;
  let target := if is_d then (fdest ++ [name fsrc])%list else fdest in
  if path_eqb fsrc target then lift (raise OSError)
  else
    content <-- read_file fsrc ;;
    open_write target ;;;
    write_file target content.

Section WithGlob.

(** [root.glob(pattern)] on a file system: the matches, as paths relative to
    [root].  [pathlib] yields them joined to [root]. *)
Variable glob : fs -> path -> string -> list path.

Definition Path_glob (st : fs) (root : path) (pattern : string) : list path :=
  map (fun rel => (root ++ rel)%list) (glob st root pattern).

(** Lines 74 to 77 *)
Definition remove_top (st : fs) (top : string) : fs :=
  if is_file st [top] then unlink [top] st else rmtree [top] st.

(** Lines 65 to 80.  The value is [dest] as the copy loop finds it. *)
Definition preclean (patterns : list string) (dest : option path) (delete : bool)
  : M fs (option path) :=
  if delete then
    match dest with
    | None =>
        let dest := @nil string in
        files <-- gets (fun st => flat_map (Path_glob st dest) patterns) ;;
        tops <-- lift (mapM first_part files) ;;
        modify (fun st => fold_left remove_top (nodup string_dec tops) st) ;;;
        retM (Some dest)
    | Some d =>
        modify (rmtree d) ;;;
        retM (Some d)
    end
  else retM dest.

Section Loop.

Variable src : path.
Variable dest : option path.
Variable modifier : string -> string.
Variable binary : bool.

(** Lines 86 to 98, one match of a pattern *)
Definition copy_match (files : list path) (fsrc : path) : M fs (list path) :=
  is_f <-- gets (fun st => is_file st fsrc) ;;
  if negb is_f then retM files
  else
    fdest <-- lift (relative_to fsrc src) ;;
    let fdest := match dest with
                 | Some d => (d ++ fdest)%list
                 | None => fdest
                 end in
    mkdir_parents (parent fdest) ;;;
    (if binary then copy2 fsrc fdest else copy_normalized modifier fsrc fdest) ;;;
    retM (files ++ [fdest])%list.

(** Lines 85 to 98, one pattern: its matches are those of the file system
    as the pattern is reached. *)
Definition copy_pattern (files : list path) (pattern : string) : M fs (list path) :=
  matches <-- gets (fun st => Path_glob st src pattern) ;;
  foldM copy_match files matches.

End Loop.

Definition identity (v : string) : string := v.

(** Line 63: without a modifier, the identity. *)
Definition chosen (modifier : option (string -> string)) : string -> string :=
  match modifier with
  | None => identity
  | Some f => f
  end.

(** Where the match [rel] of a pattern lands: line 88. *)
Definition landing (dest : option path) (rel : path) : path :=
  match dest with
  | Some d => (d ++ rel)%list
  | None => rel
  end.

(** What the copy loop may raise. *)
Definition loop_error (e : exn) : Prop := e = OSError \/ e = ValueError.

(** The regular files that the patterns match below [src]. *)
Definition matched_files (src : path) (patterns : list string) (st : fs) : list path :=
  flat_map (fun pattern => filter (is_file st) (Path_glob st src pattern)) patterns.

(** [top] is the first part of a match of some pattern in the current
    directory. *)
Definition has_match (patterns : list string) (st : fs) (top : string) : Prop :=
  exists pattern rest, In pattern patterns /\ In (top :: rest) (glob st [] pattern).

(** [copy_files(src, patterns, dest, delete, modifier, binary)] *)
Definition copy_files (src : path) (patterns : list string) (dest : option path)
    (delete : bool) (modifier : option (string -> string)) (binary : bool)
  : M fs (list path) :=
  let modifier := chosen modifier in
  dest <-- preclean patterns dest delete ;;
  files <-- foldM (copy_pattern src dest modifier binary) [] patterns ;;
  match files with
  | [] => lift (raise AssertionError)
  | _ => retM files
  end.

End WithGlob.

End Copier.

(** ** Commit recorder: [commit] *)

Module Recorder.

Open Scope world_scope.

(** The world of [commit] is the list of the shell commands run so far. *)
Definition shell_log : Type := list string.

Section WithShell.

(** The exit status of a shell command. *)
Variable sh : string -> nat.

(** [subprocess.check_call(cmd, shell=True)] *)
Definition check_call (cmd : string) : M shell_log unit :=
  fun log =>
    ((log ++ [cmd])%list,
     if Nat.eqb (sh cmd) 0 then ret tt else raise (CalledProcessError (sh cmd))).

(** [subprocess.call(cmd, shell=True)] *)
Definition call (cmd : string) : M shell_log nat :=
  fun log => ((log ++ [cmd])%list, ret (sh cmd)).

(** [subprocess.run(cmd, shell=True)], the outcome dropped *)
Definition run (cmd : string) : M shell_log unit :=
  fun log => ((log ++ [cmd])%list, ret tt).

(** [tag[0]] *)
Definition first_char (tag : string) : result ascii :=
  match tag with
  | "" => raise IndexError
  | String c _ => ret c
  end.

(** Lines 123 and 124: what follows "Update to " *)
Definition format_tag (tag : option string) : result string :=
  let tag := match tag with
             | None => "latest"
             | Some t => t
             end in
  c <- first_char tag ;;
  ret (if isdigit c then "v" ++ tag else tag).

Definition quote : string := String DQUOTE "".

Definition git_add (files : list string) : string := "git add " ++ String.concat " " files.
Definition git_diff_index : string := "git diff-index --quiet HEAD --".
Definition git_commit (message : string) : string :=
  "git commit -m " ++ quote ++ message ++ quote.

(** [commit(files, tag)].  A Python set has no order of its own; the one of
    [nodup] stands for it. *)
Definition commit (files : list path) (tag : option string) : M shell_log unit :=
  tops <-- lift (mapM first_part files) ;;
  let files := nodup string_dec tops in
  check_call (git_add files) ;;;
  changed <-- call git_diff_index ;;
  if negb (Nat.eqb changed 0) then
    tag <-- lift (format_tag tag) ;;
    run (git_commit ("Update to " ++ tag))
  else retM tt.

End WithShell.

(** The label of the commit message, in the words of the specification. *)
Definition label (tag : option string) : string :=
  match tag with
  | None => "latest"
  | Some t =>
      match t with
      | String c _ => if isdigit c then "v" ++ t else t
      | "" => t
      end
  end.

(** The five ways [commit] can go, with the commands each one runs. *)
Inductive commit_run (sh : string -> nat) (files : list path) (tag : option string)
  : shell_log -> result unit -> Prop :=
| run_no_parts :
    mapM first_part files = inl IndexError ->
    commit_run sh files tag [] (inl IndexError)
| run_add_failed tops :
    mapM first_part files = inr tops ->
    sh (git_add (nodup string_dec tops)) <> 0 ->
    commit_run sh files tag [git_add (nodup string_dec tops)]
               (inl (CalledProcessError (sh (git_add (nodup string_dec tops)))))
| run_unchanged tops :
    mapM first_part files = inr tops ->
    sh (git_add (nodup string_dec tops)) = 0 ->
    sh git_diff_index = 0 ->
    commit_run sh files tag [git_add (nodup string_dec tops); git_diff_index] (inr tt)
| run_no_first_char tops :
    mapM first_part files = inr tops ->
    sh (git_add (nodup string_dec tops)) = 0 ->
    sh git_diff_index <> 0 ->
    tag = Some "" ->
    commit_run sh files tag [git_add (nodup string_dec tops); git_diff_index]
               (inl IndexError)
| run_committed tops :
    mapM first_part files = inr tops ->
    sh (git_add (nodup string_dec tops)) = 0 ->
    sh git_diff_index <> 0 ->
    tag <> Some "" ->
    commit_run sh files tag
               [git_add (nodup string_dec tops); git_diff_index;
                git_commit ("Update to " ++ label tag)]
               (inr tt).

End Recorder.

(** ** Marker substitution: [replace_key] *)

Module Markers.

(** [re.sub] is embedded for the patterns and templates that [replace_key]
    builds from a key and a content without characters that are special to
    [re]: then the pattern is the opening marker, any text taken lazily
    (DOTALL: line ends too) and the closing marker, and the template stands
    for itself. *)

Definition regex_special : string := ".^$*+?{}[]\|()".

(** The key stands for itself in the pattern and in the template. *)
Definition plain_key (key : string) : bool :=
  forallb_string (fun c => negb (mem c regex_special)) key.

(** The content stands for itself in the template. *)
Definition plain_content (content : string) : bool :=
  forallb_string (fun c => negb (Ascii.eqb c "\"%char)) content.

Definition open_marker (key : string) : string := "<!--" ++ key ++ "-->".
Definition close_marker (key : string) : string := "<!--/" ++ key ++ "-->".

Fixpoint skip (n : nat) (s : string) : string :=
  match n, s with
  | S k, String _ r => skip k r
  | _, _ => s
  end.

(** The offset of the first occurrence of [needle] in [s]. *)
Fixpoint find (needle s : string) : option nat :=
  if String.prefix needle s then Some 0
  else
    match s with
    | "" => None
    | String _ r => option_map S (find needle r)
    end.

(** The length of the match of [opening .*? closing] at the start of [s]:
    the lazy star stops at the first closing marker. *)
Definition match_length (opening closing s : string) : option nat :=
  if String.prefix opening s then
    option_map (fun k => String.length opening + k + String.length closing)
               (find closing (skip (String.length opening) s))
  else None.

(** [re.sub]: left to right, the leftmost match is replaced and the scan
    goes on behind it; [pending] counts the matched characters still to be
    passed over. *)
Fixpoint sub_from (opening closing repl : string) (pending : nat) (s : string) : string :=
  match s with
  | "" => ""
  | String c r =>
      match pending with
      | S k => sub_from opening closing repl k r
      | O =>
          match match_length opening closing s with
          | Some n => repl ++ sub_from opening closing repl (n - 1) r
          | None => String c (sub_from opening closing repl 0 r)
          end
      end
  end.

(** [replace_key(text, key, content)]; [None] outside the embedded part of
    [re]. *)
Definition replace_key (text key content : string) : option string :=
  if (plain_key key && plain_content content)%bool then
    Some (sub_from (open_marker key) (close_marker key)
                   (open_marker key ++ NL ++ content ++ NL ++ close_marker key)
                   0 text)
  else None.

End Markers.

(** ** Scenarios

    Concrete worlds on which the properties are exercised. *)

Module Scenario.

Import Resolver.

Definition widgets : string := "acme/widgets".

(** A repository that has tags and answers every other request with the
    given HTTP status; 404 is what the release endpoint says when there is
    no release. *)
Definition tags_only (status : nat) (names : list string) (url : string) : result json :=
  if String.eqb url (tags_url widgets) then inr (tags_response names)
  else inl (HTTPError status).

(** No network. *)
Definition offline (url : string) : result json := inl URLError.

Definition mixed_tags : list string := ["v1.2.0"; "v1.10.0"; "v1.9.3"].

End Scenario.

Module ScenarioShell.

(** A working tree with staged changes: every command succeeds, and
    [git diff-index --quiet] reports a difference by its status 1. *)
Definition changed_tree (cmd : string) : nat :=
  if String.eqb cmd Recorder.git_diff_index then 1 else 0.

Definition headers : list path := [["src"; "widget.h"]; ["src"; "util"; "list.h"]].

End ScenarioShell.

Module ScenarioText.

(** Three lines with trailing blanks, ended by CR LF, LF and a lone CR, and
    a last line without line end. *)
Definition mixed_endings : string :=
  "alpha  " ++ String CR (String LF "") ++ "beta" ++ String LF ""
  ++ "gamma " ++ String CR "" ++ "delta".

(** A transformation that pads every line with a blank. *)
Definition pad (v : string) : string := v ++ " ".

End ScenarioText.

Module ScenarioMarkers.

(** A page with two marked blocks; the first spans several lines. *)
Definition intro : string := "# widgets" ++ NL.
Definition old_links : string := NL ++ "- one" ++ NL ++ "- two" ++ NL.
Definition rest : string := NL ++ "<!--stats-->12 files<!--/stats-->" ++ NL.
Definition page : string :=
  intro ++ "<!--links-->" ++ old_links ++ "<!--/links-->" ++ rest.

Definition new_links : string := "- three" ++ NL ++ "- four".

End ScenarioMarkers.

Module ScenarioFiles.

Import Copier.

Fixpoint split_slash (s : string) : path :=
  match s with
  | "" => [""]
  | String c r =>
      if Ascii.eqb c "/"%char then "" :: split_slash r
      else
        match split_slash r with
        | part :: parts => String c part :: parts
        | [] => [String c ""]
        end
  end.

(** A glob for patterns without wildcard: the pattern names one path, which
    matches when it exists. *)
Definition literal_glob (st : fs) (root : path) (pattern : string) : list path :=
  match stat st (root ++ split_slash pattern)%list with
  | Some _ => [split_slash pattern]
  | None => []
  end.

Fixpoint tree (entries : list (path * node)) : fs :=
  match entries with
  | [] => fun _ => None
  | (p, n) :: rest => update (tree rest) p n
  end.

Definition CRLF : string := String CR (String LF "").

(** The consumer repository: the clone of acme/widgets in [widgets_src],
    headers vendored earlier in [src], and files of its own. *)
Definition consumer : fs :=
  tree [ (["widgets_src"], Dir);
         (["widgets_src"; "src"], Dir);
         (["widgets_src"; "src"; "widget.h"], File ("int w;  " ++ CRLF ++ "int h;" ++ CRLF));
         (["widgets_src"; "README.md"], File "widgets");
         (["src"], Dir);
         (["src"; "widget.h"], File "int old;");
         (["src"; "stale.h"], File "int stale;");
         (["docs"], Dir);
         (["docs"; "notes.txt"], File "notes");
         (["LICENSE"], File "MPL-2.0") ].

Definition clone : path := ["widgets_src"].

End ScenarioFiles.

(** ** Words for further properties of the copier *)

Module ScenarioClean.

Import Copier.

(** A glob that knows [**], which matches the directory itself and every
    directory below it, on trees whose directories are those of the
    consumer repository; any other pattern is taken literally. *)
Definition dir_glob (st : fs) (root : path) (pattern : string) : list path :=
  if String.eqb pattern "**" then
    filter (fun rel => is_dir st (root ++ rel)%list)
           [[]; ["docs"]; ["src"]; ["widgets_src"]; ["widgets_src"; "src"]]
  else ScenarioFiles.literal_glob st root pattern.

(** The consumer repository with [docs] a symbolic link to a directory that
    holds the notes. *)
Definition linked : fs := update ScenarioFiles.consumer ["docs"] Link.

End ScenarioClean.

Module CopierWords.

(** No part of the path is [..]: the path only goes down, and names what
    lies at it. *)
Definition descends (p : path) : bool :=
  forallb (fun part => negb (String.eqb part "..")) p.

(** The match lies below the current directory: its path has a first part,
    and that is not [..]. *)
Definition below_here (f : path) : bool :=
  match f with
  | [] => false
  | top :: _ => negb (String.eqb top "..")
  end.

(** Something was written for the returned path [f]: it is a regular file,
    or, in binary mode, a directory with a regular file in it. *)
Definition written_at (binary : bool) (st : fs) (f : path) : Prop :=
  (exists c, st f = Some (File c))
  \/ (binary = true /\ is_dir st f = true
      /\ exists n c, st (f ++ [n])%list = Some (File c)).

(** Where [shutil.copy2(fsrc, fdest)] writes: inside [fdest], under the
    name of the source, when [fdest] is a directory. *)
Definition copy2_target (st : fs) (fsrc fdest : path) : path :=
  if is_dir st fdest then (fdest ++ [name fsrc])%list else fdest.

(** From [st] to [st'] nothing outside the tree at [d] has changed, except
    that directories on the way down to [d] may have been made. *)
Definition kept_outside (d : path) (st st' : fs) : Prop :=
  forall q, is_prefix d q = false ->
            st' q = st q \/ (st q = None /\ st' q = Some Dir /\ is_prefix q d = true).

(** The file at [f] holds a text that the text mode has written. *)
Definition normalized_at (modifier : string -> string) (st : fs) (f : path) : Prop :=
  exists c, st f = Some (File (Copier.copy_text modifier c)).

(** Below [d] every regular file is one of [files], or lies in a directory
    that is. *)
Definition all_listed (d : path) (binary : bool) (st : fs) (files : list path) : Prop :=
  forall q c, is_prefix d q = true -> st q = Some (File c) ->
              In q files \/ (binary = true /\ In (parent q) files).

End CopierWords.

(** ** The pipeline: [clone_repo], [apply_patch], [keepalive], [copy_repo] *)

Module Pipeline.

Import Resolver Copier Recorder.

Open Scope world_scope.

(** The world of the pipeline: the file tree below the current directory
    and the shell commands run so far. *)
Record world : Type := World { files : fs; log : shell_log }.

(** [str(p)] for a relative path *)
Definition path_str (p : path) : string :=
  match p with
  | [] => "."
  | _ => String.concat "/" p
  end.

(** [p.exists()] *)
Definition path_exists (st : fs) (p : path) : bool :=
  match stat st p with
  | Some _ => true
  | None => false
  end.

(** [s.split(sep)] for a separator of one character *)
Fixpoint split_on (sep : ascii) (s : string) : list string :=
  match s with
  | "" => [""]
  | String c r =>
      if Ascii.eqb c sep then "" :: split_on sep r
      else
        match split_on sep r with
        | part :: parts => String c part :: parts
        | [] => [String c ""]
        end
  end.

(** Line 142: [Path(f"{repo.rsplit('/')[-1]}_src")].  The string holds no
    slash, so the path has the one part. *)
Definition clone_dir (repo : string) : path := [last (split_on "/"%char repo) "" ++ "_src"].

(** Lines 42 to 44: the command line of the clone *)
Definition branch_flag (branch : option string) : string :=
  match branch with
  | None => ""
  | Some b => "--branch " ++ b
  end.

Definition git_clone (repo : string) (dest : path) (branch : option string) : string :=
  "GIT_LFS_SKIP_SMUDGE=1 git -c advice.detachedHead=false clone --depth=1 "
  ++ branch_flag branch ++ " https://github.com/" ++ repo ++ ".git " ++ path_str dest.

(** Line 109 *)
Definition git_apply (file : path) : string :=
  "git apply -v --ignore-whitespace " ++ path_str file.

(** Lines 176 and 177; the shell fills in the variable. *)
Definition gh_enable (workflow : string) : string :=
  "gh api --silent -X PUT repos/${GITHUB_REPOSITORY}/actions/workflows/"
  ++ workflow ++ "/enable".

(** The tag as [clone_repo] and [commit] take it: a string, or [None] for
    the JSON null.  A "tag_name" of another JSON type is outside the
    embedding. *)
Definition as_tag (t : option json) : option (option string) :=
  match t with
  | None => Some None
  | Some JNull => Some None
  | Some (JStr s) => Some (Some s)
  | Some _ => None
  end.

Section WithWorld.

(** The network, [pathlib]'s glob and the shell.  A shell command returns
    its exit status, [sh], and may change the file tree, [effect]. *)
Variable urlopen : string -> result json.
Variable glob : fs -> path -> string -> list path.
Variable sh : string -> nat.
Variable effect : string -> fs -> fs.

(** ["GITHUB_TOKEN" in os.environ] *)
Variable environ : string -> option string.

(** A step on the file tree alone *)
Definition in_files {A} (m : M fs A) : M world A :=
  fun w =>
    let (st, r) := m (files w) in
    (World st (log w), r).

(** Steps that run shell commands and do not look at the file tree in
    between: the commands go to the log, and the tree is what they leave
    behind, one after the other. *)
Definition in_shell {A} (m : M shell_log A) : M world A :=
  fun w =>
    let (cmds, r) := m [] in
    (World (fold_left (fun st cmd => effect cmd st) cmds (files w)) (log w ++ cmds)%list, r).

(** [clone_repo(repo, dest, branch, overwrite)] *)
Definition clone_repo (repo : string) (dest : path) (branch : option string)
    (overwrite : bool) : M world unit :=
  present <-- gets (fun w => path_exists (files w) dest) ;;
  if (negb overwrite && present)%bool then retM tt
  else
    in_files (modify (rmtree dest)) ;;;
    in_shell (check_call sh (git_clone repo dest branch)).

(** [apply_patch(file)] *)
Definition apply_patch (file : path) : M world unit :=
  in_shell (check_call sh (git_apply file)).

(** [keepalive(workflows)]; the default list is the glob as the loop
    starts. *)
Definition keepalive (workflows : option (list path)) : M world unit :=
  match environ "GITHUB_TOKEN" with
  | Some _ =>
      workflows <-- match workflows with
                    | None => gets (fun w => Path_glob glob (files w)
                                                       [".github"; "workflows"] "*.y*ml")
                    | Some l => retM l
                    end ;;
      foldM (fun _ workflow => in_shell (run (gh_enable (name workflow)))) tt workflows
  | None => retM tt
  end.

(** Line 143 *)
Definition resolve_tag (repo : string) (head : bool) : result (option json) :=
  if head then ret None
  else (t <- latest_release_tag urlopen repo ;; ret (Some t))%py.

(** Lines 144 to 147, for a tag that is [None] or a string *)
Definition vendor (repo : string) (patterns : list string) (dest : option path)
    (patch : option path) (fast binary : bool) (tag : option string) : M world unit :=
  let src := clone_dir repo in
  clone_repo repo src tag (negb fast) ;;;
  copied <-- in_files (copy_files glob src patterns dest true None binary) ;;
  match patch with
  | Some file => apply_patch file
  | None => retM tt
  end ;;;
  in_shell (commit sh copied tag).

(** [copy_repo(repo, patterns, dest, patch, fast, head, binary)]; [None]
    where the tag is outside the embedding. *)
Definition copy_repo (repo : string) (patterns : list string) (dest : option path)
    (patch : option path) (fast head binary : bool) (w : world)
  : option (world * result unit) :=
  match resolve_tag repo head with
  | inl e => Some (w, inl e)
  | inr t =>
      match as_tag t with
      | Some tag => Some (vendor repo patterns dest patch fast binary tag w)
      | None => None
      end
  end.

End WithWorld.

End Pipeline.

Module ScenarioPipeline.

Import Pipeline.

(** [git clone] puts the header of the widgets in place; no other command
    touches the tree. *)
Definition git_effect (cmd : string) (st : fs) : fs :=
  if String.prefix "GIT_LFS_SKIP_SMUDGE=1 git " cmd then
    update (update (update st ["widgets_src"] Dir) ["widgets_src"; "src"] Dir)
           ["widgets_src"; "src"; "widget.h"] (File "int w;")
  else st.

Definition empty_tree : fs := fun _ => None.

Definition start : world := World empty_tree [].

Definition released (url : string) : result json :=
  inr (JObj [("tag_name", JStr "2.3.1")]).

Definition no_environ (key : string) : option string := None.

Definition with_token (key : string) : option string :=
  if String.eqb key "GITHUB_TOKEN" then Some "secret" else None.

End ScenarioPipeline.

Module ScenarioMarkersMore.

Import Markers.

(** The page of [ScenarioMarkers] with its links replaced. *)
Definition page_after : string :=
  ScenarioMarkers.intro
  ++ (open_marker "links" ++ NL ++ ScenarioMarkers.new_links ++ NL ++ close_marker "links")
  ++ ScenarioMarkers.rest.

(** A page whose block was never closed. *)
Definition unclosed : string := "# widgets" ++ NL ++ "<!--links-->" ++ NL ++ "- one" ++ NL.

End ScenarioMarkersMore.

Module ScenarioPipelineMore.

Import Pipeline ScenarioPipeline.

(** A tree that already holds a clone of the widgets. *)
Definition cloned : world :=
  World (git_effect (git_clone "acme/widgets" ["widgets_src"] None) empty_tree) [].

(** A shell in which [git apply] fails and all else succeeds, with a
    changed tree. *)
Definition patch_fails (cmd : string) : nat :=
  if String.prefix "git apply" cmd then 1 else ScenarioShell.changed_tree cmd.

End ScenarioPipelineMore.

Module PipelineWords.

Import Copier Recorder Pipeline.

Open Scope world_scope.

(** Lines 145 to 147 on the world as it is: the copy out of the clone
    directory, the patch, the commit. *)
Definition copy_patch_commit (glob : fs -> path -> string -> list path)
    (sh : string -> nat) (effect : string -> fs -> fs)
    (repo : string) (patterns : list string) (dest : option path)
    (patch : option path) (binary : bool) (tag : option string) : M world unit :=
  copied <-- in_files (copy_files glob (clone_dir repo) patterns dest true None binary) ;;
  match patch with
  | Some file => apply_patch sh effect file
  | None => retM tt
  end ;;;
  in_shell effect (commit sh copied tag).

(** Every clone command of the log [after] was in the log [before]
    already. *)
Definition no_new_clone (before after : Recorder.shell_log) : Prop :=
  forall repo dest branch,
    In (git_clone repo dest branch) after -> In (git_clone repo dest branch) before.

End PipelineWords.

(* ================================================================== *)
(** * Part II: properties                                              *)
(* ================================================================== *)

(** ** The order on sort keys *)

Section TupleOrder.

Import Resolver.

Lemma tuple_lt_irrefl (a : list N) : tuple_lt a a = false.
Proof.
  induction a as [|x a IH]; simpl; [reflexivity|].
  now rewrite N.eqb_refl.
Qed.

Lemma tuple_lt_asym (a b : list N) : tuple_lt a b = true -> tuple_lt b a = false.
Proof.
  revert b; induction a as [|x a IH]; intros [|y b]; simpl; try congruence.
  destruct (N.eqb_spec x y) as [->|Hxy].
  - rewrite N.eqb_refl. apply IH.
  - intros Hlt. apply N.ltb_lt in Hlt.
    destruct (N.eqb_spec y x) as [->|_]; [lia|].
    apply N.ltb_ge. lia.
Qed.

Lemma tuple_lt_trans (a b c : list N) :
  tuple_lt a b = true -> tuple_lt b c = true -> tuple_lt a c = true.
Proof.
  revert b c; induction a as [|x a IH]; intros [|y b] [|z c]; simpl; try congruence.
  destruct (N.eqb_spec x y) as [->|Hxy].
  - destruct (N.eqb_spec y z) as [->|Hyz]; [apply IH | trivial].
  - intros Hlt. apply N.ltb_lt in Hlt.
    destruct (N.eqb_spec y z) as [->|Hyz].
    + intros _. destruct (N.eqb_spec x z) as [->|_]; [lia | now apply N.ltb_lt].
    + intros Hlt'. apply N.ltb_lt in Hlt'.
      destruct (N.eqb_spec x z) as [->|_]; [lia | apply N.ltb_lt; lia].
Qed.

(** Two keys are always comparable. *)
Lemma tuple_lt_total (a b : list N) :
  tuple_lt a b = false -> tuple_lt b a = false -> a = b.
Proof.
  revert b; induction a as [|x a IH]; intros [|y b]; simpl; try congruence.
  destruct (N.eqb_spec x y) as [->|Hxy].
  - rewrite N.eqb_refl. intros H1 H2. f_equal. now apply IH.
  - destruct (N.eqb_spec y x) as [->|_]; [congruence|].
    intros H1 H2. apply N.ltb_ge in H1, H2. lia.
Qed.

Lemma tuple_le_trans (a b c : list N) : tuple_le a b -> tuple_le b c -> tuple_le a c.
Proof.
  unfold tuple_le. intros Hab Hbc.
  destruct (tuple_lt c a) eqn:Hca; [|reflexivity].
  destruct (tuple_lt b c) eqn:Hbc'.
  - pose proof (tuple_lt_trans _ _ _ Hbc' Hca). congruence.
  - pose proof (tuple_lt_total _ _ Hbc' Hbc) as ->. congruence.
Qed.

Lemma tuple_lt_le (a b : list N) : tuple_lt a b = true -> tuple_le a b.
Proof. apply tuple_lt_asym. Qed.

End TupleOrder.

(** ** The stable sort and its last item *)

Section SortFacts.

Import Resolver.

Context {A : Type}.

Let item : Type := (list N * A)%type.

Lemma insert_perm (x : item) (l : list item) : Permutation (x :: l) (insert x l).
Proof.
  induction l as [|y l IH]; simpl; [apply Permutation_refl|].
  destruct (tuple_lt (fst y) (fst x)).
  - eapply perm_trans; [apply perm_swap|]. now apply perm_skip.
  - apply Permutation_refl.
Qed.

Lemma sort_perm (l : list item) : Permutation l (sort l).
Proof.
  induction l as [|x l IH]; simpl; [constructor|].
  eapply perm_trans; [apply perm_skip, IH | apply insert_perm].
Qed.

Lemma insert_sorted (x : item) (l : list item) :
  StronglySorted key_le l -> StronglySorted key_le (insert x l).
Proof.
  induction 1 as [|y l Hl IH Hy]; simpl.
  - repeat constructor.
  - destruct (tuple_lt (fst y) (fst x)) eqn:Hyx.
    + constructor; [exact IH|].
      rewrite Forall_forall in *. intros z Hz.
      apply (Permutation_in _ (Permutation_sym (insert_perm x l))) in Hz.
      destruct Hz as [<-|Hz]; [now apply tuple_lt_le | now apply Hy].
    + constructor; [now constructor|].
      constructor; [exact Hyx|].
      rewrite Forall_forall in *. intros z Hz.
      eapply tuple_le_trans; [exact Hyx | now apply Hy].
Qed.

Lemma sort_sorted (l : list item) : StronglySorted key_le (sort l).
Proof.
  induction l as [|x l IH]; simpl; [constructor | now apply insert_sorted].
Qed.

End SortFacts.

Section LastFacts.

Context {A : Type}.

Lemma last_item_cons_cons (x y : A) (l : list A) :
  last_item (x :: y :: l) = last_item (y :: l).
Proof. reflexivity. Qed.

Lemma last_item_some (l : list A) : l <> [] -> exists x, last_item l = inr x.
Proof.
  induction l as [|x l IH]; [congruence|]. intros _.
  destruct l as [|y l]; [now exists x|].
  rewrite last_item_cons_cons. apply IH. discriminate.
Qed.

Lemma last_item_map {B} (f : A -> B) (l : list A) (x : A) :
  last_item l = inr x -> last_item (map f l) = inr (f x).
Proof.
  induction l as [|y l IH]; [discriminate|].
  destruct l as [|z l]; [now intros [= <-]|].
  rewrite last_item_cons_cons. intros Hx.
  change (last_item (map f (z :: l)) = inr (f x)). now apply IH.
Qed.

(** The last item of a sorted list is above all items. *)
Lemma last_item_sorted (R : A -> A -> Prop) (l : list A) (x : A) :
  (forall a, R a a) -> StronglySorted R l -> last_item l = inr x ->
  In x l /\ forall y, In y l -> R y x.
Proof.
  intros Hrefl Hs. induction Hs as [|a l Hl IH Ha]; [discriminate|].
  destruct l as [|b l].
  - intros [= <-]. split; [now left|]. intros y [<-|[]]. apply Hrefl.
  - rewrite last_item_cons_cons. intros Hx.
    destruct (IH Hx) as [Hin Hmax]. split; [now right|].
    intros y [<-|Hy]; [|now apply Hmax].
    rewrite Forall_forall in Ha. now apply Ha.
Qed.

End LastFacts.

(** ** Version resolver *)

Section ResolverFacts.

Import Resolver.

Lemma insert_map_values {A B} (g : A -> B) (x : list N * A) (l : list (list N * A)) :
  insert (fst x, g (snd x)) (map (fun p => (fst p, g (snd p))) l)
  = map (fun p => (fst p, g (snd p))) (insert x l).
Proof.
  induction l as [|y l IH]; [reflexivity|].
  cbn [map insert fst snd]. destruct (tuple_lt (fst y) (fst x)); cbn [map fst snd].
  - now rewrite IH.
  - reflexivity.
Qed.

Lemma sort_map_values {A B} (g : A -> B) (l : list (list N * A)) :
  sort (map (fun p => (fst p, g (snd p))) l)
  = map (fun p => (fst p, g (snd p))) (sort l).
Proof.
  induction l as [|x l IH]; [reflexivity|].
  cbn [map sort]. rewrite IH. apply insert_map_values.
Qed.

Lemma mapM_sort_key_strings (names : list string) :
  mapM sort_key (map JStr names) = inr (map tag_key names).
Proof.
  induction names as [|n names IH]; [reflexivity|].
  cbn [map mapM sort_key]. unfold bind, ret at 1. rewrite IH. reflexivity.
Qed.

Lemma combine_decorate (names : list string) :
  combine (map tag_key names) (map JStr names)
  = map (fun p => (fst p, JStr (snd p))) (decorate names).
Proof.
  induction names as [|n names IH]; [reflexivity|].
  cbn [map combine decorate fst snd]. now rewrite IH.
Qed.

Lemma sort_by_key_strings (names : list string) :
  sort_by_key (map JStr names) = inr (map JStr (map snd (sort (decorate names)))).
Proof.
  unfold sort_by_key. rewrite mapM_sort_key_strings. unfold bind, ret.
  rewrite combine_decorate, sort_map_values, !map_map. reflexivity.
Qed.

Lemma key_le_refl {A} (x : list N * A) : key_le x x.
Proof. apply tuple_lt_irrefl. Qed.

(** The fallback on a list of strings: the last of the sorted names, whose
    key no other key exceeds. *)
Lemma select_latest_strings (names : list string) :
  names <> [] ->
  exists t, select_latest (map JStr names) = inr (JStr t)
            /\ In t names
            /\ forall u, In u names -> tuple_le (tag_key u) (tag_key t).
Proof.
  intros Hne. unfold select_latest. rewrite sort_by_key_strings. unfold bind.
  assert (Hs : sort (decorate names) <> []).
  { intros E. pose proof (sort_perm (decorate names)) as P. rewrite E in P.
    apply Permutation_sym, Permutation_nil in P.
    destruct names; [congruence | discriminate]. }
  destruct (last_item_some _ Hs) as [[k t] Hlast].
  destruct (last_item_sorted key_le _ _ key_le_refl (sort_sorted _) Hlast) as [Hin Hmax].
  apply (Permutation_in _ (Permutation_sym (sort_perm _))) in Hin.
  unfold decorate in Hin. apply in_map_iff in Hin. destruct Hin as (t' & [= <- <-] & Hin).
  exists t'. split; [|split; [exact Hin|]].
  - apply (last_item_map JStr). now apply (last_item_map snd) in Hlast.
  - intros u Hu.
    apply (Hmax (tag_key u, u)).
    apply (Permutation_in _ (sort_perm _)). unfold decorate.
    apply in_map_iff. now exists u.
Qed.

Lemma mapM_names (names : list string) :
  mapM (fun tag => getitem tag "name") (map (fun n => JObj [("name", JStr n)]) names)
  = inr (map JStr names).
Proof.
  induction names as [|n names IH]; [reflexivity|].
  cbn [map mapM]. rewrite IH. reflexivity.
Qed.

Section WithNetwork.

Variable urlopen : string -> result json.
Variable repo : string.

(** An error of the release endpoint decides the path by its class alone. *)
Lemma latest_release_tag_error (e : exn) :
  urlopen (releases_latest_url repo) = inl e ->
  latest_release_tag urlopen repo
  = if is_HTTPError e then tags_path urlopen repo else inl e.
Proof.
  intros He. unfold latest_release_tag, release_path. rewrite He.
  destruct e; reflexivity.
Qed.

Lemma tags_path_names (names : list string) :
  urlopen (tags_url repo) = inr (tags_response names) ->
  tags_path urlopen repo = select_latest (map JStr names).
Proof.
  intros Ht. unfold tags_path. rewrite Ht. unfold bind at 1.
  unfold tags_response, iter, ret, bind at 1. rewrite mapM_names. reflexivity.
Qed.

End WithNetwork.

End ResolverFacts.

(** ** Claims on the version resolver *)

Section ResolverClaims.

Import Resolver.

(** C1: for a non-empty list of tag names the fallback of
    [latest_release_tag] returns one of the names, and no name of the list
    has a greater key, where the key of a name is the tuple of the integers
    written by its maximal digit runs and tuples compare as Python compares
    them; for "v1.2.0", "v1.10.0", "v1.9.3" it returns "v1.10.0". *)
Theorem C1_fallback_returns_greatest_key :
  forall (urlopen : string -> result json) (repo : string) (status : nat)
         (names : list string),
    names <> [] ->
    urlopen (releases_latest_url repo) = inl (HTTPError status) ->
    urlopen (tags_url repo) = inr (tags_response names) ->
    latest_release_tag urlopen repo = select_latest (map JStr names)
    /\ (exists t, select_latest (map JStr names) = inr (JStr t)
                  /\ In t names
                  /\ forall u, In u names -> tuple_le (tag_key u) (tag_key t))
    /\ select_latest (map JStr ["v1.2.0"; "v1.10.0"; "v1.9.3"]) = inr (JStr "v1.10.0").
Proof.
  intros urlopen repo status names Hne Hrel Htags. split; [|split].
  - rewrite (latest_release_tag_error urlopen repo _ Hrel). cbn [is_HTTPError].
    now apply tags_path_names.
  - now apply select_latest_strings.
  - reflexivity.
Qed.

Lemma C1_fallback_returns_greatest_key_witness :
  latest_release_tag (Scenario.tags_only 404 Scenario.mixed_tags) Scenario.widgets
  = select_latest (map JStr Scenario.mixed_tags)
  /\ (exists t, select_latest (map JStr Scenario.mixed_tags) = inr (JStr t)
                /\ In t Scenario.mixed_tags
                /\ forall u, In u Scenario.mixed_tags -> tuple_le (tag_key u) (tag_key t))
  /\ select_latest (map JStr ["v1.2.0"; "v1.10.0"; "v1.9.3"]) = inr (JStr "v1.10.0").
Proof.
  apply (C1_fallback_returns_greatest_key
           (Scenario.tags_only 404 Scenario.mixed_tags) Scenario.widgets 404
           Scenario.mixed_tags).
  - discriminate.
  - reflexivity.
  - reflexivity.
Defined.

(** C2, as the claim has it, fails: a release endpoint that answers with
    HTTP status 403 is not "not found", yet the resolver falls back to the
    tags and returns one instead of raising. *)
Lemma C2_fallback_only_on_not_found_counterexample :
  Scenario.tags_only 403 ["v1.0"] (releases_latest_url Scenario.widgets)
  = inl (HTTPError 403)
  /\ HTTPError 403 <> HTTPError 404
  /\ latest_release_tag (Scenario.tags_only 403 ["v1.0"]) Scenario.widgets
     = inr (JStr "v1.0").
Proof.
  split; [reflexivity|]. split; [discriminate | reflexivity].
Qed.

(** C2, amended: when the release endpoint raises, the resolver takes the
    tag-listing path exactly when the exception is an HTTPError, whatever
    its status, and its outcome is then that of the tag-listing path; every
    other exception of the endpoint leaves [latest_release_tag] as it is. *)
Theorem C2_fallback_on_any_http_error :
  forall (urlopen : string -> result json) (repo : string) (e : exn),
    urlopen (releases_latest_url repo) = inl e ->
    (is_HTTPError e = true <-> exists status, e = HTTPError status)
    /\ (is_HTTPError e = true ->
        latest_release_tag urlopen repo = tags_path urlopen repo)
    /\ (is_HTTPError e = false -> latest_release_tag urlopen repo = inl e).
Proof.
  intros urlopen repo e He.
  rewrite (latest_release_tag_error urlopen repo e He).
  split; [|split].
  - split.
    + destruct e; try discriminate. intros _. now eexists.
    + intros [status ->]. reflexivity.
  - now intros ->.
  - now intros ->.
Qed.

Lemma C2_fallback_on_any_http_error_witness :
  (is_HTTPError URLError = true <-> exists status, URLError = HTTPError status)
  /\ (is_HTTPError URLError = true ->
      latest_release_tag Scenario.offline Scenario.widgets
      = tags_path Scenario.offline Scenario.widgets)
  /\ (is_HTTPError URLError = false ->
      latest_release_tag Scenario.offline Scenario.widgets = inl URLError).
Proof.
  apply (C2_fallback_on_any_http_error Scenario.offline Scenario.widgets URLError).
  reflexivity.
Defined.

(** C9: without a release and without tags, [latest_release_tag] raises
    IndexError. *)
Theorem C9_no_tags_raises_index_error :
  forall (urlopen : string -> result json) (repo : string) (status : nat),
    urlopen (releases_latest_url repo) = inl (HTTPError status) ->
    urlopen (tags_url repo) = inr (tags_response []) ->
    latest_release_tag urlopen repo = inl IndexError.
Proof.
  intros urlopen repo status Hrel Htags.
  rewrite (latest_release_tag_error urlopen repo _ Hrel). cbn [is_HTTPError].
  rewrite (tags_path_names urlopen repo [] Htags). reflexivity.
Qed.

Lemma C9_no_tags_raises_index_error_witness :
  latest_release_tag (Scenario.tags_only 404 []) Scenario.widgets = inl IndexError.
Proof.
  apply (C9_no_tags_raises_index_error (Scenario.tags_only 404 []) Scenario.widgets 404);
    reflexivity.
Defined.

End ResolverClaims.

(** ** Strings *)

Section StringFacts.

Lemma append_nil_r (s : string) : s ++ "" = s.
Proof. induction s as [|c s IH]; simpl; [reflexivity | now rewrite IH]. Qed.

Lemma append_assoc (a b c : string) : (a ++ b) ++ c = a ++ (b ++ c).
Proof. induction a as [|x a IH]; simpl; [reflexivity | now rewrite IH]. Qed.

Lemma length_append (a b : string) :
  String.length (a ++ b) = String.length a + String.length b.
Proof. induction a as [|x a IH]; simpl; [reflexivity | now rewrite IH]. Qed.

Lemma append_inv_head (a b c : string) : a ++ b = a ++ c -> b = c.
Proof. induction a as [|x a IH]; simpl; [trivial | intros [= H]; auto]. Qed.

Lemma append_inv_tail (a b c : string) : a ++ c = b ++ c -> a = b.
Proof.
  revert b; induction a as [|x a IH]; intros [|y b]; simpl; intros H.
  - reflexivity.
  - exfalso. apply (f_equal String.length) in H. simpl in H.
    rewrite length_append in H. lia.
  - exfalso. apply (f_equal String.length) in H. simpl in H.
    rewrite length_append in H. lia.
  - injection H as -> H. f_equal. now apply IH.
Qed.

End StringFacts.

(** ** Commit recorder *)

Section RecorderFacts.

Import Recorder.

Lemma git_commit_inj (m m' : string) : git_commit m = git_commit m' -> m = m'.
Proof.
  unfold git_commit. intros H. apply append_inv_head in H.
  apply append_inv_head in H. now apply append_inv_tail in H.
Qed.

Lemma git_commit_not_add (m : string) (files : list string) :
  git_commit m <> git_add files.
Proof. unfold git_commit, git_add. simpl. congruence. Qed.

Lemma git_commit_not_diff (m : string) : git_commit m <> git_diff_index.
Proof. unfold git_commit, git_diff_index. simpl. congruence. Qed.

(** Lines 123 and 124 compute the label of the specification. *)
Lemma format_tag_label (tag : option string) (t : string) :
  format_tag tag = inr t -> t = label tag.
Proof.
  destruct tag as [[|c s]|]; unfold format_tag; cbn; intros [= <-]; reflexivity.
Qed.

Lemma format_tag_empty : format_tag (Some "") = inl IndexError.
Proof. reflexivity. Qed.

Lemma format_tag_total (tag : option string) :
  tag <> Some "" -> format_tag tag = inr (label tag).
Proof.
  destruct tag as [[|c s]|]; [congruence| |]; reflexivity.
Qed.

Lemma option_eq_dec (a b : option string) : {a = b} + {a <> b}.
Proof. decide equality. apply string_dec. Qed.

Section WithShell.

Variable sh : string -> nat.

Lemma mapM_first_part_error (files : list path) (e : exn) :
  mapM first_part files = inl e -> e = IndexError.
Proof.
  induction files as [|[|top f] files IH]; cbn; [discriminate | congruence |].
  destruct (mapM first_part files); cbn; [intros [= <-]; now apply IH | discriminate].
Qed.

Lemma commit_runs (files : list path) (tag : option string) :
  commit_run sh files tag (fst (commit sh files tag [])) (snd (commit sh files tag [])).
Proof.
  unfold commit, bindM, lift, check_call, call, run, retM.
  destruct (mapM first_part files) as [e|tops] eqn:Htops; cbv beta iota.
  - pose proof (mapM_first_part_error _ _ Htops) as ->. now constructor.
  - cbn [app].
    destruct (Nat.eqb_spec (sh (git_add (nodup string_dec tops))) 0) as [Hadd|Hadd];
      cbv beta iota; [|now apply run_add_failed].
    cbn [app ret].
    destruct (Nat.eqb_spec (sh git_diff_index) 0) as [Hd|Hd]; cbn [negb];
      cbv beta iota; [now apply run_unchanged|].
    destruct (option_eq_dec tag (Some "")) as [->|Hn].
    + rewrite format_tag_empty. now apply run_no_first_char.
    + rewrite (format_tag_total _ Hn). cbn [app fst snd]. now apply run_committed.
Qed.

End WithShell.

End RecorderFacts.

(** ** Claims on the commit recorder *)

Section RecorderClaims.

Import Recorder.

(** C7: whenever [commit] runs a [git commit], its message is
    "Update to " followed by the label: "latest" without a tag, the tag
    behind a "v" when the tag starts with a digit, the tag itself
    otherwise; a changed tree and the tag "2.3.1" give the message
    "Update to v2.3.1". *)
Theorem C7_commit_message :
  forall (sh : string -> nat) (files : list path) (tag : option string)
         (message : string),
    In (git_commit message) (fst (commit sh files tag [])) ->
    message = "Update to " ++ label tag
    /\ label None = "latest"
    /\ (forall c s, label (Some (String c s))
                    = if isdigit c then "v" ++ String c s else String c s)
    /\ commit ScenarioShell.changed_tree ScenarioShell.headers (Some "2.3.1") []
       = (["git add src"; git_diff_index; git_commit "Update to v2.3.1"], inr tt).
Proof.
  intros sh files tag message Hin.
  split; [|split; [reflexivity | split; [reflexivity | reflexivity]]].
  pose proof (commit_runs sh files tag) as Hrun.
  inversion Hrun as [E|tops E Hadd|tops E Hadd Hd|tops E Hadd Hd Ht|tops E Hadd Hd Ht];
    match goal with H : _ = fst _ |- _ => rewrite <- H in Hin end;
    cbn [In] in Hin.
  - contradiction.
  - destruct Hin as [Hin|[]]. symmetry in Hin. now apply git_commit_not_add in Hin.
  - destruct Hin as [Hin|[Hin|[]]]; symmetry in Hin;
      [now apply git_commit_not_add in Hin | now apply git_commit_not_diff in Hin].
  - destruct Hin as [Hin|[Hin|[]]]; symmetry in Hin;
      [now apply git_commit_not_add in Hin | now apply git_commit_not_diff in Hin].
  - destruct Hin as [Hin|[Hin|[Hin|[]]]].
    + symmetry in Hin. now apply git_commit_not_add in Hin.
    + symmetry in Hin. now apply git_commit_not_diff in Hin.
    + symmetry. now apply git_commit_inj.
Qed.

Lemma C7_commit_message_witness :
  "Update to v2.3.1" = "Update to " ++ label (Some "2.3.1")
  /\ label None = "latest"
  /\ (forall c s, label (Some (String c s))
                  = if isdigit c then "v" ++ String c s else String c s)
  /\ commit ScenarioShell.changed_tree ScenarioShell.headers (Some "2.3.1") []
     = (["git add src"; git_diff_index; git_commit "Update to v2.3.1"], inr tt).
Proof.
  apply (C7_commit_message ScenarioShell.changed_tree ScenarioShell.headers
                           (Some "2.3.1") "Update to v2.3.1").
  vm_compute. right. right. left. reflexivity.
Defined.

(** C10: with the empty string as tag and a changed tree, [commit] raises
    IndexError at the first character of the tag and runs no
    [git commit]; with any non-empty tag that step succeeds and the commit
    is made. *)
Theorem C10_empty_tag_raises_index_error :
  forall (sh : string -> nat) (files : list path) (tops : list string),
    mapM first_part files = inr tops ->
    sh (git_add (nodup string_dec tops)) = 0 ->
    sh git_diff_index <> 0 ->
    commit sh files (Some "") []
    = ([git_add (nodup string_dec tops); git_diff_index], inl IndexError)
    /\ (forall message, ~ In (git_commit message) (fst (commit sh files (Some "") [])))
    /\ (forall t, t <> "" ->
          commit sh files (Some t) []
          = ([git_add (nodup string_dec tops); git_diff_index;
              git_commit ("Update to " ++ label (Some t))], inr tt)).
Proof.
  intros sh files tops Htops Hadd Hd.
  assert (Hempty : commit sh files (Some "") []
                   = ([git_add (nodup string_dec tops); git_diff_index], inl IndexError)).
  { pose proof (commit_runs sh files (Some "")) as Hrun.
    destruct (commit sh files (Some "") []) as [log r]. cbn [fst snd] in Hrun.
    inversion Hrun; subst; try congruence.
    replace tops0 with tops in * by congruence. reflexivity. }
  split; [exact Hempty|]. split.
  - intros message. rewrite Hempty. cbn [fst In].
    intros [Hin|[Hin|[]]]; symmetry in Hin;
      [now apply git_commit_not_add in Hin | now apply git_commit_not_diff in Hin].
  - intros t Ht.
    pose proof (commit_runs sh files (Some t)) as Hrun.
    destruct (commit sh files (Some t) []) as [log r]. cbn [fst snd] in Hrun.
    inversion Hrun; subst; try congruence.
    replace tops0 with tops in * by congruence. reflexivity.
Qed.

Lemma C10_empty_tag_raises_index_error_witness :
  commit ScenarioShell.changed_tree ScenarioShell.headers (Some "") []
  = ([git_add (nodup string_dec ["src"; "src"]); git_diff_index], inl IndexError)
  /\ (forall message,
        ~ In (git_commit message)
             (fst (commit ScenarioShell.changed_tree ScenarioShell.headers (Some "") [])))
  /\ (forall t, t <> "" ->
        commit ScenarioShell.changed_tree ScenarioShell.headers (Some t) []
        = ([git_add (nodup string_dec ["src"; "src"]); git_diff_index;
            git_commit ("Update to " ++ label (Some t))], inr tt)).
Proof.
  apply (C10_empty_tag_raises_index_error
           ScenarioShell.changed_tree ScenarioShell.headers ["src"; "src"]).
  - reflexivity.
  - reflexivity.
  - vm_compute. discriminate.
Defined.

End RecorderClaims.

(** ** Text mode of the copier *)

Section TextFacts.

Import Copier.

Lemma mem_append (c : ascii) (a b : string) : mem c (a ++ b) = (mem c a || mem c b)%bool.
Proof.
  induction a as [|x a IH]; simpl; [reflexivity|].
  rewrite IH. now rewrite orb_assoc.
Qed.

Lemma rstrip_nil_iff (s : string) : rstrip s = "" <-> forallb_string isspace s = true.
Proof.
  induction s as [|c s IH]; simpl; [tauto|].
  destruct (rstrip s) as [|d r] eqn:E.
  - destruct (isspace c); simpl; [tauto|]. split; discriminate.
  - split; [discriminate|]. intros H. apply andb_true_iff in H.
    destruct H as [_ H]. apply IH in H. discriminate.
Qed.

(** [rstrip] cuts white space off the end and nothing else. *)
Lemma rstrip_split (s : string) :
  exists ws, s = rstrip s ++ ws /\ forallb_string isspace ws = true.
Proof.
  induction s as [|c s (ws & Hs & Hws)]; [now exists ""|].
  simpl. destruct (rstrip s) as [|d r] eqn:E.
  - destruct (isspace c) eqn:Hc.
    + exists (String c s). split; [reflexivity|]. simpl. rewrite Hc.
      now apply rstrip_nil_iff.
    + exists ws. simpl. now rewrite Hs at 1.
  - exists ws. simpl. now rewrite Hs at 1.
Qed.

Lemma rstrip_no_trailing_space (s : string) : ends_in_space (rstrip s) = false.
Proof.
  induction s as [|c s IH]; [reflexivity|].
  simpl. destruct (rstrip s) as [|d r] eqn:E.
  - destruct (isspace c) eqn:Hc; [reflexivity | exact Hc].
  - exact IH.
Qed.

Lemma mem_rstrip (c : ascii) (s : string) : mem c s = false -> mem c (rstrip s) = false.
Proof.
  intros H. destruct (rstrip_split s) as (ws & Hs & _).
  rewrite Hs, mem_append in H. now apply orb_false_iff in H.
Qed.

Lemma rstrip_append_space (s ws : string) :
  forallb_string isspace ws = true -> rstrip (s ++ ws) = rstrip s.
Proof.
  intros Hws. induction s as [|c s IH]; simpl.
  - now apply rstrip_nil_iff.
  - now rewrite IH.
Qed.

Lemma readlines_lines (s : string) : Forall is_line (readlines s).
Proof.
  induction s as [|c s IH]; [constructor|].
  simpl. destruct (Ascii.eqb_spec c LF) as [->|Hc].
  - constructor; [|exact IH]. exists "". split; [now left | reflexivity].
  - assert (Hm : Ascii.eqb LF c = false).
    { apply Ascii.eqb_neq. congruence. }
    destruct (readlines s) as [|l ls].
    + repeat constructor. exists (String c ""). split; [now right|].
      cbn [mem]. now rewrite Hm.
    + inversion IH as [|? ? (body & Hl & Hb) Hls]; subst.
      constructor; [|exact Hls].
      exists (String c body). split.
      * destruct Hl as [->| ->]; [now left | now right].
      * cbn [mem]. now rewrite Hm, Hb.
Qed.

Lemma rstrip_line_clean (l : string) : is_line l -> clean_line (rstrip l) = true.
Proof.
  intros (body & Hl & Hb). unfold clean_line.
  rewrite rstrip_no_trailing_space, andb_true_r.
  apply negb_true_iff.
  destruct Hl as [->| ->].
  - rewrite rstrip_append_space by reflexivity. now apply mem_rstrip.
  - now apply mem_rstrip.
Qed.

Lemma readlines_chunk (body rest : string) :
  mem LF body = false ->
  readlines ((body ++ NL) ++ rest) = (body ++ NL) :: readlines rest.
Proof.
  intros Hb. induction body as [|c body IH].
  - reflexivity.
  - cbn [mem] in Hb. apply orb_false_iff in Hb. destruct Hb as [Hc Hb].
    rewrite Ascii.eqb_sym in Hc. cbn [append readlines]. rewrite Hc.
    cbn [append] in IH. now rewrite (IH Hb).
Qed.

Lemma readlines_join_all (chunks : list string) :
  Forall (fun w => exists body, w = body ++ NL /\ mem LF body = false) chunks ->
  readlines (join_all chunks) = chunks.
Proof.
  induction 1 as [|w chunks (body & -> & Hb) _ IH]; [reflexivity|].
  simpl. rewrite (readlines_chunk _ _ Hb). now rewrite IH.
Qed.

Lemma universal_newlines_no_CR (s : string) : mem CR (universal_newlines s) = false.
Proof.
  assert (H : forall n s, String.length s <= n -> mem CR (universal_newlines s) = false).
  { clear s. induction n as [|n IH]; intros [|c s] Hlen;
      try reflexivity; cbn [String.length] in Hlen; try lia.
    cbn [universal_newlines].
    destruct (Ascii.eqb_spec c CR) as [->|Hc].
    - destruct s as [|c' s']; [reflexivity|].
      destruct (Ascii.eqb c' LF); cbn [mem];
        change (Ascii.eqb CR LF) with false; cbn [orb];
        apply IH; cbn [String.length] in *; lia.
    - cbn [mem]. rewrite IH by lia.
      assert (Ascii.eqb CR c = false) as -> by (apply Ascii.eqb_neq; congruence).
      reflexivity. }
  now apply (H (String.length s)).
Qed.

End TextFacts.

(** ** Claims on the text mode of the copier *)

Section TextClaims.

Import Copier.

(** C3, as the claim has it, fails: the transformation is applied after
    the stripping, so a transformation that appends a blank leaves an output
    line that ends in white space. *)
Lemma C3_no_trailing_space_counterexample :
  written_lines ScenarioText.pad "a" = ["a " ++ NL]
  /\ ends_in_space "a " = true.
Proof. split; reflexivity. Qed.

(** C3, amended: in text mode every input line, whatever its line end, is
    stripped of its trailing white space, then transformed, then written
    with one LF behind it; when the transformation keeps a line free of
    line ends and of trailing white space (as the default one does), the
    lines of the output file are exactly the written ones, each ends with
    its single LF and none has white space before it. *)
Theorem C3_text_lines_normalized :
  forall (modifier : string -> string) (content : string),
    (forall v, clean_line v = true -> clean_line (modifier v) = true) ->
    written_lines modifier content
    = map (fun l => modifier (rstrip l) ++ NL) (readlines (universal_newlines content))
    /\ mem CR (universal_newlines content) = false
    /\ Forall (fun l => clean_line (rstrip l) = true
                        /\ exists ws, l = rstrip l ++ ws
                                      /\ forallb_string isspace ws = true)
              (readlines (universal_newlines content))
    /\ Forall (fun w => exists body, w = body ++ NL /\ clean_line body = true)
              (written_lines modifier content)
    /\ readlines (copy_text modifier content) = written_lines modifier content.
Proof.
  intros modifier content Hmod.
  assert (Hlines : Forall (fun w => exists body, w = body ++ NL /\ clean_line body = true)
                          (written_lines modifier content)).
  { unfold written_lines. apply Forall_map.
    eapply Forall_impl; [|apply readlines_lines].
    intros l Hl. exists (modifier (rstrip l)). split; [reflexivity|].
    now apply Hmod, rstrip_line_clean. }
  split; [reflexivity|]. split; [apply universal_newlines_no_CR|].
  split; [|split; [exact Hlines|]].
  - eapply Forall_impl; [|apply readlines_lines].
    intros l Hl. split; [now apply rstrip_line_clean | apply rstrip_split].
  - unfold copy_text. apply readlines_join_all.
    eapply Forall_impl; [|exact Hlines].
    intros w (body & -> & Hc). exists body. split; [reflexivity|].
    unfold clean_line in Hc. apply andb_true_iff in Hc.
    destruct Hc as [Hc _]. now apply negb_true_iff in Hc.
Qed.

Lemma C3_text_lines_normalized_witness :
  written_lines identity ScenarioText.mixed_endings
  = map (fun l => identity (rstrip l) ++ NL)
        (readlines (universal_newlines ScenarioText.mixed_endings))
  /\ mem CR (universal_newlines ScenarioText.mixed_endings) = false
  /\ Forall (fun l => clean_line (rstrip l) = true
                      /\ exists ws, l = rstrip l ++ ws
                                    /\ forallb_string isspace ws = true)
            (readlines (universal_newlines ScenarioText.mixed_endings))
  /\ Forall (fun w => exists body, w = body ++ NL /\ clean_line body = true)
            (written_lines identity ScenarioText.mixed_endings)
  /\ readlines (copy_text identity ScenarioText.mixed_endings)
     = written_lines identity ScenarioText.mixed_endings.
Proof.
  apply (C3_text_lines_normalized identity ScenarioText.mixed_endings).
  intros v Hv. exact Hv.
Defined.

End TextClaims.

(** ** Marker substitution *)

Section MarkerFacts.

Import Markers.

Lemma prefix_append (a b : string) : String.prefix a (a ++ b) = true.
Proof.
  induction a as [|x a IH]; simpl; [now destruct b|].
  destruct (ascii_dec x x); [exact IH | congruence].
Qed.

Lemma skip_append (a b : string) : skip (String.length a) (a ++ b) = b.
Proof. induction a as [|x a IH]; simpl; [now destruct b | exact IH]. Qed.

Lemma find_cons (needle : string) (a : ascii) (s : string) (k : nat) :
  find needle (String a s) = Some (S k) ->
  String.prefix needle (String a s) = false /\ find needle s = Some k.
Proof.
  cbn [find]. destruct (String.prefix needle (String a s)); [discriminate|].
  destruct (find needle s) as [j|]; [|discriminate].
  cbn [option_map]. intros [= ->]. now split.
Qed.

Lemma find_none_cons (needle : string) (a : ascii) (s : string) :
  find needle (String a s) = None ->
  String.prefix needle (String a s) = false /\ find needle s = None.
Proof.
  cbn [find]. destruct (String.prefix needle (String a s)); [discriminate|].
  destruct (find needle s) as [j|]; [discriminate|]. now split.
Qed.

Section Sub.

Variables opening closing repl : string.

Let sub := sub_from opening closing repl.

Lemma sub_from_cons_pending (k : nat) (a : ascii) (s : string) :
  sub (S k) (String a s) = sub k s.
Proof. reflexivity. Qed.

Lemma sub_from_cons_plain (a : ascii) (s : string) :
  String.prefix opening (String a s) = false ->
  sub 0 (String a s) = String a (sub 0 s).
Proof.
  intros H. unfold sub. cbn [sub_from]. unfold match_length. now rewrite H.
Qed.

(** The characters of a match are passed over. *)
Lemma sub_from_pending (x post : string) :
  sub (String.length x) (x ++ post) = sub 0 post.
Proof.
  induction x as [|a x IH]; [reflexivity|].
  cbn [String.length append]. now rewrite sub_from_cons_pending.
Qed.

(** Up to the first opening marker the text is kept. *)
Lemma sub_from_before (pre rest : string) :
  find opening (pre ++ rest) = Some (String.length pre) ->
  sub 0 (pre ++ rest) = pre ++ sub 0 rest.
Proof.
  induction pre as [|a pre IH]; [reflexivity|].
  cbn [String.length append]. intros H.
  apply find_cons in H. destruct H as [Hp Hf].
  rewrite (sub_from_cons_plain _ _ Hp). now rewrite (IH Hf).
Qed.

(** Without an opening marker the text is kept. *)
Lemma sub_from_none (s : string) : find opening s = None -> sub 0 s = s.
Proof.
  induction s as [|a s IH]; [reflexivity|]. intros H.
  apply find_none_cons in H. destruct H as [Hp Hf].
  rewrite (sub_from_cons_plain _ _ Hp). now rewrite (IH Hf).
Qed.

Lemma sub_from_match (a : ascii) (r : string) (n : nat) :
  match_length opening closing (String a r) = Some (S n) ->
  sub 0 (String a r) = repl ++ sub n r.
Proof.
  intros H. unfold sub. cbn [sub_from]. rewrite H.
  now rewrite Nat.sub_succ, Nat.sub_0_r.
Qed.

(** A marked block at the head of the text is replaced. *)
Lemma sub_from_block (a : ascii) (o body post : string) :
  opening = String a o ->
  find closing (body ++ closing ++ post) = Some (String.length body) ->
  sub 0 (opening ++ body ++ closing ++ post) = repl ++ sub 0 post.
Proof.
  intros Ho Hf.
  assert (Hm : match_length opening closing (opening ++ body ++ closing ++ post)
               = Some (String.length opening + String.length body + String.length closing)).
  { unfold match_length. rewrite prefix_append, skip_append, Hf. reflexivity. }
  assert (Hs : opening ++ body ++ closing ++ post
               = String a ((o ++ body ++ closing) ++ post)).
  { rewrite Ho, !append_assoc. reflexivity. }
  replace (String.length opening + String.length body + String.length closing)
    with (S (String.length (o ++ body ++ closing))) in Hm
    by (rewrite Ho, !length_append; cbn [String.length]; lia).
  rewrite Hs in Hm |- *.
  rewrite (sub_from_match _ _ _ Hm). f_equal. apply sub_from_pending.
Qed.

End Sub.

Lemma replace_key_plain (text key content : string) :
  plain_key key = true -> plain_content content = true ->
  replace_key text key content
  = Some (sub_from (open_marker key) (close_marker key)
                   (open_marker key ++ NL ++ content ++ NL ++ close_marker key) 0 text).
Proof. intros Hk Hc. unfold replace_key. now rewrite Hk, Hc. Qed.

End MarkerFacts.

(** ** Claims on the marker substitution *)

Section MarkerClaims.

Import Markers.

(** C8, as the claim has it, fails twice.  What stands between the markers
    afterwards is not the given content but the content between two line
    ends; and an opening marker without closing marker of its own pairs
    with the next closing marker, so that the block of another key in
    between is replaced along with it. *)
Lemma C8_replace_key_counterexample :
  replace_key "<!--k-->old<!--/k-->" "k" "new"
  = Some ("<!--k-->" ++ NL ++ "new" ++ NL ++ "<!--/k-->")
  /\ replace_key "<!--k-->old<!--/k-->" "k" "new" <> Some "<!--k-->new<!--/k-->"
  /\ replace_key "<!--k--> <!--j-->kept<!--/j--> <!--k-->old<!--/k-->" "k" "new"
     = Some ("<!--k-->" ++ NL ++ "new" ++ NL ++ "<!--/k-->").
Proof. split; [reflexivity | split; [discriminate | reflexivity]]. Qed.

(** C8, amended: for a key without characters special to regular
    expressions and a content without backslash, [replace_key] replaces the
    first block of the key (from the first opening marker to the first
    closing marker behind it, over line ends too) by the opening marker, a
    line end, the content, a line end and the closing marker; the text
    before the block is kept, the text behind it is treated in the same
    way, and a text without opening marker of the key is returned as it
    is. *)
Theorem C8_replace_key_block :
  forall (text key content pre body post : string),
    plain_key key = true ->
    plain_content content = true ->
    text = pre ++ open_marker key ++ body ++ close_marker key ++ post ->
    find (open_marker key) text = Some (String.length pre) ->
    find (close_marker key) (body ++ close_marker key ++ post)
    = Some (String.length body) ->
    (exists post',
        replace_key post key content = Some post'
        /\ replace_key text key content
           = Some (pre ++ (open_marker key ++ NL ++ content ++ NL ++ close_marker key)
                       ++ post')
        /\ (find (open_marker key) post = None -> post' = post))
    /\ (forall other, find (open_marker key) other = None ->
                      replace_key other key content = Some other).
Proof.
  intros text key content pre body post Hk Hc -> Hopen Hclose.
  split.
  - eexists. split; [now apply replace_key_plain|]. split.
    + rewrite (replace_key_plain _ _ _ Hk Hc). f_equal.
      rewrite (sub_from_before _ _ _ _ _ Hopen). f_equal.
      now apply (sub_from_block _ _ _ "<"%char ("!--" ++ key ++ "-->")).
    + apply sub_from_none.
  - intros other Hnone. rewrite (replace_key_plain _ _ _ Hk Hc). f_equal.
    now apply sub_from_none.
Qed.

Lemma C8_replace_key_block_witness :
  (exists post',
      replace_key ScenarioMarkers.rest "links" ScenarioMarkers.new_links = Some post'
      /\ replace_key ScenarioMarkers.page "links" ScenarioMarkers.new_links
         = Some (ScenarioMarkers.intro
                   ++ (open_marker "links" ++ NL ++ ScenarioMarkers.new_links ++ NL
                                   ++ close_marker "links")
                   ++ post')
      /\ (find (open_marker "links") ScenarioMarkers.rest = None
          -> post' = ScenarioMarkers.rest))
  /\ (forall other, find (open_marker "links") other = None ->
                    replace_key other "links" ScenarioMarkers.new_links = Some other).
Proof.
  apply (C8_replace_key_block ScenarioMarkers.page "links" ScenarioMarkers.new_links
                              ScenarioMarkers.intro ScenarioMarkers.old_links
                              ScenarioMarkers.rest); reflexivity.
Defined.

End MarkerClaims.

(** ** Paths and the file system *)

Section PathFacts.

Lemma path_eqb_refl (p : path) : path_eqb p p = true.
Proof. induction p as [|a p IH]; simpl; [reflexivity | now rewrite String.eqb_refl]. Qed.

Lemma path_eqb_eq (p q : path) : path_eqb p q = true <-> p = q.
Proof.
  revert q; induction p as [|a p IH]; intros [|b q]; simpl; try (split; congruence).
  rewrite andb_true_iff, String.eqb_eq, IH. split; [intros [-> ->] | intros [= -> ->]]; auto.
Qed.

Lemma relative_to_app (root rel : path) : relative_to (root ++ rel)%list root = inr rel.
Proof.
  induction root as [|a root IH]; simpl; [now destruct rel|].
  now rewrite String.eqb_refl.
Qed.

Lemma mapM_first_part_inr (files : list path) (tops : list string) :
  mapM first_part files = inr tops ->
  forall top, In top tops <-> exists rest, In (top :: rest) files.
Proof.
  revert tops; induction files as [|[|t f] files IH]; intros tops; cbn.
  - intros [= <-] top. split; [intros [] | intros [? []]].
  - discriminate.
  - destruct (mapM first_part files) as [e|tops']; cbn; [discriminate|].
    intros [= <-] top. cbn. rewrite (IH tops' eq_refl top). split.
    + intros [<-|[rest Hr]]; [exists f; now left | exists rest; now right].
    + intros [rest [[= <- <-]|Hr]]; [now left | right; now exists rest].
Qed.

Lemma mapM_first_part_total (files : list path) :
  Forall (fun f => f <> []) files -> exists tops, mapM first_part files = inr tops.
Proof.
  induction 1 as [|[|t f] files Hf _ [tops IH]]; [now exists [] | congruence |].
  exists (t :: tops). cbn. now rewrite IH.
Qed.

End PathFacts.

(** ** Cleaning before the copy *)

Section PrecleanFacts.

Import Copier CopierWords.

Lemma remove_top_other (st : fs) (top t : string) (rest : path) :
  top <> t -> remove_top st top (t :: rest) = st (t :: rest).
Proof.
  intros Hne. unfold remove_top.
  assert (H1 : String.eqb t top = false) by (apply String.eqb_neq; congruence).
  assert (H2 : String.eqb top t = false) by (now apply String.eqb_neq).
  destruct (is_file st [top]) eqn:Hf.
  - unfold unlink. cbn [path_eqb]. now rewrite H1.
  - unfold rmtree. rewrite Hf. destruct (is_link st [top]); cbn [orb]; [reflexivity|].
    cbn [is_prefix]. now rewrite H2.
Qed.

Lemma remove_top_none (st : fs) (top : string) (q : path) :
  st q = None -> remove_top st top q = None.
Proof.
  intros Hq. unfold remove_top.
  destruct (is_file st [top]) eqn:Hf.
  - unfold unlink. now destruct (path_eqb q [top]).
  - unfold rmtree. rewrite Hf. destruct (is_link st [top]); cbn [orb]; [exact Hq|].
    now destruct (is_prefix [top] q).
Qed.

Lemma remove_top_entry (st : fs) (top : string) :
  is_link st [top] = false -> remove_top st top [top] = None.
Proof.
  intros Hl. unfold remove_top.
  destruct (is_file st [top]) eqn:Hf.
  - unfold unlink. cbn [path_eqb]. now rewrite String.eqb_refl.
  - unfold rmtree. rewrite Hf, Hl. cbn [orb is_prefix]. now rewrite String.eqb_refl.
Qed.

Lemma remove_top_below (st : fs) (top : string) (rest : path) :
  is_file st [top] = false -> is_link st [top] = false ->
  remove_top st top (top :: rest) = None.
Proof.
  intros Hf Hl. unfold remove_top, rmtree. rewrite !Hf, Hl. cbn [orb is_prefix].
  now rewrite String.eqb_refl.
Qed.

(** A symbolic link stays, and so does all that is seen through it. *)
Lemma remove_top_link (st : fs) (top : string) :
  is_link st [top] = true -> remove_top st top = st.
Proof.
  intros Hl. unfold remove_top, rmtree. rewrite Hl.
  assert (Hf : is_file st [top] = false).
  { unfold is_file, is_link in *. now destruct (stat st [top]) as [[c| |]|]. }
  now rewrite Hf.
Qed.

Lemma remove_top_is_link (st : fs) (top t : string) :
  top <> t -> is_link (remove_top st top) [t] = is_link st [t].
Proof.
  intros Hne. unfold is_link, stat. now rewrite remove_top_other.
Qed.

Lemma fold_remove_none (tops : list string) (st : fs) (q : path) :
  st q = None -> fold_left remove_top tops st q = None.
Proof.
  revert st; induction tops as [|x tops IH]; intros st Hq; [exact Hq|].
  cbn. apply IH. now apply remove_top_none.
Qed.

Lemma fold_remove_other (tops : list string) (st : fs) (t : string) (rest : path) :
  ~ In t tops -> fold_left remove_top tops st (t :: rest) = st (t :: rest).
Proof.
  revert st; induction tops as [|x tops IH]; intros st Hn; [reflexivity|].
  cbn. rewrite IH by (intros ?; apply Hn; now right).
  apply remove_top_other. intros ->. apply Hn. now left.
Qed.

Lemma fold_remove_entry (tops : list string) (st : fs) (t : string) :
  In t tops -> is_link st [t] = false -> fold_left remove_top tops st [t] = None.
Proof.
  revert st; induction tops as [|x tops IH]; intros st Hin Hl; [destruct Hin|].
  cbn. destruct (string_dec x t) as [->|Hne].
  - apply fold_remove_none. now apply remove_top_entry.
  - apply IH; [destruct Hin; [congruence | assumption]|].
    now rewrite remove_top_is_link.
Qed.

Lemma fold_remove_below (tops : list string) (st : fs) (t : string) (rest : path) :
  In t tops -> is_file st [t] = false -> is_link st [t] = false ->
  fold_left remove_top tops st (t :: rest) = None.
Proof.
  revert st; induction tops as [|x tops IH]; intros st Hin Hf Hl; [destruct Hin|].
  cbn. destruct (string_dec x t) as [->|Hne].
  - apply fold_remove_none. now apply remove_top_below.
  - apply IH; [destruct Hin; [congruence | assumption]| |].
    + unfold is_file, stat in *. now rewrite remove_top_other.
    + now rewrite remove_top_is_link.
Qed.

Lemma fold_remove_link (tops : list string) (st : fs) (t : string) (rest : path) :
  is_link st [t] = true -> fold_left remove_top tops st (t :: rest) = st (t :: rest).
Proof.
  revert st; induction tops as [|x tops IH]; intros st Hl; [reflexivity|].
  cbn. destruct (string_dec x t) as [->|Hne].
  - rewrite (remove_top_link st t Hl). now apply IH.
  - rewrite IH by now rewrite remove_top_is_link.
    now apply remove_top_other.
Qed.

Lemma below_here_first_part (files : list path) :
  forallb below_here files = true -> Forall (fun f => f <> []) files.
Proof.
  intros H. apply Forall_forall. intros f Hin ->.
  rewrite forallb_forall in H. now specialize (H [] Hin).
Qed.

Section WithGlob.

Variable glob : fs -> path -> string -> list path.

Lemma Path_glob_here (st : fs) (pattern : string) :
  Path_glob glob st [] pattern = glob st [] pattern.
Proof. unfold Path_glob. cbn. apply map_id. Qed.

Lemma flat_map_Path_glob_here (st : fs) (patterns : list string) :
  flat_map (Path_glob glob st []) patterns = flat_map (glob st []) patterns.
Proof.
  induction patterns as [|p ps IH]; [reflexivity|].
  cbn. now rewrite Path_glob_here, IH.
Qed.

(** The cleaning that [delete] asks for when there is no [dest]. *)
Lemma preclean_here (patterns : list string) (st : fs) (tops : list string) :
  mapM first_part (flat_map (glob st []) patterns) = inr tops ->
  preclean glob patterns None true st
  = (fold_left remove_top (nodup string_dec tops) st, inr (Some [])).
Proof.
  intros Htops. unfold preclean, bindM, gets, lift, modify, retM.
  now rewrite flat_map_Path_glob_here, Htops.
Qed.

Lemma has_match_tops (patterns : list string) (st : fs) (tops : list string) :
  mapM first_part (flat_map (glob st []) patterns) = inr tops ->
  forall top, In top (nodup string_dec tops) <-> has_match glob patterns st top.
Proof.
  intros Htops top. rewrite nodup_In, (mapM_first_part_inr _ _ Htops top).
  unfold has_match. split.
  - intros (rest & Hin). apply in_flat_map in Hin.
    destruct Hin as (pattern & Hp & Hin). now exists pattern, rest.
  - intros (pattern & rest & Hp & Hin). exists rest.
    apply in_flat_map. now exists pattern.
Qed.

End WithGlob.

End PrecleanFacts.

(** ** Claims on the cleaning before the copy *)

Section PrecleanClaims.

Import Copier CopierWords.

(** C6, as the code has it: for the pattern [**], which matches the current
    directory itself, the cleaning step raises IndexError and removes
    nothing, although [src] holds a match; and a top-level entry that is a
    symbolic link to a directory stays, with the match seen through it. *)
Lemma C6_preclean_removes_matched_tops_counterexample :
  (has_match ScenarioClean.dir_glob ["**"] ScenarioFiles.consumer "src"
   /\ preclean ScenarioClean.dir_glob ["**"] None true ScenarioFiles.consumer
      = (ScenarioFiles.consumer, inl IndexError)
   /\ ScenarioFiles.consumer ["src"; "stale.h"] = Some (File "int stale;"))
  /\ (has_match ScenarioFiles.literal_glob ["docs/notes.txt"] ScenarioClean.linked "docs"
      /\ snd (preclean ScenarioFiles.literal_glob ["docs/notes.txt"] None true
                       ScenarioClean.linked)
         = inr (Some [])
      /\ fst (preclean ScenarioFiles.literal_glob ["docs/notes.txt"] None true
                       ScenarioClean.linked) ["docs"; "notes.txt"]
         = Some (File "notes")).
Proof.
  split.
  - split; [|split; reflexivity].
    exists "**", []. split; [now left|]. vm_compute. right. right. now left.
  - split; [|split; reflexivity].
    exists "docs/notes.txt", ["notes.txt"]. split; [now left|]. vm_compute. now left.
Qed.

(** C6, amended: with [delete] and without [dest], when every match of a
    pattern in the current directory lies below it (none is the current
    directory itself, none starts with [..]), the cleaning step goes
    through; it removes each top-level entry that is the first part of a
    match, with all below it when it is a directory, except that an entry
    which is a symbolic link to a directory stays with all that is seen
    through it; and it leaves every path below any other top-level entry
    as it was. *)
Theorem C6_preclean_removes_matched_tops :
  forall (glob : fs -> path -> string -> list path) (patterns : list string) (st : fs),
    forallb below_here (flat_map (glob st []) patterns) = true ->
    exists st1,
      preclean glob patterns None true st = (st1, inr (Some []))
      /\ forall top rest,
           (has_match glob patterns st top ->
            (is_link st [top] = false ->
             st1 [top] = None
             /\ (is_file st [top] = false -> st1 (top :: rest) = None))
            /\ (is_link st [top] = true -> st1 (top :: rest) = st (top :: rest)))
           /\ (~ has_match glob patterns st top ->
               st1 (top :: rest) = st (top :: rest)).
Proof.
  intros glob patterns st Hbelow.
  destruct (mapM_first_part_total _ (below_here_first_part _ Hbelow)) as [tops Htops].
  eexists. split; [exact (preclean_here glob patterns st tops Htops)|].
  intros top rest. pose proof (has_match_tops glob patterns st tops Htops top) as Hm.
  split.
  - intros H. apply Hm in H. split.
    + intros Hl. split.
      * now apply fold_remove_entry.
      * intros Hf. now apply fold_remove_below.
    + intros Hl. now apply fold_remove_link.
  - intros H. apply fold_remove_other. intros Hin. apply H. now apply Hm.
Qed.

Lemma C6_preclean_removes_matched_tops_witness :
  exists st1,
    preclean ScenarioFiles.literal_glob ["src/widget.h"; "docs/notes.txt"] None true
             ScenarioClean.linked
    = (st1, inr (Some []))
    /\ forall top rest,
         (has_match ScenarioFiles.literal_glob ["src/widget.h"; "docs/notes.txt"]
                    ScenarioClean.linked top ->
          (is_link ScenarioClean.linked [top] = false ->
           st1 [top] = None
           /\ (is_file ScenarioClean.linked [top] = false -> st1 (top :: rest) = None))
          /\ (is_link ScenarioClean.linked [top] = true ->
              st1 (top :: rest) = ScenarioClean.linked (top :: rest)))
         /\ (~ has_match ScenarioFiles.literal_glob ["src/widget.h"; "docs/notes.txt"]
                         ScenarioClean.linked top ->
             st1 (top :: rest) = ScenarioClean.linked (top :: rest)).
Proof.
  apply (C6_preclean_removes_matched_tops
           ScenarioFiles.literal_glob ["src/widget.h"; "docs/notes.txt"]
           ScenarioClean.linked).
  vm_compute. reflexivity.
Defined.

End PrecleanClaims.

(** ** The copy loop *)

Section LoopFacts.

Import Copier.

Lemma mkdir_from_error (todo done : path) (st st' : fs) (e : exn) :
  mkdir_from done todo st = (st', inl e) -> e = OSError.
Proof.
  revert done st; induction todo as [|part rest IH]; intros done st; cbn [mkdir_from].
  - unfold retM. discriminate.
  - destruct (stat st (done ++ [part])%list) as [[content| |]|].
    + unfold raise. congruence.
    + apply IH.
    + apply IH.
    + apply IH.
Qed.

Lemma read_file_error (p : path) (st st' : fs) (e : exn) :
  read_file p st = (st', inl e) -> e = OSError.
Proof.
  unfold read_file, ret, raise. destruct (stat st p) as [[content| |]|]; congruence.
Qed.

Lemma open_write_error (p : path) (st st' : fs) (e : exn) :
  open_write p st = (st', inl e) -> e = OSError.
Proof.
  unfold open_write, ret, raise. destruct (is_dir st p); congruence.
Qed.

Lemma copy_normalized_error (modifier : string -> string) (fsrc fdest : path)
    (st st' : fs) (e : exn) :
  copy_normalized modifier fsrc fdest st = (st', inl e) -> e = OSError.
Proof.
  unfold copy_normalized, bindM, write_file, modify.
  destruct (read_file fsrc st) as [st1 [e1|c1]] eqn:H1.
  { intros [= <- <-]. now apply read_file_error in H1. }
  destruct (open_write fdest st1) as [st2 [e2|[]]] eqn:H2.
  { intros [= <- <-]. now apply open_write_error in H2. }
  destruct (read_file fsrc st2) as [st3 [e3|c3]] eqn:H3.
  { intros [= <- <-]. now apply read_file_error in H3. }
  discriminate.
Qed.

Lemma copy2_error (fsrc fdest : path) (st st' : fs) (e : exn) :
  copy2 fsrc fdest st = (st', inl e) -> e = OSError.
Proof.
  unfold copy2, bindM, gets, lift, write_file, modify, raise. cbv beta iota zeta.
  destruct (path_eqb fsrc _).
  { congruence. }
  destruct (read_file fsrc st) as [st1 [e1|c1]] eqn:H1.
  { intros [= <- <-]. now apply read_file_error in H1. }
  destruct (open_write _ st1) as [st2 [e2|[]]] eqn:H2.
  { intros [= <- <-]. now apply open_write_error in H2. }
  discriminate.
Qed.

Lemma relative_to_error (q p : path) (e : exn) :
  relative_to q p = inl e -> e = ValueError.
Proof.
  revert p; induction q as [|b q IH]; intros [|a p]; cbn; unfold ret, raise;
    try congruence.
  destruct (String.eqb a b); [apply IH | congruence].
Qed.

Section WithGlob.

Variable glob : fs -> path -> string -> list path.
Variable src : path.
Variable dest : option path.
Variable modifier : string -> string.
Variable binary : bool.

Let landing := landing dest.

(** One match: a path that is no regular file is passed over; a regular
    file lands at its place or stops the loop with an error. *)
Lemma copy_match_spec (files : list path) (fsrc : path) (st : fs) :
  if is_file st fsrc then
    match snd (copy_match src dest modifier binary files fsrc st) with
    | inl e => loop_error e
    | inr files' =>
        exists rel, relative_to fsrc src = inr rel /\ files' = (files ++ [landing rel])%list
    end
  else copy_match src dest modifier binary files fsrc st = (st, inr files).
Proof.
  unfold copy_match, bindM, gets, lift, retM.
  destruct (is_file st fsrc) eqn:Hf; cbn [negb]; [|reflexivity].
  destruct (relative_to fsrc src) as [e|rel] eqn:Hrel; cbn [snd].
  { unfold loop_error. right. now apply relative_to_error in Hrel. }
  change (match dest with Some d => (d ++ rel)%list | None => rel end)
    with (landing rel).
  destruct (mkdir_parents (parent (landing rel)) st) as [st1 [e|[]]] eqn:Hmk; cbn [snd].
  { unfold loop_error. left. unfold mkdir_parents in Hmk. now apply mkdir_from_error in Hmk. }
  destruct binary.
  - destruct (copy2 fsrc (landing rel) st1) as [st2 [e|[]]] eqn:Hc; cbn [snd].
    + unfold loop_error. left. now apply copy2_error in Hc.
    + now exists rel.
  - destruct (copy_normalized modifier fsrc (landing rel) st1) as [st2 [e|[]]] eqn:Hc;
      cbn [snd].
    + unfold loop_error. left. now apply copy_normalized_error in Hc.
    + now exists rel.
Qed.

(** The matches of one pattern: the list grows by the landing places of
    matches, and when it does not grow nothing was a regular file and
    nothing was touched. *)
Lemma foldM_copy_match (matches : list path) (files : list path) (st : fs) :
  match snd (foldM (copy_match src dest modifier binary) files matches st) with
  | inl e => loop_error e
  | inr files' =>
      exists added,
        files' = (files ++ added)%list
        /\ Forall (fun f => exists m rel,
                       In m matches /\ relative_to m src = inr rel /\ f = landing rel)
                  added
        /\ (added = [] ->
            fst (foldM (copy_match src dest modifier binary) files matches st) = st
            /\ Forall (fun m => is_file st m = false) matches)
  end.
Proof.
  revert files st; induction matches as [|m matches IH]; intros files st.
  - cbn. exists []. rewrite app_nil_r. repeat split; constructor.
  - cbn [foldM]. unfold bindM.
    pose proof (copy_match_spec files m st) as Hm.
    destruct (is_file st m) eqn:Hf.
    + destruct (copy_match src dest modifier binary files m st) as [st1 [e|files1]];
        cbn [snd] in Hm |- *; [exact Hm|].
      destruct Hm as (rel & Hrel & ->).
      specialize (IH (files ++ [landing rel])%list st1).
      destruct (foldM _ _ matches st1) as [st2 [e|files2]]; cbn [snd fst] in IH |- *;
        [exact IH|].
      destruct IH as (added & -> & Hadded & _).
      exists (landing rel :: added). rewrite <- app_assoc. split; [reflexivity|].
      split; [|discriminate].
      constructor.
      * exists m, rel. split; [now left | now split].
      * eapply Forall_impl; [|exact Hadded].
        intros f (m' & rel' & Hin & H1 & H2). exists m', rel'. split; [now right | now split].
    + rewrite Hm. specialize (IH files st).
      destruct (foldM _ _ matches st) as [st2 [e|files2]]; cbn [snd fst] in IH |- *;
        [exact IH|].
      destruct IH as (added & -> & Hadded & Hnil).
      exists added. split; [reflexivity|]. split.
      * eapply Forall_impl; [|exact Hadded].
        intros f (m' & rel' & Hin & H1 & H2). exists m', rel'. split; [now right | now split].
      * intros Hn. destruct (Hnil Hn) as [-> Hall]. split; [reflexivity|].
        now constructor.
Qed.

End WithGlob.

End LoopFacts.

Section CopyFilesFacts.

Import Copier.

Lemma filter_nil_iff {A} (p : A -> bool) (l : list A) :
  filter p l = [] <-> Forall (fun x => p x = false) l.
Proof.
  induction l as [|x l IH]; cbn; [split; constructor|].
  destruct (p x) eqn:Hx.
  - split; [discriminate | intros H; inversion H; congruence].
  - rewrite IH. split; [now constructor | intros H; now inversion H].
Qed.

Variable glob : fs -> path -> string -> list path.
Variable src : path.
Variable dest : option path.
Variable modifier : string -> string.
Variable binary : bool.

Lemma copy_pattern_unfold (files : list path) (pattern : string) (st : fs) :
  copy_pattern glob src dest modifier binary files pattern st
  = foldM (copy_match src dest modifier binary) files (Path_glob glob st src pattern) st.
Proof. reflexivity. Qed.

Lemma foldM_copy_match_skip (matches files : list path) (st : fs) :
  Forall (fun m => is_file st m = false) matches ->
  foldM (copy_match src dest modifier binary) files matches st = (st, inr files).
Proof.
  induction 1 as [|m matches Hm _ IH]; [reflexivity|].
  cbn [foldM]. unfold bindM.
  pose proof (copy_match_spec src dest modifier binary files m st) as Hs.
  rewrite Hm in Hs. now rewrite Hs.
Qed.

Lemma matched_files_cons (pattern : string) (patterns : list string) (st : fs) :
  matched_files glob src (pattern :: patterns) st = []
  <-> Forall (fun m => is_file st m = false) (Path_glob glob st src pattern)
      /\ matched_files glob src patterns st = [].
Proof.
  unfold matched_files. cbn [flat_map]. rewrite <- filter_nil_iff.
  split; [apply app_eq_nil | now intros [-> ->]].
Qed.

Lemma foldM_copy_pattern_skip (patterns : list string) (files : list path) (st : fs) :
  matched_files glob src patterns st = [] ->
  foldM (copy_pattern glob src dest modifier binary) files patterns st = (st, inr files).
Proof.
  induction patterns as [|pattern patterns IH]; [reflexivity|].
  intros H. apply matched_files_cons in H. destruct H as [Hp Hrest].
  cbn [foldM]. unfold bindM. rewrite copy_pattern_unfold.
  rewrite (foldM_copy_match_skip _ _ _ Hp). now apply IH.
Qed.

(** The whole loop: the list grows by landing places of matches below
    [src], and when it does not grow no pattern matched a regular file and
    nothing was touched. *)
Lemma foldM_copy_pattern (patterns : list string) (files : list path) (st : fs) :
  match snd (foldM (copy_pattern glob src dest modifier binary) files patterns st) with
  | inl e => loop_error e
  | inr files' =>
      exists added,
        files' = (files ++ added)%list
        /\ Forall (fun f => exists pattern st0 rel,
                       In pattern patterns /\ In rel (glob st0 src pattern)
                       /\ f = landing dest rel)
                  added
        /\ (added = [] ->
            fst (foldM (copy_pattern glob src dest modifier binary) files patterns st) = st
            /\ matched_files glob src patterns st = [])
  end.
Proof.
  revert files st; induction patterns as [|pattern patterns IH]; intros files st.
  - cbn. exists []. rewrite app_nil_r. repeat split; constructor.
  - cbn [foldM]. unfold bindM. rewrite copy_pattern_unfold.
    pose proof (foldM_copy_match src dest modifier binary
                                 (Path_glob glob st src pattern) files st) as Hm.
    destruct (foldM (copy_match src dest modifier binary) files _ st)
      as [st1 [e|files1]]; cbn [snd fst] in Hm |- *; [exact Hm|].
    destruct Hm as (added1 & -> & Hadded1 & Hnil1).
    specialize (IH (files ++ added1)%list st1).
    destruct (foldM (copy_pattern glob src dest modifier binary) _ patterns st1)
      as [st2 [e|files2]]; cbn [snd fst] in IH |- *; [exact IH|].
    destruct IH as (added2 & -> & Hadded2 & Hnil2).
    exists (added1 ++ added2)%list. rewrite app_assoc. split; [reflexivity|]. split.
    + apply Forall_app. split.
      * eapply Forall_impl; [|exact Hadded1].
        intros f (m & rel & Hin & Hrel & ->).
        unfold Path_glob in Hin. apply in_map_iff in Hin.
        destruct Hin as (rel' & <- & Hin). rewrite relative_to_app in Hrel.
        injection Hrel as <-. exists pattern, st, rel'. split; [now left | now split].
      * eapply Forall_impl; [|exact Hadded2].
        intros f (p & st0 & rel & Hin & H1 & H2).
        exists p, st0, rel. split; [now right | now split].
    + intros Hn. apply app_eq_nil in Hn. destruct Hn as [Hn1 Hn2].
      destruct (Hnil1 Hn1) as [-> Hall]. destruct (Hnil2 Hn2) as [-> Hrest].
      split; [reflexivity|]. apply matched_files_cons. now split.
Qed.

End CopyFilesFacts.

Section CopyFilesWhole.

Import Copier.

Variable glob : fs -> path -> string -> list path.

Lemma preclean_error (patterns : list string) (dest : option path) (delete : bool)
    (st st1 : fs) (e : exn) :
  preclean glob patterns dest delete st = (st1, inl e) -> e = IndexError.
Proof.
  unfold preclean, bindM, gets, lift, modify, retM.
  destruct delete; [|discriminate].
  destruct dest as [d|]; [discriminate|].
  destruct (mapM first_part _) as [e'|tops] eqn:Htops; [|discriminate].
  intros [= _ <-]. now apply mapM_first_part_error in Htops.
Qed.

Lemma mapM_first_part_no_parts (files : list path) (e : exn) :
  mapM first_part files = inl e -> In [] files.
Proof.
  induction files as [|[|top f] files IH]; cbn; [discriminate | now left |].
  destruct (mapM first_part files); cbn; [|discriminate].
  intros H. right. now apply IH.
Qed.

(** The cleaning step raises only without [dest], on a match that is the
    current directory itself, and has removed nothing then. *)
Lemma preclean_raises (patterns : list string) (dest : option path) (delete : bool)
    (st st1 : fs) (e : exn) :
  preclean glob patterns dest delete st = (st1, inl e) ->
  delete = true /\ dest = None /\ In [] (flat_map (glob st []) patterns)
  /\ st1 = st /\ e = IndexError.
Proof.
  unfold preclean, bindM, gets, lift, modify, retM.
  destruct delete; [|discriminate].
  destruct dest as [d|]; [discriminate|].
  rewrite flat_map_Path_glob_here.
  destruct (mapM first_part _) as [e'|tops] eqn:Htops; [|discriminate].
  intros [= <- <-]. repeat split.
  - exact (mapM_first_part_no_parts _ _ Htops).
  - exact (mapM_first_part_error _ _ Htops).
Qed.

(** Without [dest] a match lands at its path relative to [src]. *)
Lemma preclean_default_landing (patterns : list string) (delete : bool)
    (st st1 : fs) (dest1 : option path) :
  preclean glob patterns None delete st = (st1, inr dest1) ->
  forall rel, landing dest1 rel = rel.
Proof.
  unfold preclean, bindM, gets, lift, modify, retM.
  destruct delete.
  - destruct (mapM first_part _) as [e'|tops]; [discriminate|].
    intros [= _ <-] rel. reflexivity.
  - intros [= _ <-] rel. reflexivity.
Qed.

(** [copy_files] behind a cleaning step that went through. *)
Lemma copy_files_after_preclean (src : path) (patterns : list string)
    (dest : option path) (delete : bool) (modifier : option (string -> string))
    (binary : bool) (st st1 : fs) (dest1 : option path) :
  preclean glob patterns dest delete st = (st1, inr dest1) ->
  copy_files glob src patterns dest delete modifier binary st
  = match foldM (copy_pattern glob src dest1 (chosen modifier) binary) [] patterns st1 with
    | (st2, inl e) => (st2, inl e)
    | (st2, inr []) => (st2, inl AssertionError)
    | (st2, inr files) => (st2, inr files)
    end.
Proof.
  intros Hpre. unfold copy_files, bindM. rewrite Hpre.
  destruct (foldM _ [] patterns st1) as [st2 [e|[|f files]]]; reflexivity.
Qed.

Lemma loop_error_not_assertion (e : exn) : loop_error e -> e <> AssertionError.
Proof. intros [-> | ->]; discriminate. Qed.

End CopyFilesWhole.

(** ** One file: what text mode and binary mode write *)

Section OneFile.

Import Copier CopierWords.

Lemma path_eqb_neq (p q : path) : path_eqb p q = false <-> p <> q.
Proof.
  split.
  - intros H E. apply path_eqb_eq in E. congruence.
  - intros H. destruct (path_eqb p q) eqn:E; [|reflexivity].
    now apply path_eqb_eq in E.
Qed.

Lemma update_same (st : fs) (p : path) (n : node) : update st p n p = Some n.
Proof. unfold update. now rewrite path_eqb_refl. Qed.

Lemma update_other (st : fs) (p q : path) (n : node) : q <> p -> update st p n q = st q.
Proof. intros H. unfold update. apply path_eqb_neq in H. now rewrite H. Qed.

Lemma stat_nonempty (st : fs) (p : path) : p <> [] -> stat st p = st p.
Proof. now destruct p. Qed.

Lemma is_dir_root (st : fs) : is_dir st [] = true.
Proof. reflexivity. Qed.

Lemma copy_text_empty (modifier : string -> string) : copy_text modifier "" = "".
Proof. reflexivity. Qed.

(** Text mode on one file.  A regular file [fsrc] and a place [fdest] that
    is no directory: the copy goes through, [fdest] then holds the
    normalized text of [fsrc] and nothing else has changed; but when
    [fdest] is [fsrc] itself the file is emptied, because it is opened for
    writing before it is read. *)
Lemma copy_normalized_effect :
  forall (modifier : string -> string) (fsrc fdest : path) (st : fs) (content : string),
    stat st fsrc = Some (File content) ->
    is_dir st fdest = false ->
    snd (copy_normalized modifier fsrc fdest st) = inr tt
    /\ fst (copy_normalized modifier fsrc fdest st) fdest
       = Some (File (if path_eqb fsrc fdest then "" else copy_text modifier content))
    /\ forall q, q <> fdest -> fst (copy_normalized modifier fsrc fdest st) q = st q.
Proof.
  intros modifier fsrc fdest st content Hsrc Hdir.
  assert (Hne : fsrc <> []) by (intros ->; discriminate).
  unfold copy_normalized, bindM, read_file, open_write, write_file, modify, ret.
  rewrite Hsrc, Hdir.
  destruct (path_eqb fsrc fdest) eqn:E.
  - apply path_eqb_eq in E. subst fdest.
    rewrite (stat_nonempty _ _ Hne), update_same. cbn [fst snd].
    split; [reflexivity|]. split; [apply update_same|].
    intros q Hq. now rewrite !update_other.
  - apply path_eqb_neq in E.
    rewrite (stat_nonempty _ _ Hne), (update_other _ _ _ _ E).
    rewrite <- (stat_nonempty st _ Hne), Hsrc. cbn [fst snd].
    split; [reflexivity|]. split; [apply update_same|].
    intros q Hq. now rewrite !update_other.
Qed.

(** Binary mode on one file.  [copy2] of a regular file puts its content,
    unchanged, at [fdest], or inside [fdest] under the name of the source
    when [fdest] is a directory; nothing else changes.  It refuses to copy a
    file onto itself and to write over a directory, and then changes
    nothing. *)
Lemma copy2_effect :
  forall (fsrc fdest : path) (st : fs) (content : string),
    stat st fsrc = Some (File content) ->
    (path_eqb fsrc (copy2_target st fsrc fdest) = true
     \/ is_dir st (copy2_target st fsrc fdest) = true ->
     copy2 fsrc fdest st = (st, inl OSError))
    /\ (path_eqb fsrc (copy2_target st fsrc fdest) = false ->
        is_dir st (copy2_target st fsrc fdest) = false ->
        snd (copy2 fsrc fdest st) = inr tt
        /\ fst (copy2 fsrc fdest st) (copy2_target st fsrc fdest) = Some (File content)
        /\ forall q, q <> copy2_target st fsrc fdest -> fst (copy2 fsrc fdest st) q = st q).
Proof.
  intros fsrc fdest st content Hsrc.
  unfold copy2, bindM, gets, lift, read_file, open_write, write_file, modify, ret, raise.
  cbv beta iota zeta.
  change (if is_dir st fdest then (fdest ++ [name fsrc])%list else fdest)
    with (copy2_target st fsrc fdest).
  generalize (copy2_target st fsrc fdest). intros target.
  split.
  - intros [E|E].
    + now rewrite E.
    + destruct (path_eqb fsrc target); [reflexivity|]. now rewrite Hsrc, E.
  - intros E Hdir. rewrite E, Hsrc, Hdir. cbn [fst snd].
    split; [reflexivity|]. split; [apply update_same|].
    intros q Hq. now rewrite !update_other.
Qed.

End OneFile.

(** ** One step of the loop: what it does to a path *)

Section PrefixFacts.

Lemma is_prefix_refl (p : path) : is_prefix p p = true.
Proof. induction p as [|a p IH]; cbn; [reflexivity | now rewrite String.eqb_refl]. Qed.

Lemma is_prefix_app (p r : path) : is_prefix p (p ++ r)%list = true.
Proof. induction p as [|a p IH]; cbn; [reflexivity | now rewrite String.eqb_refl]. Qed.

Lemma is_prefix_iff (p q : path) : is_prefix p q = true <-> exists r, q = (p ++ r)%list.
Proof.
  split.
  - revert q; induction p as [|a p IH]; intros q H; [now exists q|].
    destruct q as [|b q]; [discriminate|]. cbn in H.
    apply andb_true_iff in H. destruct H as [Hab H].
    apply String.eqb_eq in Hab. subst b.
    destruct (IH q H) as [r ->]. now exists r.
  - intros [r ->]. apply is_prefix_app.
Qed.

Lemma is_prefix_trans (p q r : path) :
  is_prefix p q = true -> is_prefix q r = true -> is_prefix p r = true.
Proof.
  rewrite !is_prefix_iff. intros [a ->] [b ->]. exists (a ++ b)%list.
  now rewrite app_assoc.
Qed.

Lemma is_prefix_app_split (q a b : path) :
  is_prefix q (a ++ b)%list = true -> is_prefix q a = true \/ is_prefix a q = true.
Proof.
  revert a; induction q as [|x q IH]; intros a H; [now left|].
  destruct a as [|y a]; [now right|].
  cbn in H |- *. apply andb_true_iff in H. destruct H as [Hxy H].
  apply String.eqb_eq in Hxy. subst y. rewrite String.eqb_refl. cbn.
  now apply IH.
Qed.

Lemma is_prefix_parent (q : path) : is_prefix (parent q) q = true.
Proof.
  unfold parent. destruct q as [|a q] using rev_ind; [reflexivity|].
  rewrite removelast_last. apply is_prefix_app.
Qed.

Lemma is_prefix_below_parent (d q : path) :
  is_prefix d (parent q) = true -> is_prefix d q = true.
Proof. intros H. eapply is_prefix_trans; [exact H | apply is_prefix_parent]. Qed.

End PrefixFacts.

Section Effects.

Import Copier CopierWords.

Lemma mkdir_from_effect (todo done : path) (st : fs) (q : path) :
  fst (mkdir_from done todo st) q = st q
  \/ (st q = None /\ fst (mkdir_from done todo st) q = Some Dir
      /\ is_prefix q (done ++ todo)%list = true).
Proof.
  revert done st; induction todo as [|part rest IH]; intros done st; [now left|].
  cbn [mkdir_from].
  assert (Hne : (done ++ [part])%list <> []) by (now destruct done).
  rewrite (stat_nonempty _ _ Hne).
  assert (Happ : ((done ++ [part]) ++ rest = done ++ part :: rest)%list)
    by (now rewrite <- app_assoc).
  destruct (st (done ++ [part])%list) as [[content| |]|] eqn:Hp.
  - now left.
  - specialize (IH (done ++ [part])%list st). now rewrite Happ in IH.
  - specialize (IH (done ++ [part])%list st). now rewrite Happ in IH.
  - specialize (IH (done ++ [part])%list (update st (done ++ [part])%list Dir)).
    rewrite Happ in IH.
    destruct (list_eq_dec string_dec q (done ++ [part])%list) as [->|Hq].
    + rewrite update_same in IH. right. split; [exact Hp|].
      destruct IH as [IH|[IH _]]; [|discriminate].
      split; [exact IH|]. rewrite <- Happ. apply is_prefix_app.
    + now rewrite (update_other _ _ _ _ Hq) in IH.
Qed.

Lemma copy_normalized_onto_dir (modifier : string -> string) (fsrc fdest : path)
    (st : fs) (content : string) :
  stat st fsrc = Some (File content) -> is_dir st fdest = true ->
  copy_normalized modifier fsrc fdest st = (st, inl OSError).
Proof.
  intros Hsrc Hdir. unfold copy_normalized, bindM, read_file, open_write.
  now rewrite Hsrc, Hdir.
Qed.

Variable src : path.
Variable dest : option path.
Variable modifier : string -> string.
Variable binary : bool.

(** What one step of the loop does to a path [q]: nothing; or it makes the
    directory [q] on the way to the landing place; or it writes the file
    [q], which is the landing place (in binary mode possibly a file inside
    it), and then the step has succeeded. *)
Lemma copy_match_effect (files : list path) (fsrc : path) (st : fs) (q : path) :
  fst (copy_match src dest modifier binary files fsrc st) q = st q
  \/ (st q = None
      /\ fst (copy_match src dest modifier binary files fsrc st) q = Some Dir
      /\ exists rel, relative_to fsrc src = inr rel
                     /\ is_prefix q (landing dest rel) = true)
  \/ (exists rel c,
         relative_to fsrc src = inr rel
         /\ snd (copy_match src dest modifier binary files fsrc st)
            = inr (files ++ [landing dest rel])%list
         /\ fst (copy_match src dest modifier binary files fsrc st) q = Some (File c)
         /\ if binary then q = landing dest rel \/ parent q = landing dest rel
            else q = landing dest rel /\ exists c0, c = copy_text modifier c0).
Proof.
  unfold copy_match, bindM, gets, lift, retM.
  destruct (is_file st fsrc) eqn:Hf; cbn [negb fst snd]; [|now left].
  destruct (relative_to fsrc src) as [e|rel] eqn:Hrel; cbn [fst snd]; [now left|].
  change (match dest with Some d => (d ++ rel)%list | None => rel end)
    with (landing dest rel).
  set (fdest := landing dest rel).
  pose proof (mkdir_from_effect (parent fdest) [] st q) as Hmk.
  fold (mkdir_parents (parent fdest)) in Hmk. cbn [app] in Hmk.
  assert (Hstep : forall st1 r1,
             mkdir_parents (parent fdest) st = (st1, r1) ->
             st1 q = st q
             \/ (st q = None /\ st1 q = Some Dir
                 /\ exists rel0, (inr rel : result path) = inr rel0
                                  /\ is_prefix q (landing dest rel0) = true)).
  { intros st1 r1 E. rewrite E in Hmk. cbn [fst] in Hmk.
    destruct Hmk as [H|(H1 & H2 & H3)]; [now left|].
    right. split; [exact H1|]. split; [exact H2|]. exists rel. split; [reflexivity|].
    eapply is_prefix_trans; [exact H3 | apply is_prefix_parent]. }
  assert (Hfile : forall st1 r1,
             mkdir_parents (parent fdest) st = (st1, r1) ->
             exists content, stat st1 fsrc = Some (File content)).
  { intros st1 r1 E. unfold is_file in Hf.
    destruct (stat st fsrc) as [[content| |]|] eqn:Hs; try discriminate.
    exists content. assert (Hne : fsrc <> []) by (intros ->; discriminate).
    rewrite (stat_nonempty st _ Hne) in Hs. rewrite (stat_nonempty st1 _ Hne).
    pose proof (mkdir_from_effect (parent fdest) [] st fsrc) as H.
    fold (mkdir_parents (parent fdest)) in H. rewrite E in H. cbn [fst] in H.
    destruct H as [H|(H & _)]; congruence. }
  destruct (mkdir_parents (parent fdest) st) as [st1 [e|[]]] eqn:Hmkd; cbn [fst snd].
  { destruct (Hstep st1 _ eq_refl) as [H|H]; [now left | right; now left]. }
  destruct (Hfile st1 _ eq_refl) as [content Hsrc].
  specialize (Hstep st1 _ eq_refl).
  destruct binary.
  - pose proof (copy2_effect fsrc fdest st1 content Hsrc) as [Hfail Hok].
    destruct (path_eqb fsrc (copy2_target st1 fsrc fdest)) eqn:E1.
    { rewrite Hfail by now left. cbn [fst snd].
      destruct Hstep as [H|H]; [now left | right; now left]. }
    destruct (is_dir st1 (copy2_target st1 fsrc fdest)) eqn:E2.
    { rewrite Hfail by now right. cbn [fst snd].
      destruct Hstep as [H|H]; [now left | right; now left]. }
    destruct (Hok eq_refl eq_refl) as (Hr & Ht & Hothers).
    destruct (copy2 fsrc fdest st1) as [st2 [e|[]]]; cbn [fst snd] in *; [discriminate|].
    destruct (list_eq_dec string_dec q (copy2_target st1 fsrc fdest)) as [->|Hq].
    + right. right. exists rel, content. split; [reflexivity|]. split; [reflexivity|].
      split; [exact Ht|]. unfold copy2_target.
      destruct (is_dir st1 fdest); [right | now left].
      unfold parent. now rewrite removelast_last.
    + rewrite (Hothers q Hq).
      destruct Hstep as [H|H]; [now left | right; now left].
  - destruct (is_dir st1 fdest) eqn:E.
    { rewrite (copy_normalized_onto_dir modifier fsrc fdest st1 content Hsrc E).
      cbn [fst snd]. destruct Hstep as [H|H]; [now left | right; now left]. }
    destruct (copy_normalized_effect modifier fsrc fdest st1 content Hsrc E)
      as (Hr & Ht & Hothers).
    destruct (copy_normalized modifier fsrc fdest st1) as [st2 [e|[]]];
      cbn [fst snd] in *; [discriminate|].
    destruct (list_eq_dec string_dec q fdest) as [->|Hq].
    + right. right. exists rel. eexists. split; [reflexivity|]. split; [reflexivity|].
      split; [exact Ht|]. split; [reflexivity|].
      destruct (path_eqb fsrc fdest); [now exists "" | now exists content].
    + rewrite (Hothers q Hq).
      destruct Hstep as [H|H]; [now left | right; now left].
Qed.

End Effects.

Section Loops.

Lemma foldM_state {S A B} (body : B -> A -> M S B) (R : S -> S -> Prop) :
  (forall st, R st st) ->
  (forall a b c, R a b -> R b c -> R a c) ->
  (forall acc x st, R st (fst (body acc x st))) ->
  forall l acc st, R st (fst (foldM body acc l st)).
Proof.
  intros Hrefl Htrans Hstep l. induction l as [|x l IH]; intros acc st; [apply Hrefl|].
  cbn [foldM]. unfold bindM. specialize (Hstep acc x st).
  destruct (body acc x st) as [st1 [e|acc1]]; cbn [fst] in *; [exact Hstep|].
  eapply Htrans; [exact Hstep | apply IH].
Qed.

Lemma foldM_result {S A B} (body : B -> A -> M S B) (I : S -> B -> Prop) :
  (forall acc x st st' acc', body acc x st = (st', inr acc') -> I st acc -> I st' acc') ->
  forall l acc st st' acc',
    foldM body acc l st = (st', inr acc') -> I st acc -> I st' acc'.
Proof.
  intros Hstep l. induction l as [|x l IH]; intros acc st st' acc'.
  - cbn. unfold retM. now intros [= <- <-].
  - cbn [foldM]. unfold bindM.
    destruct (body acc x st) as [st1 [e|acc1]] eqn:E; [discriminate|].
    intros H HI. eapply IH; [exact H|]. eapply Hstep; [exact E | exact HI].
Qed.

End Loops.

(** ** What the loop has written *)

Section WrittenFacts.

Import Copier CopierWords.

Lemma mkdir_keeps_file (todo done : path) (st : fs) (p : path) (content : string) :
  stat st p = Some (File content) ->
  stat (fst (mkdir_from done todo st)) p = Some (File content).
Proof.
  intros H. assert (Hne : p <> []) by (intros ->; discriminate).
  rewrite (stat_nonempty st _ Hne) in H.
  rewrite (stat_nonempty (fst (mkdir_from done todo st)) _ Hne).
  destruct (mkdir_from_effect todo done st p) as [E|(E & _)]; congruence.
Qed.

Lemma copy_match_result (src : path) (dest : option path) (modifier : string -> string)
    (binary : bool) (files : list path) (fsrc : path) (st st' : fs) (files' : list path) :
  copy_match src dest modifier binary files fsrc st = (st', inr files') ->
  (is_file st fsrc = false /\ st' = st /\ files' = files)
  \/ (is_file st fsrc = true
      /\ exists rel, relative_to fsrc src = inr rel
                     /\ files' = (files ++ [landing dest rel])%list).
Proof.
  intros E. pose proof (copy_match_spec src dest modifier binary files fsrc st) as H.
  destruct (is_file st fsrc).
  - right. split; [reflexivity|]. rewrite E in H. exact H.
  - left. rewrite E in H. injection H as -> ->. auto.
Qed.

(** A step of the loop in text mode that took a regular file has left the
    normalized text of some file at the landing place. *)
Lemma copy_match_text_success (src : path) (dest : option path)
    (modifier : string -> string) (files : list path) (fsrc : path) (st st' : fs)
    (files' : list path) (rel : path) :
  is_file st fsrc = true ->
  relative_to fsrc src = inr rel ->
  copy_match src dest modifier false files fsrc st = (st', inr files') ->
  exists c0, st' (landing dest rel) = Some (File (copy_text modifier c0)).
Proof.
  intros Hf Hrel. unfold copy_match, bindM, gets, lift, retM.
  rewrite Hf, Hrel. cbn [negb].
  change (match dest with Some d => (d ++ rel)%list | None => rel end)
    with (landing dest rel).
  unfold is_file in Hf. destruct (stat st fsrc) as [[content| |]|] eqn:Hs; try discriminate.
  pose proof (mkdir_keeps_file (parent (landing dest rel)) [] st fsrc content Hs) as Hk.
  fold (mkdir_parents (parent (landing dest rel))) in Hk.
  destruct (mkdir_parents (parent (landing dest rel)) st) as [st1 [e|[]]];
    [discriminate|]. cbn [fst] in Hk.
  destruct (is_dir st1 (landing dest rel)) eqn:Hd.
  - rewrite (copy_normalized_onto_dir modifier fsrc _ st1 content Hk Hd). discriminate.
  - destruct (copy_normalized_effect modifier fsrc (landing dest rel) st1 content Hk Hd)
      as (Hr & Ht & _).
    destruct (copy_normalized modifier fsrc (landing dest rel) st1) as [st2 [e|[]]];
      cbn [fst snd] in *; [discriminate|].
    intros [= <- _]. rewrite Ht.
    destruct (path_eqb fsrc (landing dest rel)); [now exists "" | now exists content].
Qed.

(** A step of the loop in binary mode that took a regular file has left a
    file at the landing place, or in it when that is a directory. *)
Lemma copy_match_binary_success (src : path) (dest : option path)
    (modifier : string -> string) (files : list path) (fsrc : path) (st st' : fs)
    (files' : list path) (rel : path) :
  is_file st fsrc = true ->
  relative_to fsrc src = inr rel ->
  copy_match src dest modifier true files fsrc st = (st', inr files') ->
  written_at true st' (landing dest rel).
Proof.
  intros Hf Hrel. unfold copy_match, bindM, gets, lift, retM.
  rewrite Hf, Hrel. cbn [negb].
  change (match dest with Some d => (d ++ rel)%list | None => rel end)
    with (landing dest rel).
  unfold is_file in Hf. destruct (stat st fsrc) as [[content| |]|] eqn:Hs; try discriminate.
  pose proof (mkdir_keeps_file (parent (landing dest rel)) [] st fsrc content Hs) as Hk.
  fold (mkdir_parents (parent (landing dest rel))) in Hk.
  destruct (mkdir_parents (parent (landing dest rel)) st) as [st1 [e|[]]];
    [discriminate|]. cbn [fst] in Hk.
  pose proof (copy2_effect fsrc (landing dest rel) st1 content Hk) as [Hfail Hok].
  destruct (path_eqb fsrc (copy2_target st1 fsrc (landing dest rel))) eqn:E1.
  { rewrite Hfail by now left. discriminate. }
  destruct (is_dir st1 (copy2_target st1 fsrc (landing dest rel))) eqn:E2.
  { rewrite Hfail by now right. discriminate. }
  destruct (Hok eq_refl eq_refl) as (Hr & Ht & Hothers).
  destruct (copy2 fsrc (landing dest rel) st1) as [st2 [e|[]]]; cbn [fst snd] in *;
    [discriminate|].
  intros [= <- _]. unfold copy2_target in Ht, Hothers.
  destruct (is_dir st1 (landing dest rel)) eqn:Ed.
  - right. split; [reflexivity|]. split.
    + destruct (landing dest rel) as [|a l]; [reflexivity|].
      unfold is_dir, stat in Ed |- *. rewrite Hothers; [exact Ed|].
      intros H. apply (f_equal (@List.length string)) in H.
      rewrite length_app in H. cbn in H. lia.
    + now exists (name fsrc), content.
  - left. now exists content.
Qed.

(** What was written stays written: a later step may write a file again,
    it does not remove one. *)
Lemma copy_match_written_keeps (src : path) (dest : option path)
    (modifier : string -> string) (binary : bool) (files : list path) (fsrc : path)
    (st st' : fs) (files' : list path) :
  copy_match src dest modifier binary files fsrc st = (st', inr files') ->
  Forall (written_at binary st) files ->
  Forall (written_at binary st') files'.
Proof.
  intros E HI.
  assert (Hfile : forall q c, st q = Some (File c) -> exists c', st' q = Some (File c')).
  { intros q c Hq.
    pose proof (copy_match_effect src dest modifier binary files fsrc st q) as He.
    rewrite E in He. cbn [fst snd] in He.
    destruct He as [He|[(He & _)|(_ & c' & _ & _ & He & _)]].
    - exists c. congruence.
    - congruence.
    - now exists c'. }
  assert (Hdir : forall q, is_dir st q = true ->
                           is_dir st' q = true \/ exists c', st' q = Some (File c')).
  { intros [|a q] Hq; [now left|].
    pose proof (copy_match_effect src dest modifier binary files fsrc st (a :: q)) as He.
    rewrite E in He. cbn [fst snd] in He.
    destruct He as [He|[(He & _)|(_ & c' & _ & _ & He & _)]].
    - left. unfold is_dir, stat in Hq |- *. now rewrite He.
    - unfold is_dir, stat in Hq. rewrite He in Hq. discriminate.
    - right. now exists c'. }
  destruct (copy_match_result _ _ _ _ _ _ _ _ _ E) as [(_ & _ & ->)|(Hf & rel & Hrel & ->)].
  - eapply Forall_impl; [|exact HI]. intros f [(c & Hc)|(Hb & Hd & n & c & Hc)].
    + left. exact (Hfile f c Hc).
    + destruct (Hdir f Hd) as [Hd'|Hfile']; [|now left].
      right. split; [exact Hb|]. split; [exact Hd'|].
      destruct (Hfile _ _ Hc) as [c' Hc']. now exists n, c'.
  - apply Forall_app. split.
    + eapply Forall_impl; [|exact HI]. intros f [(c & Hc)|(Hb & Hd & n & c & Hc)].
      * left. exact (Hfile f c Hc).
      * destruct (Hdir f Hd) as [Hd'|Hfile']; [|now left].
        right. split; [exact Hb|]. split; [exact Hd'|].
        destruct (Hfile _ _ Hc) as [c' Hc']. now exists n, c'.
    + constructor; [|constructor]. destruct binary.
      * exact (copy_match_binary_success _ _ _ _ _ _ _ _ _ Hf Hrel E).
      * left. destruct (copy_match_text_success _ _ _ _ _ _ _ _ _ Hf Hrel E) as [c0 H].
        eexists. exact H.
Qed.

Lemma copy_loop_written_keeps (glob : fs -> path -> string -> list path) (src : path)
    (dest : option path) (modifier : string -> string) (binary : bool)
    (patterns : list string) (files : list path) (st st' : fs) (files' : list path) :
  foldM (copy_pattern glob src dest modifier binary) files patterns st = (st', inr files') ->
  Forall (written_at binary st) files ->
  Forall (written_at binary st') files'.
Proof.
  apply (foldM_result _ (fun st files => Forall (written_at binary st) files)).
  intros acc pattern st0 st1 acc1. rewrite copy_pattern_unfold.
  apply (foldM_result _ (fun st files => Forall (written_at binary st) files)).
  intros acc' fsrc st2 st3 acc3. apply copy_match_written_keeps.
Qed.

End WrittenFacts.

(** ** Claims on the copy *)

Section CopyClaims.

Import Copier CopierWords.

(** Without [dest], every path that [copy_files] returns is the path of a
    match relative to [src]: the file lands there below the current
    directory. *)
Lemma copy_files_default_destination
    (glob : fs -> path -> string -> list path) (src : path) (patterns : list string)
    (delete : bool) (modifier : option (string -> string)) (binary : bool)
    (st st' : fs) (files : list path) :
  copy_files glob src patterns None delete modifier binary st = (st', inr files) ->
  Forall (fun f => exists pattern st0, In pattern patterns /\ In f (glob st0 src pattern))
         files.
Proof.
  destruct (preclean glob patterns None delete st) as [st1 [e|dest1]] eqn:Hpre.
  { unfold copy_files, bindM. rewrite Hpre. discriminate. }
  rewrite (copy_files_after_preclean glob src patterns None delete modifier binary
                                     st st1 dest1 Hpre).
  pose proof (foldM_copy_pattern glob src dest1 (chosen modifier) binary patterns [] st1)
    as Hloop.
  destruct (foldM _ [] patterns st1) as [st2 [e|loop_files]]; cbn [snd fst] in Hloop;
    [discriminate|].
  destruct Hloop as (added & -> & Hadded & _). cbn [app].
  intros H. assert (files = added) as -> by (destruct added; [discriminate | congruence]).
  eapply Forall_impl; [|exact Hadded].
  intros f (pattern & st0 & rel & Hin & Hrel & ->).
  rewrite (preclean_default_landing glob patterns delete st st1 dest1 Hpre).
  now exists pattern, st0.
Qed.

(** C4 (the code differs): called without [dest], [copy_files] does not
    write below a directory named after the source root.  The header of the
    clone [widgets_src] lands at [src/widget.h] below the current directory,
    and nothing is made at [widgets_src_src]. *)
Theorem C4_default_destination_is_current_directory :
  snd (copy_files ScenarioFiles.literal_glob ScenarioFiles.clone ["src/widget.h"]
                  None true None false ScenarioFiles.consumer)
  = inr [["src"; "widget.h"]]
  /\ fst (copy_files ScenarioFiles.literal_glob ScenarioFiles.clone ["src/widget.h"]
                     None true None false ScenarioFiles.consumer)
         ["src"; "widget.h"]
     = Some (File ("int w;" ++ NL ++ "int h;" ++ NL))
  /\ fst (copy_files ScenarioFiles.literal_glob ScenarioFiles.clone ["src/widget.h"]
                     None true None false ScenarioFiles.consumer)
         ["widgets_src_src"]
     = None
  /\ fst (copy_files ScenarioFiles.literal_glob ScenarioFiles.clone ["src/widget.h"]
                     None true None false ScenarioFiles.consumer)
         ["widgets_src_src"; "src"; "widget.h"]
     = None.
Proof. repeat split; vm_compute; reflexivity. Qed.

(** C5, as the code has it: for the pattern [**] no regular file matches,
    and [copy_files] without [dest] raises IndexError, not AssertionError:
    the cleaning step fails on the match that is the current directory
    itself.  It fails so as well when another pattern does match a regular
    file. *)
Lemma C5_copy_files_fails_exactly_on_no_match_counterexample :
  (matched_files ScenarioClean.dir_glob ScenarioFiles.clone ["**"] ScenarioFiles.consumer
   = []
   /\ snd (copy_files ScenarioClean.dir_glob ScenarioFiles.clone ["**"] None true None false
                      ScenarioFiles.consumer)
      = inl IndexError
   /\ (inl IndexError : result (list path)) <> inl AssertionError)
  /\ (matched_files ScenarioClean.dir_glob ScenarioFiles.clone ["**"; "src/widget.h"]
                    ScenarioFiles.consumer
      = [["widgets_src"; "src"; "widget.h"]]
      /\ snd (copy_files ScenarioClean.dir_glob ScenarioFiles.clone ["**"; "src/widget.h"]
                         None true None false ScenarioFiles.consumer)
         = inl IndexError).
Proof.
  split; [split; [reflexivity|]; split; [reflexivity | discriminate]|].
  split; reflexivity.
Qed.

(** C5, amended: either the cleaning step goes through, and then
    [copy_files] raises AssertionError exactly when the patterns match no
    regular file below [src], having written nothing, and whenever it
    returns the list is not empty, holds the landing places of matches, and
    something was written for each of its paths (the path is a regular
    file, or in binary mode a directory with a regular file in it); or
    [delete] is on without [dest] and a pattern matches the current
    directory itself, and then [copy_files] raises IndexError and has
    touched nothing. *)
Theorem C5_copy_files_fails_exactly_on_no_match :
  forall (glob : fs -> path -> string -> list path) (src : path)
         (patterns : list string) (dest : option path) (delete : bool)
         (modifier : option (string -> string)) (binary : bool) (st : fs),
    (exists st1 dest1,
        preclean glob patterns dest delete st = (st1, inr dest1)
        /\ (matched_files glob src patterns st1 = []
            <-> snd (copy_files glob src patterns dest delete modifier binary st)
                = inl AssertionError)
        /\ (matched_files glob src patterns st1 = [] ->
            fst (copy_files glob src patterns dest delete modifier binary st) = st1)
        /\ (forall files,
              snd (copy_files glob src patterns dest delete modifier binary st) = inr files ->
              files <> []
              /\ Forall (fun f => exists pattern st0 rel,
                             In pattern patterns /\ In rel (glob st0 src pattern)
                             /\ f = landing dest1 rel)
                        files
              /\ Forall (written_at
                           binary
                           (fst (copy_files glob src patterns dest delete modifier binary st)))
                        files))
    \/ (delete = true /\ dest = None
        /\ In [] (flat_map (glob st []) patterns)
        /\ copy_files glob src patterns dest delete modifier binary st
           = (st, inl IndexError)).
Proof.
  intros glob src patterns dest delete modifier binary st.
  destruct (preclean glob patterns dest delete st) as [st1 [e|dest1]] eqn:Hpre.
  { right. destruct (preclean_raises glob _ _ _ _ _ _ Hpre) as (Hd & Hn & Hin & -> & ->).
    repeat split; try assumption. unfold copy_files, bindM. now rewrite Hpre. }
  left. exists st1, dest1. split; [reflexivity|].
  rewrite (copy_files_after_preclean glob src patterns dest delete modifier binary
                                     st st1 dest1 Hpre).
  pose proof (foldM_copy_pattern glob src dest1 (chosen modifier) binary patterns [] st1)
    as Hloop.
  pose proof (foldM_copy_pattern_skip glob src dest1 (chosen modifier) binary patterns [] st1)
    as Hskip.
  pose proof (copy_loop_written_keeps glob src dest1 (chosen modifier) binary patterns [] st1)
    as Hwritten.
  destruct (foldM _ [] patterns st1) as [st2 [e|loop_files]]; cbn [snd fst] in Hloop.
  - apply loop_error_not_assertion in Hloop. cbn [snd fst].
    split; [|split].
    + split; [intros H; specialize (Hskip H); discriminate | congruence].
    + intros H. specialize (Hskip H). discriminate.
    + discriminate.
  - destruct Hloop as (added & -> & Hadded & Hnil). cbn [app] in *.
    specialize (Hwritten st2 added eq_refl (Forall_nil _)).
    destruct added as [|f added]; cbn [snd fst].
    + destruct (Hnil eq_refl) as [-> Hm]. split; [|split].
      * split; [reflexivity | intros _; exact Hm].
      * reflexivity.
      * discriminate.
    + split; [|split].
      * split; [intros H; specialize (Hskip H); discriminate | discriminate].
      * intros H. specialize (Hskip H). discriminate.
      * intros files [= <-]. split; [discriminate|]. split; [exact Hadded | exact Hwritten].
Qed.

End CopyClaims.

(* ================================================================== *)
(** * Part III: further properties                                     *)
(* ================================================================== *)

(** ** Version resolver: the release answer, ties, tags without digits *)

Section ResolverMore.

Import Resolver.

(** When the release endpoint answers, its body alone decides the outcome:
    the value of "tag_name" is returned, a body without that key raises
    KeyError, a body that is no object raises TypeError; the tags are not
    asked for, whatever they are. *)
Theorem release_answer_decides :
  forall (urlopen : string -> result json) (repo : string) (j : json),
    urlopen (releases_latest_url repo) = inr j ->
    latest_release_tag urlopen repo = getitem j "tag_name"
    /\ (forall members v, j = JObj members -> lookup "tag_name" members = Some v ->
                          latest_release_tag urlopen repo = inr v)
    /\ (forall members, j = JObj members -> lookup "tag_name" members = None ->
                        latest_release_tag urlopen repo = inl KeyError)
    /\ ((forall members, j <> JObj members) ->
        latest_release_tag urlopen repo = inl TypeError).
Proof.
  intros urlopen repo j Hj.
  assert (H : latest_release_tag urlopen repo = getitem j "tag_name").
  { unfold latest_release_tag, release_path. rewrite Hj. cbn [bind].
    destruct j as [| | | | |members]; try reflexivity.
    cbn [getitem]. now destruct (lookup "tag_name" members). }
  split; [exact H|]. rewrite H. split; [|split].
  - intros members v -> Hl. cbn [getitem]. now rewrite Hl.
  - intros members -> Hl. cbn [getitem]. now rewrite Hl.
  - intros Hn. destruct j; try reflexivity. now destruct (Hn members).
Qed.

Lemma release_answer_decides_witness :
  latest_release_tag (fun _ => inr (JObj [("tag_name", JStr "2.3.1")])) Scenario.widgets
  = getitem (JObj [("tag_name", JStr "2.3.1")]) "tag_name"
  /\ (forall members v,
        JObj [("tag_name", JStr "2.3.1")] = JObj members ->
        lookup "tag_name" members = Some v ->
        latest_release_tag (fun _ => inr (JObj [("tag_name", JStr "2.3.1")])) Scenario.widgets
        = inr v)
  /\ (forall members,
        JObj [("tag_name", JStr "2.3.1")] = JObj members ->
        lookup "tag_name" members = None ->
        latest_release_tag (fun _ => inr (JObj [("tag_name", JStr "2.3.1")])) Scenario.widgets
        = inl KeyError)
  /\ ((forall members, JObj [("tag_name", JStr "2.3.1")] <> JObj members) ->
      latest_release_tag (fun _ => inr (JObj [("tag_name", JStr "2.3.1")])) Scenario.widgets
      = inl TypeError).
Proof.
  apply (release_answer_decides (fun _ => inr (JObj [("tag_name", JStr "2.3.1")]))
                                Scenario.widgets (JObj [("tag_name", JStr "2.3.1")])).
  reflexivity.
Defined.

Lemma insert_all_lt {A} (x : list N * A) (l : list (list N * A)) :
  (forall y, In y l -> tuple_lt (fst y) (fst x) = true) -> insert x l = (l ++ [x])%list.
Proof.
  induction l as [|y l IH]; intros H; [reflexivity|].
  cbn [insert app]. rewrite (H y) by now left.
  f_equal. apply IH. intros z Hz. apply H. now right.
Qed.

Lemma last_item_snoc {A} (l : list A) (x : A) : last_item (l ++ [x])%list = inr x.
Proof.
  induction l as [|y l IH]; [reflexivity|].
  cbn [app]. destruct (l ++ [x])%list eqn:E; [now destruct l | exact IH].
Qed.

Lemma last_item_cons_nonempty {A} (y : A) (l : list A) :
  l <> [] -> last_item (y :: l) = last_item l.
Proof. destruct l; [congruence | reflexivity]. Qed.

Lemma insert_not_nil {A} (x : list N * A) (l : list (list N * A)) : insert x l <> [].
Proof. destruct l as [|y l]; cbn [insert]; [|destruct (tuple_lt _ _)]; discriminate. Qed.

Lemma insert_keeps_last {A} (x m : list N * A) (l : list (list N * A)) :
  last_item l = inr m -> tuple_lt (fst m) (fst x) = false ->
  last_item (insert x l) = inr m.
Proof.
  induction l as [|y l IH]; [discriminate|].
  intros Hlast Hm. destruct l as [|y' l].
  - injection Hlast as ->. cbn [insert]. now rewrite Hm.
  - rewrite last_item_cons_nonempty in Hlast by discriminate.
    specialize (IH Hlast Hm).
    change (insert x (y :: y' :: l))
      with (if tuple_lt (fst y) (fst x) then y :: insert x (y' :: l)
            else x :: y :: y' :: l).
    destruct (tuple_lt (fst y) (fst x)).
    + rewrite last_item_cons_nonempty by apply insert_not_nil. exact IH.
    + rewrite !last_item_cons_nonempty by discriminate. exact Hlast.
Qed.

Lemma sort_last_of_greatest (pre post : list string) (t : string) :
  (forall u, In u pre -> tuple_le (tag_key u) (tag_key t)) ->
  (forall u, In u post -> tuple_lt (tag_key u) (tag_key t) = true) ->
  last_item (sort (decorate (pre ++ t :: post)%list)) = inr (tag_key t, t).
Proof.
  intros Hpre Hpost. induction pre as [|p pre IH]; cbn [app decorate map sort].
  - rewrite insert_all_lt; [apply last_item_snoc|].
    intros y Hy. apply (Permutation_in _ (Permutation_sym (sort_perm _))) in Hy.
    apply in_map_iff in Hy. destruct Hy as (u & <- & Hu). cbn [fst]. now apply Hpost.
  - apply insert_keeps_last.
    + apply IH. intros u Hu. apply Hpre. now right.
    + cbn [fst]. apply Hpre. now left.
Qed.

(** Ties go to the tag listed last: the fallback returns the name that no
    earlier name exceeds and that exceeds every later name. *)
Theorem select_latest_last_of_greatest :
  forall (pre post : list string) (t : string),
    (forall u, In u pre -> tuple_le (tag_key u) (tag_key t)) ->
    (forall u, In u post -> tuple_lt (tag_key u) (tag_key t) = true) ->
    select_latest (map JStr (pre ++ t :: post)%list) = inr (JStr t).
Proof.
  intros pre post t Hpre Hpost.
  unfold select_latest. rewrite sort_by_key_strings. cbn [bind].
  apply (last_item_map JStr). 
  now apply (last_item_map snd (sort (decorate (pre ++ t :: post)%list)) (tag_key t, t)),
        sort_last_of_greatest.
Qed.

Lemma select_latest_last_of_greatest_witness :
  select_latest (map JStr (["1.1"; "v1.2"] ++ "1.2" :: ["rc"; "1.0"])%list)
  = inr (JStr "1.2").
Proof.
  apply (select_latest_last_of_greatest ["1.1"; "v1.2"] ["rc"; "1.0"] "1.2").
  - intros u [<-|[<-|[]]]; reflexivity.
  - intros u [<-|[<-|[]]]; reflexivity.
Defined.

Lemma findall_digits_nil_iff (s : string) :
  findall_digits s = [] <-> forallb_string (fun c => negb (isdecimal c)) s = true.
Proof.
  induction s as [|c s IH]; cbn [findall_digits forallb_string]; [tauto|].
  destruct (isdecimal c); cbn [negb andb].
  - split; [|discriminate].
    destruct (findall_digits s); [discriminate|].
    destruct (starts_decimal s); discriminate.
  - exact IH.
Qed.

(** A tag without digits has the empty key and never wins over a tag with
    digits: when some listed name holds a decimal digit, so does the name
    the fallback returns. *)
Theorem select_latest_prefers_digits :
  forall (names : list string) (u t : string),
    In u names ->
    forallb_string (fun c => negb (isdecimal c)) u = false ->
    select_latest (map JStr names) = inr (JStr t) ->
    forallb_string (fun c => negb (isdecimal c)) t = false
    /\ forall v, forallb_string (fun c => negb (isdecimal c)) v = true -> tag_key v = [].
Proof.
  intros names u t Hu Hdig Hsel. split.
  - assert (Hne : names <> []) by (intros ->; destruct Hu).
    destruct (select_latest_strings names Hne) as (t' & Ht' & _ & Hmax).
    rewrite Hsel in Ht'. injection Ht' as <-.
    specialize (Hmax u Hu). unfold tuple_le in Hmax.
    destruct (forallb_string (fun c => negb (isdecimal c)) t) eqn:Ht; [|reflexivity].
    apply findall_digits_nil_iff in Ht. unfold tag_key in Hmax. rewrite Ht in Hmax.
    destruct (findall_digits u) eqn:Eu.
    + apply findall_digits_nil_iff in Eu. congruence.
    + discriminate.
  - intros v Hv. unfold tag_key. apply findall_digits_nil_iff in Hv. now rewrite Hv.
Qed.

Lemma select_latest_prefers_digits_witness :
  forallb_string (fun c => negb (isdecimal c)) "v0.1" = false
  /\ forall v, forallb_string (fun c => negb (isdecimal c)) v = true -> tag_key v = [].
Proof.
  apply (select_latest_prefers_digits ["stable"; "v0.1"; "nightly"] "v0.1" "v0.1").
  - right. left. reflexivity.
  - reflexivity.
  - reflexivity.
Defined.

End ResolverMore.

(** ** Text mode: copying twice, copying onto itself *)

Section TextMore.

Import Copier.

Lemma rstrip_fixed (s : string) : ends_in_space s = false -> rstrip s = s.
Proof.
  induction s as [|c s IH]; [reflexivity|].
  destruct s as [|d r].
  - cbn. now intros ->.
  - intros H. change (ends_in_space (String c (String d r))) with (ends_in_space (String d r)) in H.
    cbn [rstrip] in IH |- *. now rewrite (IH H).
Qed.

Lemma universal_newlines_fixed (s : string) : mem CR s = false -> universal_newlines s = s.
Proof.
  induction s as [|c s IH]; [reflexivity|].
  cbn [mem]. intros H. apply orb_false_iff in H. destruct H as [Hc Hs].
  cbn [universal_newlines]. rewrite Ascii.eqb_sym, Hc. now rewrite (IH Hs).
Qed.

Lemma mem_readlines (c : ascii) (s : string) :
  mem c s = false -> Forall (fun l => mem c l = false) (readlines s).
Proof.
  induction s as [|a s IH]; [constructor|].
  cbn [mem]. intros H. apply orb_false_iff in H. destruct H as [Ha Hs].
  specialize (IH Hs). cbn [readlines].
  destruct (Ascii.eqb a LF).
  - constructor; [|exact IH]. cbn [mem]. now rewrite Ha.
  - destruct (readlines s) as [|l ls].
    + constructor; [|constructor]. cbn [mem]. now rewrite Ha.
    + inversion IH; subst. constructor; [|assumption]. cbn [mem]. now rewrite Ha.
Qed.

Lemma mem_join_all (c : ascii) (lines : list string) :
  Forall (fun l => mem c l = false) lines -> mem c (join_all lines) = false.
Proof.
  induction 1 as [|l lines Hl _ IH]; [reflexivity|].
  cbn [join_all fold_right]. rewrite mem_append, Hl. exact IH.
Qed.

Lemma written_lines_shape (content : string) :
  Forall (fun w => exists body, w = body ++ NL /\ clean_line body = true
                               /\ mem CR body = false)
         (written_lines identity content).
Proof.
  unfold written_lines. apply Forall_map.
  pose proof (readlines_lines (universal_newlines content)) as H1.
  pose proof (mem_readlines CR _ (universal_newlines_no_CR content)) as H2.
  pose proof (Forall_and H1 H2) as H. cbv beta in H.
  eapply Forall_impl; [|exact H].
  intros l [Hl Hcr]. exists (rstrip l). unfold identity. split; [reflexivity|].
  split; [now apply rstrip_line_clean | now apply mem_rstrip].
Qed.

(** Normalizing is idempotent: a file that [copy_files] wrote in text mode
    without modifier is copied by it, in that mode, character for
    character. *)
Theorem copy_text_idempotent :
  forall content : string,
    copy_text identity (copy_text identity content) = copy_text identity content.
Proof.
  intros content. pose proof (written_lines_shape content) as Hw.
  unfold copy_text at 1.
  assert (Hlines : written_lines identity (copy_text identity content)
                   = written_lines identity content).
  { unfold written_lines at 1.
    assert (Hcr : mem CR (copy_text identity content) = false).
    { unfold copy_text. apply mem_join_all.
      eapply Forall_impl; [|exact Hw].
      intros w (body & -> & _ & Hb). rewrite mem_append, Hb. reflexivity. }
    rewrite (universal_newlines_fixed _ Hcr). unfold copy_text.
    rewrite readlines_join_all.
    - induction Hw as [|w ws (body & -> & Hc & _) _ IH]; [reflexivity|].
      cbn [map]. rewrite IH. f_equal. unfold identity.
      rewrite rstrip_append_space by reflexivity.
      unfold clean_line in Hc. apply andb_true_iff in Hc. destruct Hc as [_ Hc].
      apply negb_true_iff in Hc. now rewrite (rstrip_fixed _ Hc).
    - eapply Forall_impl; [|exact Hw].
      intros w (body & -> & Hc & _). exists body. split; [reflexivity|].
      unfold clean_line in Hc. apply andb_true_iff in Hc. destruct Hc as [Hc _].
      now apply negb_true_iff in Hc. }
  now rewrite Hlines.
Qed.

End TextMore.


(** ** The copy as a whole: what it writes and what it leaves alone *)

Section WholeCopy.

Import Copier CopierWords.

Variable glob : fs -> path -> string -> list path.

Lemma preclean_explicit (patterns : list string) (d : path) (delete : bool) (st : fs) :
  preclean glob patterns (Some d) delete st
  = ((if delete then rmtree d st else st), inr (Some d)).
Proof. now destruct delete. Qed.

Lemma kept_outside_refl (d : path) (st : fs) : kept_outside d st st.
Proof. intros q _. now left. Qed.

Lemma kept_outside_trans (d : path) (a b c : fs) :
  kept_outside d a b -> kept_outside d b c -> kept_outside d a c.
Proof.
  intros H1 H2 q Hq. specialize (H1 q Hq). specialize (H2 q Hq).
  destruct H1 as [H1|(Ha & Hb & Hp)].
  - rewrite <- H1. exact H2.
  - right. split; [exact Ha|]. split; [|exact Hp].
    destruct H2 as [H2|(H2 & _)]; congruence.
Qed.

Lemma rmtree_kept_outside (d : path) (st : fs) : kept_outside d st (rmtree d st).
Proof.
  intros q Hq. left. unfold rmtree.
  destruct (is_file st d || is_link st d)%bool; [reflexivity|].
  now rewrite Hq.
Qed.

Lemma copy_match_kept_outside (src d : path) (modifier : string -> string) (binary : bool)
    (files : list path) (fsrc : path) (st : fs) :
  kept_outside d st (fst (copy_match src (Some d) modifier binary files fsrc st)).
Proof.
  intros q Hq.
  destruct (copy_match_effect src (Some d) modifier binary files fsrc st q)
    as [H|[(H1 & H2 & rel & _ & Hp)|(rel & c & _ & _ & _ & Hw)]].
  - now left.
  - right. split; [exact H1|]. split; [exact H2|].
    cbn [landing] in Hp. apply is_prefix_app_split in Hp.
    destruct Hp as [Hp|Hp]; [exact Hp | congruence].
  - exfalso. cbn [landing] in Hw.
    assert (Hunder : is_prefix d q = true).
    { destruct binary.
      - destruct Hw as [->|Hw]; [apply is_prefix_app|].
        apply is_prefix_below_parent. rewrite Hw. apply is_prefix_app.
      - destruct Hw as [-> _]. apply is_prefix_app. }
    congruence.
Qed.

Lemma copy_loop_kept_outside (src d : path) (modifier : string -> string) (binary : bool)
    (patterns : list string) (files : list path) (st : fs) :
  kept_outside d st
    (fst (foldM (copy_pattern glob src (Some d) modifier binary) files patterns st)).
Proof.
  apply (foldM_state _ (kept_outside d)).
  - apply kept_outside_refl.
  - apply kept_outside_trans.
  - intros acc pattern st0. rewrite copy_pattern_unfold.
    apply (foldM_state _ (kept_outside d)).
    + apply kept_outside_refl.
    + apply kept_outside_trans.
    + intros acc' fsrc st1. apply copy_match_kept_outside.
Qed.

(** With [delete] and a destination of its own, [copy_files] leaves
    everything outside the destination alone, whether it returns or raises:
    no file there is written, emptied or removed (a source file keeps its
    content), and the only entries it may add are missing directories on
    the way down to the destination.  This is for paths that name what
    lies at them: no part of the destination or of a match is [..], and no
    symbolic link stands on the way to the destination. *)
Theorem copy_files_keeps_outside :
  forall (src : path) (patterns : list string) (d : path)
         (modifier : option (string -> string)) (binary : bool) (st : fs),
    descends d = true ->
    (forall st0 pattern rel,
        In pattern patterns -> In rel (glob st0 src pattern) -> descends rel = true) ->
    (forall p, is_prefix p d = true -> is_link st p = false) ->
    kept_outside d st
      (fst (copy_files glob src patterns (Some d) true modifier binary st))
    /\ forall q n,
         is_prefix d q = false -> st q = Some n ->
         fst (copy_files glob src patterns (Some d) true modifier binary st) q = Some n.
Proof.
  intros src patterns d modifier binary st _ _ _.
  assert (H : kept_outside d st
                (fst (copy_files glob src patterns (Some d) true modifier binary st))).
  { rewrite (copy_files_after_preclean glob src patterns (Some d) true modifier binary
                                       st _ _ (preclean_explicit patterns d true st)).
    pose proof (copy_loop_kept_outside src d (chosen modifier) binary patterns []
                                       (rmtree d st)) as Hl.
    pose proof (rmtree_kept_outside d st) as Hpre. cbv beta iota in Hl |- *.
    destruct (foldM _ [] patterns _) as [st2 [e|[|f files]]]; cbn [fst] in *;
      (eapply kept_outside_trans; [exact Hpre | exact Hl]). }
  split; [exact H|].
  intros q n Hq Hn. destruct (H q Hq) as [E|(E & _)]; congruence.
Qed.

End WholeCopy.

Section WholeCopyResults.

Import Copier CopierWords.

Variable glob : fs -> path -> string -> list path.




Lemma copy_match_text_keeps (src : path) (dest : option path)
    (modifier : string -> string) (files : list path) (fsrc : path) (st st' : fs)
    (files' : list path) :
  copy_match src dest modifier false files fsrc st = (st', inr files') ->
  Forall (normalized_at modifier st) files ->
  Forall (normalized_at modifier st') files'.
Proof.
  intros E HI.
  destruct (copy_match_result _ _ _ _ _ _ _ _ _ E) as [(_ & -> & ->)|(Hf & rel & Hrel & ->)];
    [exact HI|].
  apply Forall_app. split.
  - eapply Forall_impl; [|exact HI]. intros f (c & Hc).
    pose proof (copy_match_effect src dest modifier false files fsrc st f) as He.
    rewrite E in He. cbn [fst snd] in He.
    destruct He as [He|[(He & _)|(_ & c' & _ & _ & He & _ & c0 & ->)]].
    + exists c. congruence.
    + congruence.
    + now exists c0.
  - constructor; [|constructor].
    exact (copy_match_text_success _ _ _ _ _ _ _ _ _ Hf Hrel E).
Qed.

Lemma copy_loop_text_keeps (src : path) (dest : option path)
    (modifier : string -> string) (patterns : list string) (files : list path)
    (st st' : fs) (files' : list path) :
  foldM (copy_pattern glob src dest modifier false) files patterns st = (st', inr files') ->
  Forall (normalized_at modifier st) files ->
  Forall (normalized_at modifier st') files'.
Proof.
  apply (foldM_result _ (fun st files => Forall (normalized_at modifier st) files)).
  intros acc pattern st0 st1 acc1. rewrite copy_pattern_unfold.
  apply (foldM_result _ (fun st files => Forall (normalized_at modifier st) files)).
  intros acc' fsrc st2 st3 acc3. apply copy_match_text_keeps.
Qed.

(** In text mode every path that [copy_files] returns is, when it returns,
    a regular file, and what it holds is the output of the text mode on
    some text: no later step of the loop has removed it, turned it into a
    directory or written anything else there. *)
Theorem copy_files_text_result :
  forall (src : path) (patterns : list string) (dest : option path) (delete : bool)
         (modifier : option (string -> string)) (st : fs) (files : list path),
    snd (copy_files glob src patterns dest delete modifier false st) = inr files ->
    Forall (normalized_at (chosen modifier)
                          (fst (copy_files glob src patterns dest delete modifier false st)))
           files.
Proof.
  intros src patterns dest delete modifier st files.
  destruct (preclean glob patterns dest delete st) as [st1 [e|dest1]] eqn:Hpre.
  { unfold copy_files, bindM. rewrite Hpre. discriminate. }
  rewrite (copy_files_after_preclean glob src patterns dest delete modifier false
                                     st st1 dest1 Hpre).
  pose proof (copy_loop_text_keeps src dest1 (chosen modifier) patterns [] st1) as Hl.
  destruct (foldM _ [] patterns st1) as [st2 [e|[|f fs']]]; cbn [fst snd];
    try discriminate.
  intros [= <-]. apply (Hl st2 (f :: fs') eq_refl). constructor.
Qed.

Lemma copy_match_all_listed (src d : path) (modifier : string -> string) (binary : bool)
    (files : list path) (fsrc : path) (st st' : fs) (files' : list path) :
  copy_match src (Some d) modifier binary files fsrc st = (st', inr files') ->
  all_listed d binary st files -> all_listed d binary st' files'.
Proof.
  intros E HI q c Hq Hc.
  assert (Hgrow : forall p, In p files -> In p files').
  { destruct (copy_match_result _ _ _ _ _ _ _ _ _ E) as [(_ & _ & ->)|(_ & rel & _ & ->)];
      intros p Hp; [exact Hp | apply in_or_app; now left]. }
  pose proof (copy_match_effect src (Some d) modifier binary files fsrc st q) as He.
  rewrite E in He. cbn [fst snd] in He.
  destruct He as [He|[(_ & He & _)|(rel & c' & _ & Hr & _ & Hw)]].
  - rewrite He in Hc. destruct (HI q c Hq Hc) as [H|[Hb H]]; [left | right]; auto.
  - congruence.
  - injection Hr as ->. destruct binary.
    + destruct Hw as [->|Hw].
      * left. apply in_or_app. right. now left.
      * right. split; [reflexivity|]. rewrite Hw. apply in_or_app. right. now left.
    + destruct Hw as [-> _]. left. apply in_or_app. right. now left.
Qed.

Lemma copy_loop_all_listed (src d : path) (modifier : string -> string) (binary : bool)
    (patterns : list string) (files : list path) (st st' : fs) (files' : list path) :
  foldM (copy_pattern glob src (Some d) modifier binary) files patterns st
  = (st', inr files') ->
  all_listed d binary st files -> all_listed d binary st' files'.
Proof.
  apply (foldM_result _ (all_listed d binary)).
  intros acc pattern st0 st1 acc1. rewrite copy_pattern_unfold.
  apply (foldM_result _ (all_listed d binary)).
  intros acc' fsrc st2 st3 acc3. apply copy_match_all_listed.
Qed.

(** Nothing stale stays behind: when [copy_files] is told to delete and is
    given a destination that is neither a regular file nor a symbolic link,
    then on return every regular file below the destination is one it has
    just written, that is one of the returned paths or, in binary mode, a
    file inside a returned path.  This is for paths that name what lies at
    them: no part of the destination or of a match is [..]. *)
Theorem copy_files_leaves_no_stale_file :
  forall (src : path) (patterns : list string) (d : path)
         (modifier : option (string -> string)) (binary : bool) (st : fs)
         (files : list path),
    descends d = true ->
    (forall st0 pattern rel,
        In pattern patterns -> In rel (glob st0 src pattern) -> descends rel = true) ->
    is_file st d = false ->
    is_link st d = false ->
    snd (copy_files glob src patterns (Some d) true modifier binary st) = inr files ->
    all_listed d binary
               (fst (copy_files glob src patterns (Some d) true modifier binary st)) files.
Proof.
  intros src patterns d modifier binary st files _ _ Hd Hl'.
  rewrite (copy_files_after_preclean glob src patterns (Some d) true modifier binary
                                     st _ _ (preclean_explicit glob patterns d true st)).
  pose proof (copy_loop_all_listed src d (chosen modifier) binary patterns []
                                   (rmtree d st)) as Hl.
  destruct (foldM _ [] patterns (rmtree d st)) as [st2 [e|[|f fs']]]; cbn [fst snd];
    try discriminate.
  intros [= <-]. apply (Hl st2 (f :: fs') eq_refl).
  intros q c Hq Hc. unfold rmtree in Hc. rewrite Hd, Hl' in Hc. cbn [orb] in Hc.
  rewrite Hq in Hc. discriminate.
Qed.

End WholeCopyResults.

Section WholeCopyWitnesses.

Import Copier CopierWords.

Lemma copy_files_text_result_witness :
  Forall (normalized_at (chosen None)
            (fst (copy_files ScenarioFiles.literal_glob ScenarioFiles.clone
                             ["src/widget.h"; "README.md"] (Some ["ext"]) true None false
                             ScenarioFiles.consumer)))
         [["ext"; "src"; "widget.h"]; ["ext"; "README.md"]].
Proof.
  apply (copy_files_text_result ScenarioFiles.literal_glob ScenarioFiles.clone
                                ["src/widget.h"; "README.md"] (Some ["ext"]) true None
                                ScenarioFiles.consumer).
  vm_compute. reflexivity.
Defined.

Lemma literal_glob_descends (st : fs) (root : path) (pattern : string) (rel : path) :
  descends (ScenarioFiles.split_slash pattern) = true ->
  In rel (ScenarioFiles.literal_glob st root pattern) -> descends rel = true.
Proof.
  intros Hp. unfold ScenarioFiles.literal_glob.
  destruct (stat st _); [|intros []]. now intros [<-|[]].
Qed.

Lemma copy_files_keeps_outside_witness :
  kept_outside ["ext"] ScenarioFiles.consumer
    (fst (copy_files ScenarioFiles.literal_glob ScenarioFiles.clone
                     ["src/widget.h"; "README.md"] (Some ["ext"]) true None false
                     ScenarioFiles.consumer))
  /\ forall q n,
       is_prefix ["ext"] q = false -> ScenarioFiles.consumer q = Some n ->
       fst (copy_files ScenarioFiles.literal_glob ScenarioFiles.clone
                       ["src/widget.h"; "README.md"] (Some ["ext"]) true None false
                       ScenarioFiles.consumer) q = Some n.
Proof.
  apply (copy_files_keeps_outside ScenarioFiles.literal_glob ScenarioFiles.clone
                                  ["src/widget.h"; "README.md"] ["ext"] None false
                                  ScenarioFiles.consumer).
  - reflexivity.
  - intros st0 pattern rel [<-|[<-|[]]]; now apply literal_glob_descends.
  - intros p Hp. apply is_prefix_iff in Hp. destruct Hp as [r Hr].
    destruct p as [|a [|b p]]; cbn in Hr; [reflexivity | | discriminate].
    injection Hr as <- _. reflexivity.
Defined.

Lemma copy_files_leaves_no_stale_file_witness :
  all_listed ["src"] false
             (fst (copy_files ScenarioFiles.literal_glob ScenarioFiles.clone
                              ["src/widget.h"] (Some ["src"]) true None false
                              ScenarioFiles.consumer))
             [["src"; "src"; "widget.h"]].
Proof.
  apply (copy_files_leaves_no_stale_file ScenarioFiles.literal_glob ScenarioFiles.clone
                                         ["src/widget.h"] ["src"] None false
                                         ScenarioFiles.consumer).
  - reflexivity.
  - intros st0 pattern rel [<-|[]]. now apply literal_glob_descends.
  - reflexivity.
  - reflexivity.
  - vm_compute. reflexivity.
Defined.

End WholeCopyWitnesses.



(** ** Commit recorder: what is fatal and what is not *)

Section RecorderMore.

Import Recorder.

Lemma commit_eval (sh : string -> nat) (files : list path) (tag : option string)
    (tops : list string) :
  mapM first_part files = inr tops ->
  commit sh files tag []
  = if Nat.eqb (sh (git_add (nodup string_dec tops))) 0 then
      if Nat.eqb (sh git_diff_index) 0 then
        ([git_add (nodup string_dec tops); git_diff_index], inr tt)
      else
        match format_tag tag with
        | inl e => ([git_add (nodup string_dec tops); git_diff_index], inl e)
        | inr t => ([git_add (nodup string_dec tops); git_diff_index;
                     git_commit ("Update to " ++ t)], inr tt)
        end
    else ([git_add (nodup string_dec tops)],
          inl (CalledProcessError (sh (git_add (nodup string_dec tops))))).
Proof.
  intros Htops. unfold commit, bindM, lift, check_call, call, run, retM.
  rewrite Htops. cbv beta iota. cbn [app].
  destruct (Nat.eqb (sh (git_add (nodup string_dec tops))) 0); cbv beta iota;
    [|reflexivity].
  cbn [app ret]. destruct (Nat.eqb (sh git_diff_index) 0); cbn [negb]; cbv beta iota;
    [reflexivity|].
  destruct (format_tag tag); reflexivity.
Qed.

Lemma commit_no_parts (sh : string -> nat) (files : list path) (tag : option string)
    (e : exn) :
  mapM first_part files = inl e -> commit sh files tag [] = ([], inl IndexError).
Proof.
  intros H. unfold commit, bindM, lift. rewrite H.
  now rewrite (mapM_first_part_error _ _ H).
Qed.

Lemma mapM_first_part_nil_iff (files : list path) :
  In [] files <-> exists e, mapM first_part files = inl e.
Proof.
  induction files as [|[|t f] files IH]; cbn.
  - split; [intros [] | intros [e H]; discriminate].
  - split; [intros _; now exists IndexError | now left].
  - destruct (mapM first_part files) as [e|tops]; cbn.
    + split; [intros _; now exists e | intros _; right; apply IH; now exists e].
    + split.
      * intros [H|H]; [discriminate|]. apply IH in H. destruct H as [e H]. discriminate.
      * intros [e H]. discriminate.
Qed.

(** Staging is the one fatal step: when [git add] fails, [commit] raises
    CalledProcessError with the status of [git add], and neither
    [git diff-index] nor [git commit] is run. *)
Theorem commit_stops_when_staging_fails :
  forall (sh : string -> nat) (files : list path) (tag : option string)
         (tops : list string),
    mapM first_part files = inr tops ->
    sh (git_add (nodup string_dec tops)) <> 0 ->
    commit sh files tag []
    = ([git_add (nodup string_dec tops)],
       inl (CalledProcessError (sh (git_add (nodup string_dec tops))))).
Proof.
  intros sh files tag tops Htops Hadd.
  rewrite (commit_eval sh files tag tops Htops).
  apply Nat.eqb_neq in Hadd. now rewrite Hadd.
Qed.

Lemma commit_stops_when_staging_fails_witness :
  commit (fun _ => 128) ScenarioShell.headers (Some "2.3.1") []
  = ([git_add (nodup string_dec ["src"; "src"])],
     inl (CalledProcessError 128)).
Proof.
  apply (commit_stops_when_staging_fails (fun _ => 128) ScenarioShell.headers
                                         (Some "2.3.1") ["src"; "src"]).
  - reflexivity.
  - discriminate.
Defined.

(** Behind a successful [git add], and with a tag that is not the empty
    string, [commit] never raises: an unchanged tree ends it after
    [git diff-index] without a commit, a changed tree makes it run
    [git commit], whose exit status it does not look at. *)
Theorem commit_is_soft_after_staging :
  forall (sh : string -> nat) (files : list path) (tag : option string)
         (tops : list string),
    mapM first_part files = inr tops ->
    sh (git_add (nodup string_dec tops)) = 0 ->
    tag <> Some "" ->
    commit sh files tag []
    = (([git_add (nodup string_dec tops); git_diff_index]
          ++ (if Nat.eqb (sh git_diff_index) 0 then []
              else [git_commit ("Update to " ++ label tag)]))%list,
       inr tt).
Proof.
  intros sh files tag tops Htops Hadd Htag.
  rewrite (commit_eval sh files tag tops Htops), Hadd, (format_tag_total tag Htag).
  cbn [Nat.eqb]. now destruct (Nat.eqb (sh git_diff_index) 0).
Qed.

Lemma commit_is_soft_after_staging_witness :
  commit (fun cmd => if String.prefix "git commit" cmd then 1
                     else ScenarioShell.changed_tree cmd)
         ScenarioShell.headers None []
  = (([git_add (nodup string_dec ["src"; "src"]); git_diff_index]
        ++ (if Nat.eqb ((fun cmd => if String.prefix "git commit" cmd then 1
                                    else ScenarioShell.changed_tree cmd) git_diff_index) 0
            then []
            else [git_commit ("Update to " ++ label None)]))%list,
     inr tt).
Proof.
  apply (commit_is_soft_after_staging
           (fun cmd => if String.prefix "git commit" cmd then 1
                       else ScenarioShell.changed_tree cmd)
           ScenarioShell.headers None ["src"; "src"]).
  - reflexivity.
  - reflexivity.
  - discriminate.
Defined.

(** What is staged: a path without parts makes [commit] raise IndexError
    before any command is run; otherwise the first command is a [git add]
    that names every first part of the given paths, each one once. *)
Theorem commit_stages_first_parts :
  forall (sh : string -> nat) (files : list path) (tag : option string),
    (In [] files -> commit sh files tag [] = ([], inl IndexError))
    /\ (~ In [] files ->
        exists staged,
          hd_error (fst (commit sh files tag [])) = Some (git_add staged)
          /\ NoDup staged
          /\ forall top, In top staged <-> exists rest, In (top :: rest) files).
Proof.
  intros sh files tag. split.
  - intros H. apply mapM_first_part_nil_iff in H. destruct H as [e H].
    exact (commit_no_parts sh files tag e H).
  - intros H. destruct (mapM first_part files) as [e|tops] eqn:Htops.
    { exfalso. apply H, mapM_first_part_nil_iff. now exists e. }
    exists (nodup string_dec tops). split; [|split].
    + rewrite (commit_eval sh files tag tops Htops).
      destruct (Nat.eqb (sh (git_add (nodup string_dec tops))) 0); [|reflexivity].
      destruct (Nat.eqb (sh git_diff_index) 0); [reflexivity|].
      now destruct (format_tag tag).
    + apply NoDup_nodup.
    + intros top. rewrite nodup_In. exact (mapM_first_part_inr files tops Htops top).
Qed.

End RecorderMore.

(** ** Marker substitution: unclosed blocks, substituting twice *)

Section MarkersMore.

Import Markers.

Lemma skip_nil (n : nat) : skip n "" = "".
Proof. now destruct n. Qed.

Lemma skip_skip (a b : nat) (s : string) : skip a (skip b s) = skip (b + a) s.
Proof.
  revert s; induction b as [|b IH]; intros s; [now destruct s|].
  destruct s as [|c s]; [now rewrite !skip_nil|]. cbn [skip Nat.add]. apply IH.
Qed.

Lemma find_skip_none (needle s : string) (n : nat) :
  find needle s = None -> find needle (skip n s) = None.
Proof.
  revert s; induction n as [|n IH]; intros s H; [now destruct s|].
  destruct s as [|c s]; [exact H|].
  cbn [skip]. apply IH. now apply find_none_cons in H.
Qed.

Lemma prefix_split (a s : string) : String.prefix a s = true -> exists r, s = a ++ r.
Proof.
  revert s; induction a as [|x a IH]; intros s H; [now exists s|].
  destruct s as [|y s]; [discriminate|]. cbn in H.
  destruct (ascii_dec x y) as [->|]; [|discriminate].
  destruct (IH s H) as [r ->]. now exists r.
Qed.

Lemma find_split (needle s : string) (k : nat) :
  find needle s = Some k ->
  exists pre rest, s = pre ++ needle ++ rest /\ String.length pre = k.
Proof.
  revert k; induction s as [|c s IH]; intros k.
  - cbn [find]. destruct (String.prefix needle "") eqn:Hp; [|discriminate].
    intros [= <-]. destruct (prefix_split _ _ Hp) as [r Hr]. now exists "", r.
  - cbn [find]. destruct (String.prefix needle (String c s)) eqn:Hp.
    + intros [= <-]. destruct (prefix_split _ _ Hp) as [r Hr]. now exists "", r.
    + destruct (find needle s) as [j|]; [|discriminate]. cbn [option_map].
      intros [= <-]. destruct (IH j eq_refl) as (pre & rest & -> & Hl).
      exists (String c pre), rest. cbn. now rewrite Hl.
Qed.

Lemma find_before (needle s : string) (k n : nat) :
  find needle s = Some k -> n < k -> String.prefix needle (skip n s) = false.
Proof.
  revert k n; induction s as [|c s IH]; intros k n.
  - cbn [find]. destruct (String.prefix needle ""); [|discriminate].
    intros [= <-]. lia.
  - intros H Hn. destruct k as [|k]; [lia|].
    apply find_cons in H. destruct H as [Hp Hf].
    destruct n as [|n]; [exact Hp|]. cbn [skip]. apply (IH k); [exact Hf | lia].
Qed.

Lemma prefix_long (p u x : string) :
  String.length p <= String.length u -> String.prefix p (u ++ x) = String.prefix p u.
Proof.
  revert u; induction p as [|a p IH]; intros u H; [now destruct u, x|].
  destruct u as [|b u]; [cbn in H; lia|].
  cbn. destruct (ascii_dec a b); [|reflexivity]. apply IH. cbn in H. lia.
Qed.

Lemma find_here (needle s : string) : String.prefix needle s = true -> find needle s = Some 0.
Proof. intros H. destruct s; cbn [find]; now rewrite H. Qed.

(** Where a needle is first found does not depend on what comes behind
    it. *)
Lemma find_local (needle pre x y : string) :
  find needle (pre ++ needle ++ x) = Some (String.length pre) ->
  find needle (pre ++ needle ++ y) = Some (String.length pre).
Proof.
  induction pre as [|a pre IH]; intros H.
  - cbn [append String.length]. apply find_here, prefix_append.
  - cbn [append String.length] in H |- *.
    apply find_cons in H. destruct H as [Hp Hf].
    cbn [find].
    assert (Hq : String.prefix needle (String a (pre ++ needle ++ y)) = false).
    { change (String a (pre ++ needle ++ y)) with (String a pre ++ needle ++ y).
      change (String a (pre ++ needle ++ x)) with (String a pre ++ needle ++ x) in Hp.
      rewrite <- append_assoc in Hp |- *.
      rewrite prefix_long in Hp |- *; try (rewrite length_append; cbn; lia).
      exact Hp. }
    rewrite Hq, (IH Hf). reflexivity.
Qed.

Section Sub.

Variables opening closing repl : string.

Let sub := sub_from opening closing repl.

Lemma sub_from_unmatched (s : string) :
  (forall n, match_length opening closing (skip n s) = None) -> sub 0 s = s.
Proof.
  induction s as [|a s IH]; intros H; [reflexivity|].
  unfold sub. cbn [sub_from]. pose proof (H 0) as H0. cbn [skip] in H0. rewrite H0.
  f_equal. apply IH. intros n. exact (H (S n)).
Qed.

(** Without closing marker nothing is replaced. *)
Lemma sub_from_unclosed (s : string) : find closing s = None -> sub 0 s = s.
Proof.
  intros H. apply sub_from_unmatched. intros n. unfold match_length.
  destruct (String.prefix opening (skip n s)); [|reflexivity].
  rewrite skip_skip. now rewrite (find_skip_none _ _ _ H).
Qed.

(** A text is left as it is, or its first block is replaced. *)
Lemma sub_from_cases (s : string) :
  sub 0 s = s
  \/ exists pre body post,
       s = pre ++ opening ++ body ++ closing ++ post
       /\ find opening s = Some (String.length pre)
       /\ find closing (body ++ closing ++ post) = Some (String.length body).
Proof.
  destruct (find opening s) as [k|] eqn:Ho; [|left; now apply sub_from_none].
  destruct (find_split _ _ _ Ho) as (pre & rest & Hs & Hk). subst k.
  destruct (find closing rest) as [m|] eqn:Hc.
  - right. destruct (find_split _ _ _ Hc) as (body & post & Hr & Hm). subst m.
    exists pre, body, post. subst rest. now split.
  - left. apply sub_from_unmatched. intros n. unfold match_length.
    destruct (String.prefix opening (skip n s)) eqn:Hp; [|reflexivity].
    assert (Hn : String.length pre <= n).
    { destruct (Nat.le_gt_cases (String.length pre) n) as [H|H]; [exact H|].
      rewrite (find_before _ _ _ _ Ho H) in Hp. discriminate. }
    replace (skip (String.length opening) (skip n s))
      with (skip (n - String.length pre) rest); [now rewrite find_skip_none|].
    rewrite skip_skip, Hs.
    replace (n + String.length opening)
      with (String.length (pre ++ opening) + (n - String.length pre))
      by (rewrite length_append; lia).
    rewrite <- skip_skip, <- append_assoc, skip_append. reflexivity.
Qed.

End Sub.

(** A block that is opened and never closed is not touched: a text without
    the closing marker of the key comes back as it is, whatever opening
    markers it holds. *)
Theorem replace_key_needs_closing_marker :
  forall (text key content : string),
    plain_key key = true ->
    plain_content content = true ->
    find (close_marker key) text = None ->
    replace_key text key content = Some text.
Proof.
  intros text key content Hk Hc Hnone.
  rewrite (replace_key_plain _ _ _ Hk Hc). f_equal.
  now apply sub_from_unclosed.
Qed.

Lemma replace_key_needs_closing_marker_witness :
  replace_key ScenarioMarkersMore.unclosed "links" "new" = Some ScenarioMarkersMore.unclosed.
Proof.
  apply (replace_key_needs_closing_marker ScenarioMarkersMore.unclosed "links" "new");
    reflexivity.
Defined.

Lemma sub_from_idempotent (opening closing filling : string) (a : ascii) (o : string) :
  opening = String a o ->
  find closing (filling ++ closing) = Some (String.length filling) ->
  forall n s,
    String.length s <= n ->
    sub_from opening closing (opening ++ filling ++ closing) 0
             (sub_from opening closing (opening ++ filling ++ closing) 0 s)
    = sub_from opening closing (opening ++ filling ++ closing) 0 s.
Proof.
  intros Ho Hfill. induction n as [|n IH]; intros s Hlen.
  - destruct s; [reflexivity | cbn in Hlen; lia].
  - destruct (sub_from_cases opening closing (opening ++ filling ++ closing) s)
      as [Hsame|(pre & body & post & Hs & Hopen & Hclose)].
    + now rewrite !Hsame.
    + assert (Hpost : String.length post <= n).
      { rewrite Hs in Hlen. rewrite !length_append, Ho in Hlen. cbn in Hlen. lia. }
      rewrite Hs in Hopen |- *.
      rewrite (sub_from_before _ _ _ _ _ Hopen).
      rewrite (sub_from_block _ _ _ a o body post Ho Hclose).
      set (post' := sub_from opening closing (opening ++ filling ++ closing) 0 post).
      rewrite !append_assoc.
      assert (Hopen' : find opening (pre ++ opening ++ filling ++ closing ++ post')
                       = Some (String.length pre)).
      { exact (find_local _ _ _ _ Hopen). }
      assert (Hclose' : find closing (filling ++ closing ++ post')
                        = Some (String.length filling)).
      { apply (find_local closing filling "" post'). now rewrite append_nil_r. }
      rewrite (sub_from_before _ _ _ _ _ Hopen').
      rewrite (sub_from_block _ _ _ a o filling post' Ho Hclose').
      unfold post'. rewrite (IH post Hpost). now rewrite !append_assoc.
Qed.

(** Substituting twice is substituting once: when the closing marker does
    not show up in the content between its line ends, the text that
    [replace_key] returns is returned unchanged by another call with the
    same key and content. *)
Theorem replace_key_idempotent :
  forall (text key content once : string),
    plain_key key = true ->
    plain_content content = true ->
    find (close_marker key) ((NL ++ content ++ NL) ++ close_marker key)
    = Some (String.length (NL ++ content ++ NL)) ->
    replace_key text key content = Some once ->
    replace_key once key content = Some once.
Proof.
  intros text key content once Hk Hc Hfill.
  rewrite !(replace_key_plain _ _ _ Hk Hc). intros [= <-]. f_equal.
  pose proof (sub_from_idempotent (open_marker key) (close_marker key)
                                  (NL ++ content ++ NL) "<"%char ("!--" ++ key ++ "-->")
                                  eq_refl Hfill (String.length text) text (le_n _)) as H.
  rewrite !append_assoc in H. exact H.
Qed.

Lemma replace_key_idempotent_witness :
  replace_key ScenarioMarkersMore.page_after "links" ScenarioMarkers.new_links
  = Some ScenarioMarkersMore.page_after.
Proof.
  apply (replace_key_idempotent ScenarioMarkers.page "links" ScenarioMarkers.new_links
                                ScenarioMarkersMore.page_after); reflexivity.
Defined.

End MarkersMore.

(** ** The pipeline *)

Section PipelineFacts.

Import Resolver Copier Recorder Pipeline.

Variable glob : fs -> path -> string -> list path.
Variable sh : string -> nat.
Variable effect : string -> fs -> fs.

Lemma in_shell_check_call (cmd : string) (w : world) :
  in_shell effect (check_call sh cmd) w
  = (World (effect cmd (files w)) (log w ++ [cmd])%list,
     if Nat.eqb (sh cmd) 0 then inr tt else inl (CalledProcessError (sh cmd))).
Proof. reflexivity. Qed.

Lemma clone_repo_skip (repo : string) (dest : path) (branch : option string) (w : world) :
  path_exists (files w) dest = true ->
  clone_repo sh effect repo dest branch false w = (w, inr tt).
Proof. intros H. unfold clone_repo, bindM, gets. now rewrite H. Qed.

Lemma clone_repo_run (repo : string) (dest : path) (branch : option string)
    (overwrite : bool) (w : world) :
  overwrite = true \/ path_exists (files w) dest = false ->
  clone_repo sh effect repo dest branch overwrite w
  = (World (effect (git_clone repo dest branch) (rmtree dest (files w)))
           (log w ++ [git_clone repo dest branch])%list,
     if Nat.eqb (sh (git_clone repo dest branch)) 0 then inr tt
     else inl (CalledProcessError (sh (git_clone repo dest branch)))).
Proof.
  intros H. unfold clone_repo, bindM, gets.
  assert (E : (negb overwrite && path_exists (files w) dest)%bool = false).
  { destruct H as [-> | ->]; [reflexivity | apply andb_false_r]. }
  rewrite E. reflexivity.
Qed.

Lemma clone_repo_cases (repo : string) (dest : path) (branch : option string)
    (overwrite : bool) (w : world) :
  clone_repo sh effect repo dest branch overwrite w = (w, inr tt)
  \/ clone_repo sh effect repo dest branch overwrite w
     = (World (effect (git_clone repo dest branch) (rmtree dest (files w)))
              (log w ++ [git_clone repo dest branch])%list,
        if Nat.eqb (sh (git_clone repo dest branch)) 0 then inr tt
        else inl (CalledProcessError (sh (git_clone repo dest branch)))).
Proof.
  destruct overwrite.
  - right. apply clone_repo_run. now left.
  - destruct (path_exists (files w) dest) eqn:E.
    + left. now apply clone_repo_skip.
    + right. apply clone_repo_run. now right.
Qed.

Lemma vendor_unfold (repo : string) (patterns : list string) (dest : option path)
    (patch : option path) (fast binary : bool) (tag : option string) (w : world) :
  vendor glob sh effect repo patterns dest patch fast binary tag w
  = match clone_repo sh effect repo (clone_dir repo) tag (negb fast) w with
    | (w1, inl e) => (w1, inl e)
    | (w1, inr _) =>
        match copy_files glob (clone_dir repo) patterns dest true None binary (files w1) with
        | (st2, inl e) => (World st2 (log w1), inl e)
        | (st2, inr copied) =>
            match match patch with
                  | Some file => apply_patch sh effect file
                  | None => retM tt
                  end (World st2 (log w1)) with
            | (w3, inl e) => (w3, inl e)
            | (w3, inr _) => in_shell effect (commit sh copied tag) w3
            end
        end
    end.
Proof.
  unfold vendor, bindM, in_files.
  destruct (clone_repo sh effect repo (clone_dir repo) tag (negb fast) w) as [w1 [e|[]]];
    [reflexivity|].
  destruct (copy_files glob (clone_dir repo) patterns dest true None binary (files w1))
    as [st2 [e|copied]]; reflexivity.
Qed.



Lemma format_tag_error (tag : option string) (e : exn) :
  format_tag tag = inl e -> e = IndexError.
Proof.
  destruct tag as [[|c s]|]; unfold format_tag, first_char, bind, ret, raise;
    intros H; [congruence | discriminate | discriminate].
Qed.

Lemma commit_error (files : list path) (tag : option string) (e : exn) :
  snd (commit sh files tag []) = inl e -> e <> AssertionError.
Proof.
  destruct (mapM first_part files) as [e'|tops] eqn:Htops.
  - rewrite (commit_no_parts sh files tag e' Htops). cbn. congruence.
  - rewrite (commit_eval sh files tag tops Htops).
    destruct (Nat.eqb (sh (git_add (nodup string_dec tops))) 0); [|cbn; congruence].
    destruct (Nat.eqb (sh git_diff_index) 0); [discriminate|].
    destruct (format_tag tag) as [e'|t] eqn:E; [|discriminate].
    cbn. apply format_tag_error in E. congruence.
Qed.

Lemma commit_message_of (files : list path) (tag : option string) (message : string) :
  In (git_commit message) (fst (commit sh files tag [])) ->
  message = "Update to " ++ label tag.
Proof.
  destruct (mapM first_part files) as [e'|tops] eqn:Htops.
  - rewrite (commit_no_parts sh files tag e' Htops). intros [].
  - rewrite (commit_eval sh files tag tops Htops).
    assert (Hsmall : forall l, In (git_commit message)
                                  ([git_add (nodup string_dec tops)] ++ l)%list ->
                               l = [] \/ l = [git_diff_index] -> False).
    { intros l Hin [-> | ->]; cbn [app In] in Hin.
      - destruct Hin as [H|[]]. symmetry in H. now apply git_commit_not_add in H.
      - destruct Hin as [H|[H|[]]]; symmetry in H;
          [now apply git_commit_not_add in H | now apply git_commit_not_diff in H]. }
    destruct (Nat.eqb (sh (git_add (nodup string_dec tops))) 0); cbn [fst].
    + destruct (Nat.eqb (sh git_diff_index) 0); cbn [fst].
      * intros H. exfalso. apply (Hsmall [git_diff_index] H). now right.
      * destruct (format_tag tag) as [e'|t] eqn:E; cbn [fst].
        -- intros H. exfalso. apply (Hsmall [git_diff_index] H). now right.
        -- apply format_tag_label in E. subst t.
           intros [H|[H|[H|[]]]].
           ++ symmetry in H. now apply git_commit_not_add in H.
           ++ symmetry in H. now apply git_commit_not_diff in H.
           ++ symmetry. now apply git_commit_inj.
    + intros H. exfalso. apply (Hsmall [] H). now left.
Qed.

(** The commands of one run of lines 144 to 147: at most one clone, then at
    most one patch, then those of [commit]; the patch only behind a copy
    that returned, the commit only behind a patch that applied. *)
Lemma vendor_log (repo : string) (patterns : list string) (dest : option path)
    (patch : option path) (fast binary : bool) (tag : option string) (w : world) :
  exists cloning patching committing,
    log (fst (vendor glob sh effect repo patterns dest patch fast binary tag w))
    = (log w ++ cloning ++ patching ++ committing)%list
    /\ (cloning = [] \/ cloning = [git_clone repo (clone_dir repo) tag])
    /\ (patching = [] \/ exists file, patch = Some file /\ patching = [git_apply file])
    /\ (committing = [] \/ exists copied, committing = fst (commit sh copied tag []))
    /\ (snd (vendor glob sh effect repo patterns dest patch fast binary tag w)
        = inl AssertionError -> patching = [] /\ committing = [])
    /\ (forall file, patch = Some file -> sh (git_apply file) <> 0 ->
        committing = []
        /\ exists e, snd (vendor glob sh effect repo patterns dest patch fast binary tag w)
                     = inl e)
    /\ (fast = true -> path_exists (files w) (clone_dir repo) = true -> cloning = []).
Proof.
  rewrite vendor_unfold.
  assert (Hclone : exists cloning,
             log (fst (clone_repo sh effect repo (clone_dir repo) tag (negb fast) w))
             = (log w ++ cloning)%list
             /\ (cloning = [] \/ cloning = [git_clone repo (clone_dir repo) tag])
             /\ snd (clone_repo sh effect repo (clone_dir repo) tag (negb fast) w)
                <> inl AssertionError
             /\ (fast = true -> path_exists (files w) (clone_dir repo) = true ->
                 cloning = [])).
  { destruct fast; cbn [negb].
    - destruct (path_exists (files w) (clone_dir repo)) eqn:Hex.
      + rewrite (clone_repo_skip repo _ tag w Hex). cbn [fst snd].
        exists []. rewrite app_nil_r. split; [reflexivity|]. split; [now left|].
        split; [discriminate | reflexivity].
      + rewrite (clone_repo_run repo (clone_dir repo) tag false w)
          by now right.
        cbn [fst snd log]. eexists. split; [reflexivity|]. split; [now right|].
        split; [destruct (Nat.eqb _ 0); discriminate | discriminate].
    - rewrite (clone_repo_run repo (clone_dir repo) tag true w)
        by now left.
      cbn [fst snd log]. eexists. split; [reflexivity|]. split; [now right|].
      split; [destruct (Nat.eqb _ 0); discriminate | discriminate]. }
  destruct Hclone as (cloning & Hlog & Hcl & Hne & Hfast).
  destruct (clone_repo sh effect repo (clone_dir repo) tag (negb fast) w)
    as [w1 [e|[]]]; cbn [fst snd] in *.
  { exists cloning, [], []. rewrite !app_nil_r. split; [exact Hlog|].
    split; [exact Hcl|]. split; [now left|]. split; [now left|].
    split; [intros H; now destruct Hne|]. split; [|exact Hfast].
    intros file _ _. split; [reflexivity | now exists e]. }
  destruct (copy_files glob (clone_dir repo) patterns dest true None binary (files w1))
    as [st2 [e|copied]]; cbn [fst snd log].
  { exists cloning, [], []. rewrite !app_nil_r. split; [exact Hlog|].
    split; [exact Hcl|]. split; [now left|]. split; [now left|].
    split; [now split|]. split; [|exact Hfast].
    intros file _ _. split; [reflexivity | now exists e]. }
  destruct patch as [file|].
  - unfold apply_patch. rewrite in_shell_check_call. cbn [files log].
    destruct (Nat.eqb (sh (git_apply file)) 0) eqn:Hp.
    + unfold in_shell. cbn [files log].
      pose proof (commit_error copied tag) as Hce.
      destruct (commit sh copied tag []) as [cmds r] eqn:Hc. cbn [fst snd log] in *.
      exists cloning, [git_apply file], cmds. rewrite Hlog, <- !app_assoc.
      split; [reflexivity|]. split; [exact Hcl|].
      split; [right; now exists file|].
      split; [right; exists copied; now rewrite Hc|]. split; [|split; [|exact Hfast]].
      * intros H. exfalso. now apply (Hce AssertionError).
      * intros file' [= <-] Hs. apply Nat.eqb_eq in Hp. congruence.
    + cbn [fst snd log]. exists cloning, [git_apply file], [].
      rewrite Hlog, <- !app_assoc, app_nil_r.
      split; [reflexivity|]. split; [exact Hcl|].
      split; [right; now exists file|]. split; [now left|]. split; [discriminate|].
      split; [|exact Hfast].
      intros file' _ _. split; [reflexivity | now eexists].
  - unfold retM, in_shell. cbn [files log].
    pose proof (commit_error copied tag) as Hce.
    destruct (commit sh copied tag []) as [cmds r] eqn:Hc. cbn [fst snd log] in *.
    exists cloning, [], cmds. rewrite Hlog. cbn [app].
    split; [now rewrite <- app_assoc|]. split; [exact Hcl|].
    split; [now left|]. split; [right; exists copied; now rewrite Hc|].
    split; [|split; [|exact Hfast]].
    + intros H. exfalso. now apply (Hce AssertionError).
    + discriminate.
Qed.

(** [commit] runs git commands only. *)
Lemma commit_commands (files : list path) (tag : option string) (cmd : string) :
  In cmd (fst (commit sh files tag [])) -> String.prefix "git " cmd = true.
Proof.
  destruct (mapM first_part files) as [e'|tops] eqn:Htops.
  - rewrite (commit_no_parts sh files tag e' Htops). intros [].
  - rewrite (commit_eval sh files tag tops Htops).
    destruct (Nat.eqb (sh (git_add (nodup string_dec tops))) 0); cbn [fst].
    + destruct (Nat.eqb (sh git_diff_index) 0); cbn [fst].
      * intros [<-|[<-|[]]]; reflexivity.
      * destruct (format_tag tag); cbn [fst].
        -- intros [<-|[<-|[]]]; reflexivity.
        -- intros [<-|[<-|[<-|[]]]]; reflexivity.
    + intros [<-|[]]; reflexivity.
Qed.

End PipelineFacts.

(** ** The stages of the pipeline *)

Section PipelineStages.

Import Resolver Copier Recorder Pipeline.

Lemma in_shell_run (effect : string -> fs -> fs) (cmd : string) (w : world) :
  in_shell effect (run cmd) w
  = (World (effect cmd (files w)) (log w ++ [cmd])%list, inr tt).
Proof. reflexivity. Qed.

Lemma keepalive_loop (effect : string -> fs -> fs) (workflows : list path) (w : world) :
  snd (foldM (fun _ workflow => in_shell effect (run (gh_enable (name workflow))))
             tt workflows w) = inr tt
  /\ log (fst (foldM (fun _ workflow => in_shell effect (run (gh_enable (name workflow))))
                     tt workflows w))
     = (log w ++ map (fun workflow => gh_enable (name workflow)) workflows)%list.
Proof.
  revert w; induction workflows as [|p workflows IH]; intros w.
  - cbn. now rewrite app_nil_r.
  - cbn [foldM map]. unfold bindM. rewrite in_shell_run.
    destruct (IH (World (effect (gh_enable (name p)) (files w))
                        (log w ++ [gh_enable (name p)])%list)) as [Hr Hl].
    split; [exact Hr|]. rewrite Hl. cbn [log]. now rewrite <- app_assoc.
Qed.

(** [keepalive] never raises.  Without GITHUB_TOKEN in the environment it
    does nothing; with it, it runs one [gh api] command per workflow, in
    order, naming the workflow by its file name alone, and goes on whatever
    the exit status of a command. *)
Theorem keepalive_enables_each_workflow :
  forall (glob : fs -> path -> string -> list path) (effect : string -> fs -> fs)
         (environ : string -> option string) (workflows : option (list path)) (w : world),
    snd (keepalive glob effect environ workflows w) = inr tt
    /\ (environ "GITHUB_TOKEN" = None -> fst (keepalive glob effect environ workflows w) = w)
    /\ (environ "GITHUB_TOKEN" <> None ->
        log (fst (keepalive glob effect environ workflows w))
        = (log w
             ++ map (fun workflow => gh_enable (name workflow))
                    (match workflows with
                     | Some given => given
                     | None => Path_glob glob (files w) [".github"; "workflows"] "*.y*ml"
                     end))%list).
Proof.
  intros glob effect environ workflows w. unfold keepalive.
  destruct (environ "GITHUB_TOKEN") as [token|].
  - unfold bindM.
    destruct (keepalive_loop effect
                (match workflows with
                 | Some given => given
                 | None => Path_glob glob (files w) [".github"; "workflows"] "*.y*ml"
                 end) w) as [Hr Hl].
    destruct workflows as [given|]; unfold retM, gets;
      (split; [exact Hr|]; split; [discriminate|]; intros _; exact Hl).
  - split; [reflexivity|]. split; [reflexivity|]. congruence.
Qed.

Lemma split_on_not_nil (sep : ascii) (s : string) : split_on sep s <> [].
Proof.
  destruct s as [|c s]; [discriminate|]. cbn [split_on].
  destruct (Ascii.eqb c sep); [discriminate|].
  destruct (split_on sep s); discriminate.
Qed.

Lemma split_on_plain (sep : ascii) (s : string) : mem sep s = false -> split_on sep s = [s].
Proof.
  induction s as [|c s IH]; [reflexivity|].
  cbn [mem]. intros H. apply orb_false_iff in H. destruct H as [Hc Hs].
  cbn [split_on]. rewrite Ascii.eqb_sym, Hc, (IH Hs). reflexivity.
Qed.

Lemma split_on_append (sep : ascii) (a b : string) :
  exists x front,
    split_on sep (a ++ String sep b) = ((x :: front) ++ split_on sep b)%list.
Proof.
  induction a as [|c a (x & front & IH)].
  - exists "", []. cbn [append split_on]. now rewrite Ascii.eqb_refl.
  - cbn [append split_on]. rewrite IH.
    destruct (Ascii.eqb c sep); [now exists "", (x :: front)|].
    now exists (String c x), front.
Qed.

Lemma last_app_right {A} (l m : list A) (d : A) : m <> [] -> last (l ++ m) d = last m d.
Proof.
  intros Hm. induction l as [|x l IH]; [reflexivity|].
  cbn [app]. destruct (l ++ m)%list eqn:E; [|exact IH].
  apply app_eq_nil in E. now destruct E.
Qed.

Lemma split_on_last_plain (sep : ascii) (s : string) :
  mem sep (last (split_on sep s) "") = false.
Proof.
  induction s as [|c s IH]; [reflexivity|].
  cbn [split_on]. destruct (Ascii.eqb c sep) eqn:Hc.
  - change ("" :: split_on sep s) with ([""] ++ split_on sep s)%list.
    rewrite last_app_right by apply split_on_not_nil. exact IH.
  - destruct (split_on sep s) as [|part parts] eqn:E;
      [now destruct (split_on_not_nil sep s)|].
    destruct parts as [|p parts].
    + cbn [last] in IH |- *. cbn [mem]. rewrite IH, Ascii.eqb_sym, Hc. reflexivity.
    + exact IH.
Qed.

(** The clone goes to a directory of the current directory that is named
    after what follows the last slash of the repository reference:
    [name_src] for [owner/name].  No reference gives a name with a slash in
    it. *)
Theorem clone_dir_named_after_last_segment :
  forall (owner name : string),
    mem "/"%char name = false ->
    clone_dir (owner ++ String "/"%char name) = [name ++ "_src"]
    /\ clone_dir name = [name ++ "_src"]
    /\ forall repo, exists segment,
          clone_dir repo = [segment ++ "_src"] /\ mem "/"%char segment = false.
Proof.
  intros owner name Hname. unfold clone_dir. split; [|split].
  - destruct (split_on_append "/"%char owner name) as (x & front & ->).
    rewrite last_app_right by apply split_on_not_nil.
    now rewrite (split_on_plain _ _ Hname).
  - now rewrite (split_on_plain _ _ Hname).
  - intros repo. eexists. split; [reflexivity | apply split_on_last_plain].
Qed.

Lemma clone_dir_named_after_last_segment_witness :
  clone_dir ("acme" ++ String "/"%char "widgets") = ["widgets" ++ "_src"]
  /\ clone_dir "widgets" = ["widgets" ++ "_src"]
  /\ forall repo, exists segment,
        clone_dir repo = [segment ++ "_src"] /\ mem "/"%char segment = false.
Proof.
  apply (clone_dir_named_after_last_segment "acme" "widgets"). reflexivity.
Defined.

End PipelineStages.

(** ** The pipeline as a whole: [copy_repo] *)

Section WholePipeline.

Import Resolver Copier Recorder Pipeline.

Variable urlopen : string -> result json.
Variable glob : fs -> path -> string -> list path.
Variable sh : string -> nat.
Variable effect : string -> fs -> fs.

Lemma git_commit_not_clone (message repo : string) (dest : path) (branch : option string) :
  git_commit message <> git_clone repo dest branch.
Proof. unfold git_commit, git_clone. cbn. congruence. Qed.

Lemma git_commit_not_apply (message : string) (file : path) :
  git_commit message <> git_apply file.
Proof. unfold git_commit, git_apply. cbn. congruence. Qed.

Lemma copy_repo_cases (repo : string) (patterns : list string) (dest : option path)
    (patch : option path) (fast head binary : bool) (w w' : world) (r : result unit) :
  copy_repo urlopen glob sh effect repo patterns dest patch fast head binary w
  = Some (w', r) ->
  (exists e, head = false /\ latest_release_tag urlopen repo = inl e
             /\ w' = w /\ r = inl e)
  \/ (exists tag,
         (head = true -> tag = None)
         /\ (head = false -> exists t, latest_release_tag urlopen repo = inr t
                                       /\ as_tag (Some t) = Some tag)
         /\ vendor glob sh effect repo patterns dest patch fast binary tag w = (w', r)).
Proof.
  unfold copy_repo, resolve_tag. destruct head.
  - cbn. intros [= H]. right. exists None. split; [reflexivity|].
    split; [discriminate | exact H].
  - destruct (latest_release_tag urlopen repo) as [e|t]; cbn [bind ret].
    + intros [= <- <-]. left. now exists e.
    + destruct (as_tag (Some t)) as [tag|] eqn:E; [|discriminate].
      intros [= H]. right. exists tag. split; [discriminate|].
      split; [|exact H]. intros _. now exists t.
Qed.

(** When the tag cannot be resolved, nothing has happened: the exception of
    [latest_release_tag] is that of [copy_repo], no command has been run
    and no file touched. *)
Theorem copy_repo_unresolved_touches_nothing :
  forall (repo : string) (patterns : list string) (dest : option path)
         (patch : option path) (fast binary : bool) (w : world) (e : exn),
    latest_release_tag urlopen repo = inl e ->
    copy_repo urlopen glob sh effect repo patterns dest patch fast false binary w
    = Some (w, inl e).
Proof.
  intros repo patterns dest patch fast binary w e H.
  unfold copy_repo, resolve_tag. now rewrite H.
Qed.

(** When no file matches, the run ends there: if [copy_repo] raises
    AssertionError, the only command it has run is the clone, if any;
    nothing was patched, staged or committed. *)
Theorem copy_repo_without_match_stops :
  forall (repo : string) (patterns : list string) (dest : option path)
         (patch : option path) (fast head binary : bool) (w w' : world),
    copy_repo urlopen glob sh effect repo patterns dest patch fast head binary w
    = Some (w', inl AssertionError) ->
    log w' = log w
    \/ exists tag, log w' = (log w ++ [git_clone repo (clone_dir repo) tag])%list.
Proof.
  intros repo patterns dest patch fast head binary w w' H.
  apply copy_repo_cases in H.
  destruct H as [(e & _ & _ & -> & _)|(tag & _ & _ & Hv)]; [now left|].
  destruct (vendor_log glob sh effect repo patterns dest patch fast binary tag w)
    as (cloning & patching & committing & Hlog & Hcl & _ & _ & Hassert & _ & _).
  rewrite Hv in Hlog, Hassert. cbn [fst snd] in Hlog, Hassert.
  destruct (Hassert eq_refl) as [-> ->]. rewrite !app_nil_r in Hlog.
  destruct Hcl as [-> | ->].
  - left. now rewrite app_nil_r in Hlog.
  - right. now exists tag.
Qed.

(** A patch that does not apply ends the run before anything is staged:
    [copy_repo] raises, and what it has run is at most the clone and the
    [git apply]. *)
Theorem copy_repo_failed_patch_stops :
  forall (repo : string) (patterns : list string) (dest : option path)
         (file : path) (fast head binary : bool) (w w' : world) (r : result unit),
    sh (git_apply file) <> 0 ->
    copy_repo urlopen glob sh effect repo patterns dest (Some file) fast head binary w
    = Some (w', r) ->
    (exists e, r = inl e)
    /\ forall cmd, In cmd (log w') ->
                   In cmd (log w)
                   \/ (exists tag, cmd = git_clone repo (clone_dir repo) tag)
                   \/ cmd = git_apply file.
Proof.
  intros repo patterns dest file fast head binary w w' r Hfail H.
  apply copy_repo_cases in H.
  destruct H as [(e & _ & _ & -> & ->)|(tag & _ & _ & Hv)].
  { split; [now exists e | intros cmd Hc; now left]. }
  destruct (vendor_log glob sh effect repo patterns dest (Some file) fast binary tag w)
    as (cloning & patching & committing & Hlog & Hcl & Hpa & _ & _ & Hpatch & _).
  rewrite Hv in Hlog, Hpatch. cbn [fst snd] in Hlog, Hpatch.
  destruct (Hpatch file eq_refl Hfail) as [-> Hr]. rewrite app_nil_r in Hlog.
  split; [exact Hr|].
  intros cmd Hc. rewrite Hlog in Hc. apply in_app_or in Hc.
  destruct Hc as [Hc|Hc]; [now left|]. apply in_app_or in Hc.
  destruct Hc as [Hc|Hc].
  - destruct Hcl as [-> | ->]; [destruct Hc|].
    destruct Hc as [<-|[]]. right. left. now exists tag.
  - destruct Hpa as [-> |(file' & [= <-] & ->)]; [destruct Hc|].
    destruct Hc as [<-|[]]. right. now right.
Qed.

(** The commit is stamped with the tag that was resolved: every
    [git commit] that a run of [copy_repo] adds to the log carries the
    message "Update to " and the label of the resolved tag, which is
    "latest" in head mode. *)
Theorem copy_repo_commit_message :
  forall (repo : string) (patterns : list string) (dest : option path)
         (patch : option path) (fast head binary : bool) (w w' : world)
         (r : result unit) (message : string),
    copy_repo urlopen glob sh effect repo patterns dest patch fast head binary w
    = Some (w', r) ->
    In (git_commit message) (log w') ->
    In (git_commit message) (log w)
    \/ exists tag,
         message = "Update to " ++ label tag
         /\ (head = true -> message = "Update to latest")
         /\ (head = false -> exists t, latest_release_tag urlopen repo = inr t
                                       /\ as_tag (Some t) = Some tag).
Proof.
  intros repo patterns dest patch fast head binary w w' r message H Hin.
  apply copy_repo_cases in H.
  destruct H as [(e & _ & _ & -> & _)|(tag & Hhead & Hres & Hv)]; [now left|].
  destruct (vendor_log glob sh effect repo patterns dest patch fast binary tag w)
    as (cloning & patching & committing & Hlog & Hcl & Hpa & Hco & _).
  rewrite Hv in Hlog. cbn [fst] in Hlog. rewrite Hlog in Hin.
  apply in_app_or in Hin. destruct Hin as [Hin|Hin]; [now left|].
  right. exists tag.
  assert (Hm : message = "Update to " ++ label tag).
  { apply in_app_or in Hin. destruct Hin as [Hin|Hin].
    { destruct Hcl as [-> | ->]; [destruct Hin|].
      destruct Hin as [Hin|[]]. symmetry in Hin. now apply git_commit_not_clone in Hin. }
    apply in_app_or in Hin. destruct Hin as [Hin|Hin].
    { destruct Hpa as [-> |(file & _ & ->)]; [destruct Hin|].
      destruct Hin as [Hin|[]]. symmetry in Hin. now apply git_commit_not_apply in Hin. }
    destruct Hco as [-> |(copied & ->)]; [destruct Hin|].
    now apply (commit_message_of sh copied tag). }
  split; [exact Hm|]. split; [|exact Hres].
  intros Hh. rewrite Hm, (Hhead Hh). reflexivity.
Qed.

Lemma git_clone_not_git (repo : string) (dest : path) (branch : option string) :
  String.prefix "git " (git_clone repo dest branch) = false.
Proof. reflexivity. Qed.


(** Fast mode does not look at the tag: when the clone directory is there,
    [copy_repo] with [fast] runs no clone and leaves the clone as it is, so
    the run is the copy out of the tree as it was found, the patch and the
    commit, whatever tag was resolved and stamped on the commit; or the tag
    could not be resolved and nothing has happened. *)
Theorem copy_repo_fast_reuses_clone :
  forall (repo : string) (patterns : list string) (dest : option path)
         (patch : option path) (head binary : bool) (w w' : world) (r : result unit),
    path_exists (files w) (clone_dir repo) = true ->
    copy_repo urlopen glob sh effect repo patterns dest patch true head binary w
    = Some (w', r) ->
    PipelineWords.no_new_clone (log w) (log w')
    /\ ((exists e, head = false /\ latest_release_tag urlopen repo = inl e
                   /\ w' = w /\ r = inl e)
        \/ (exists tag,
               (head = true -> tag = None)
               /\ (head = false -> exists t, latest_release_tag urlopen repo = inr t
                                             /\ as_tag (Some t) = Some tag)
               /\ PipelineWords.copy_patch_commit glob sh effect repo patterns dest patch
                                                  binary tag w
                  = (w', r))).
Proof.
  intros repo patterns dest patch head binary w w' r Hex H.
  apply copy_repo_cases in H. split.
  - intros repo' dest' branch' Hin.
    destruct H as [(e & _ & _ & -> & _)|(tag & _ & _ & Hv)]; [exact Hin|].
    destruct (vendor_log glob sh effect repo patterns dest patch true binary tag w)
      as (cloning & patching & committing & Hlog & _ & Hpa & Hco & _ & _ & Hfast).
    rewrite Hv in Hlog. cbn [fst] in Hlog. rewrite (Hfast eq_refl Hex) in Hlog.
    cbn [app] in Hlog. rewrite Hlog in Hin.
    apply in_app_or in Hin. destruct Hin as [Hin|Hin]; [exact Hin|]. exfalso.
    apply in_app_or in Hin. destruct Hin as [Hin|Hin].
    + destruct Hpa as [-> |(file & _ & ->)]; [destruct Hin|].
      destruct Hin as [Hin|[]]. apply (f_equal (String.prefix "git ")) in Hin.
      rewrite git_clone_not_git in Hin. discriminate.
    + destruct Hco as [-> |(copied & ->)]; [destruct Hin|].
      apply commit_commands in Hin. rewrite git_clone_not_git in Hin. discriminate.
  - destruct H as [(e & He)|(tag & Hh & Ht & Hv)]; [left; now exists e|].
    right. exists tag. split; [exact Hh|]. split; [exact Ht|].
    rewrite <- Hv. unfold vendor, PipelineWords.copy_patch_commit.
    cbn [negb]. symmetry. unfold bindM at 1.
    now rewrite (clone_repo_skip sh effect repo (clone_dir repo) tag w Hex).
Qed.

End WholePipeline.

Section WholePipelineWitnesses.

Import Resolver Copier Recorder Pipeline ScenarioPipeline.

Lemma copy_repo_unresolved_touches_nothing_witness :
  copy_repo Scenario.offline ScenarioFiles.literal_glob ScenarioShell.changed_tree git_effect
            "acme/widgets" ["src/widget.h"] None None false false false start
  = Some (start, inl URLError).
Proof.
  apply (copy_repo_unresolved_touches_nothing
           Scenario.offline ScenarioFiles.literal_glob ScenarioShell.changed_tree git_effect
           "acme/widgets" ["src/widget.h"] None None false false start URLError).
  reflexivity.
Defined.

Lemma copy_repo_without_match_stops_witness :
  log (fst (vendor ScenarioFiles.literal_glob ScenarioShell.changed_tree git_effect
                   "acme/widgets" ["src/none.h"] None None false false (Some "2.3.1") start))
  = log start
  \/ exists tag,
       log (fst (vendor ScenarioFiles.literal_glob ScenarioShell.changed_tree git_effect
                        "acme/widgets" ["src/none.h"] None None false false (Some "2.3.1")
                        start))
       = (log start ++ [git_clone "acme/widgets" (clone_dir "acme/widgets") tag])%list.
Proof.
  apply (copy_repo_without_match_stops
           released ScenarioFiles.literal_glob ScenarioShell.changed_tree git_effect
           "acme/widgets" ["src/none.h"] None None false false false start
           (fst (vendor ScenarioFiles.literal_glob ScenarioShell.changed_tree git_effect
                        "acme/widgets" ["src/none.h"] None None false false (Some "2.3.1")
                        start))).
  vm_compute. reflexivity.
Defined.

Lemma copy_repo_failed_patch_stops_witness :
  (exists e, (inl (CalledProcessError 1) : result unit) = inl e)
  /\ forall cmd,
       In cmd (log (fst (vendor ScenarioFiles.literal_glob ScenarioPipelineMore.patch_fails
                                git_effect "acme/widgets" ["src/widget.h"] None
                                (Some ["fix.patch"]) false false (Some "2.3.1") start))) ->
       In cmd (log start)
       \/ (exists tag, cmd = git_clone "acme/widgets" (clone_dir "acme/widgets") tag)
       \/ cmd = git_apply ["fix.patch"].
Proof.
  apply (copy_repo_failed_patch_stops
           released ScenarioFiles.literal_glob ScenarioPipelineMore.patch_fails git_effect
           "acme/widgets" ["src/widget.h"] None ["fix.patch"] false false false start
           (fst (vendor ScenarioFiles.literal_glob ScenarioPipelineMore.patch_fails
                        git_effect "acme/widgets" ["src/widget.h"] None
                        (Some ["fix.patch"]) false false (Some "2.3.1") start))
           (inl (CalledProcessError 1))).
  - vm_compute. discriminate.
  - vm_compute. reflexivity.
Defined.

Lemma copy_repo_commit_message_witness :
  In (git_commit "Update to v2.3.1") (log start)
  \/ exists tag,
       "Update to v2.3.1" = "Update to " ++ label tag
       /\ (false = true -> "Update to v2.3.1" = "Update to latest")
       /\ (false = false -> exists t, latest_release_tag released "acme/widgets" = inr t
                                      /\ as_tag (Some t) = Some tag).
Proof.
  apply (copy_repo_commit_message
           released ScenarioFiles.literal_glob ScenarioShell.changed_tree git_effect
           "acme/widgets" ["src/widget.h"] None None false false false start
           (fst (vendor ScenarioFiles.literal_glob ScenarioShell.changed_tree git_effect
                        "acme/widgets" ["src/widget.h"] None None false false (Some "2.3.1")
                        start))
           (inr tt) "Update to v2.3.1").
  - vm_compute. reflexivity.
  - vm_compute. right. right. right. left. reflexivity.
Defined.


Lemma copy_repo_fast_reuses_clone_witness :
  PipelineWords.no_new_clone
    (log ScenarioPipelineMore.cloned)
    (log (fst (vendor ScenarioFiles.literal_glob ScenarioShell.changed_tree git_effect
                      "acme/widgets" ["src/widget.h"] None None true false
                      (Some "2.3.1") ScenarioPipelineMore.cloned)))
  /\ ((exists e, false = false /\ latest_release_tag released "acme/widgets" = inl e
                 /\ fst (vendor ScenarioFiles.literal_glob ScenarioShell.changed_tree
                                git_effect "acme/widgets" ["src/widget.h"] None None true
                                false (Some "2.3.1") ScenarioPipelineMore.cloned)
                    = ScenarioPipelineMore.cloned
                 /\ (inr tt : result unit) = inl e)
      \/ (exists tag,
             (false = true -> tag = None)
             /\ (false = false -> exists t, latest_release_tag released "acme/widgets" = inr t
                                            /\ as_tag (Some t) = Some tag)
             /\ PipelineWords.copy_patch_commit
                  ScenarioFiles.literal_glob ScenarioShell.changed_tree git_effect
                  "acme/widgets" ["src/widget.h"] None None false tag
                  ScenarioPipelineMore.cloned
                = (fst (vendor ScenarioFiles.literal_glob ScenarioShell.changed_tree
                               git_effect "acme/widgets" ["src/widget.h"] None None true
                               false (Some "2.3.1") ScenarioPipelineMore.cloned),
                   inr tt))).
Proof.
  apply (copy_repo_fast_reuses_clone
           released ScenarioFiles.literal_glob ScenarioShell.changed_tree git_effect
           "acme/widgets" ["src/widget.h"] None None false false
           ScenarioPipelineMore.cloned
           (fst (vendor ScenarioFiles.literal_glob ScenarioShell.changed_tree git_effect
                        "acme/widgets" ["src/widget.h"] None None true false
                        (Some "2.3.1") ScenarioPipelineMore.cloned))
           (inr tt)).
  - reflexivity.
  - vm_compute. reflexivity.
Defined.

End WholePipelineWitnesses.

(** ** One match of a pattern: what arrives at the landing place *)

Section OneMatch.

Import Copier CopierWords.

(** Text mode copies the normalized text: when a step of the loop takes
    the regular file [fsrc] and goes through, the landing place holds the
    normalized text of [fsrc] and [fsrc] is as it was; except that a file
    which lands on itself ends up empty. *)
Theorem copy_match_text_copies :
  forall (src : path) (dest : option path) (modifier : string -> string)
         (files : list path) (fsrc : path) (st st' : fs) (files' : list path)
         (content : string) (rel : path),
    stat st fsrc = Some (File content) ->
    relative_to fsrc src = inr rel ->
    copy_match src dest modifier false files fsrc st = (st', inr files') ->
    files' = (files ++ [landing dest rel])%list
    /\ st' (landing dest rel)
       = Some (File (if path_eqb fsrc (landing dest rel) then ""
                     else copy_text modifier content))
    /\ (fsrc <> landing dest rel -> st' fsrc = Some (File content)).
Proof.
  intros src dest modifier files fsrc st st' files' content rel Hs Hrel.
  assert (Hf : is_file st fsrc = true) by (unfold is_file; now rewrite Hs).
  assert (Hne : fsrc <> []) by (intros ->; discriminate).
  unfold copy_match, bindM, gets, lift, retM. rewrite Hf, Hrel. cbn [negb].
  change (match dest with Some d => (d ++ rel)%list | None => rel end)
    with (landing dest rel).
  pose proof (mkdir_keeps_file (parent (landing dest rel)) [] st fsrc content Hs) as Hk.
  fold (mkdir_parents (parent (landing dest rel))) in Hk.
  destruct (mkdir_parents (parent (landing dest rel)) st) as [st1 [e|[]]];
    [discriminate|]. cbn [fst] in Hk.
  destruct (is_dir st1 (landing dest rel)) eqn:Hd.
  - rewrite (copy_normalized_onto_dir modifier fsrc _ st1 content Hk Hd). discriminate.
  - destruct (copy_normalized_effect modifier fsrc (landing dest rel) st1 content Hk Hd)
      as (Hr & Ht & Hothers).
    destruct (copy_normalized modifier fsrc (landing dest rel) st1) as [st2 [e|[]]];
      cbn [fst snd] in *; [discriminate|].
    intros [= <- <-]. split; [reflexivity|]. split; [exact Ht|].
    intros Hdiff. rewrite (Hothers fsrc Hdiff).
    now rewrite <- (stat_nonempty st1 fsrc Hne).
Qed.

Lemma copy_match_text_copies_witness :
  [["src"; "widget.h"]] = ([] ++ [landing None ["src"; "widget.h"]])%list
  /\ fst (copy_match ScenarioFiles.clone None identity false []
                     ["widgets_src"; "src"; "widget.h"] ScenarioFiles.consumer)
         (landing None ["src"; "widget.h"])
     = Some (File (if path_eqb ["widgets_src"; "src"; "widget.h"]
                               (landing None ["src"; "widget.h"])
                   then ""
                   else copy_text identity
                          ("int w;  " ++ ScenarioFiles.CRLF ++ "int h;" ++ ScenarioFiles.CRLF)))
  /\ (["widgets_src"; "src"; "widget.h"] <> landing None ["src"; "widget.h"] ->
      fst (copy_match ScenarioFiles.clone None identity false []
                      ["widgets_src"; "src"; "widget.h"] ScenarioFiles.consumer)
          ["widgets_src"; "src"; "widget.h"]
      = Some (File ("int w;  " ++ ScenarioFiles.CRLF ++ "int h;" ++ ScenarioFiles.CRLF))).
Proof.
  apply (copy_match_text_copies
           ScenarioFiles.clone None identity [] ["widgets_src"; "src"; "widget.h"]
           ScenarioFiles.consumer
           (fst (copy_match ScenarioFiles.clone None identity false []
                            ["widgets_src"; "src"; "widget.h"] ScenarioFiles.consumer))
           [["src"; "widget.h"]]
           ("int w;  " ++ ScenarioFiles.CRLF ++ "int h;" ++ ScenarioFiles.CRLF)
           ["src"; "widget.h"]).
  - reflexivity.
  - reflexivity.
  - vm_compute. reflexivity.
Defined.

(** Binary mode copies the content as it is: when a step of the loop takes
    the regular file [fsrc] and goes through, a file with the content of
    [fsrc] stands at the landing place, or inside it when that is a
    directory, and [fsrc] is as it was. *)
Theorem copy_match_binary_copies :
  forall (src : path) (dest : option path) (modifier : string -> string)
         (files : list path) (fsrc : path) (st st' : fs) (files' : list path)
         (content : string) (rel : path),
    stat st fsrc = Some (File content) ->
    relative_to fsrc src = inr rel ->
    copy_match src dest modifier true files fsrc st = (st', inr files') ->
    files' = (files ++ [landing dest rel])%list
    /\ (exists target,
           (target = landing dest rel \/ parent target = landing dest rel)
           /\ st' target = Some (File content))
    /\ st' fsrc = Some (File content).
Proof.
  intros src dest modifier files fsrc st st' files' content rel Hs Hrel.
  assert (Hf : is_file st fsrc = true) by (unfold is_file; now rewrite Hs).
  assert (Hne : fsrc <> []) by (intros ->; discriminate).
  unfold copy_match, bindM, gets, lift, retM. rewrite Hf, Hrel. cbn [negb].
  change (match dest with Some d => (d ++ rel)%list | None => rel end)
    with (landing dest rel).
  pose proof (mkdir_keeps_file (parent (landing dest rel)) [] st fsrc content Hs) as Hk.
  fold (mkdir_parents (parent (landing dest rel))) in Hk.
  destruct (mkdir_parents (parent (landing dest rel)) st) as [st1 [e|[]]];
    [discriminate|]. cbn [fst] in Hk.
  destruct (copy2_effect fsrc (landing dest rel) st1 content Hk) as [Hfail Hok].
  destruct (path_eqb fsrc (copy2_target st1 fsrc (landing dest rel))) eqn:E1.
  { rewrite Hfail by now left. discriminate. }
  destruct (is_dir st1 (copy2_target st1 fsrc (landing dest rel))) eqn:E2.
  { rewrite Hfail by now right. discriminate. }
  destruct (Hok eq_refl eq_refl) as (Hr & Ht & Hothers).
  destruct (copy2 fsrc (landing dest rel) st1) as [st2 [e|[]]];
    cbn [fst snd] in *; [discriminate|].
  intros [= <- <-]. split; [reflexivity|]. split.
  - exists (copy2_target st1 fsrc (landing dest rel)). split; [|exact Ht].
    unfold copy2_target. destruct (is_dir st1 (landing dest rel)); [right | now left].
    unfold parent. now rewrite removelast_last.
  - apply path_eqb_neq in E1. rewrite (Hothers fsrc E1).
    now rewrite <- (stat_nonempty st1 fsrc Hne).
Qed.

Lemma copy_match_binary_copies_witness :
  [["docs"; "README.md"]] = ([] ++ [landing (Some ["docs"]) ["README.md"]])%list
  /\ (exists target,
         (target = landing (Some ["docs"]) ["README.md"]
          \/ parent target = landing (Some ["docs"]) ["README.md"])
         /\ fst (copy_match ScenarioFiles.clone (Some ["docs"]) identity true []
                            ["widgets_src"; "README.md"] ScenarioFiles.consumer) target
            = Some (File "widgets"))
  /\ fst (copy_match ScenarioFiles.clone (Some ["docs"]) identity true []
                     ["widgets_src"; "README.md"] ScenarioFiles.consumer)
         ["widgets_src"; "README.md"]
     = Some (File "widgets").
Proof.
  apply (copy_match_binary_copies
           ScenarioFiles.clone (Some ["docs"]) identity [] ["widgets_src"; "README.md"]
           ScenarioFiles.consumer
           (fst (copy_match ScenarioFiles.clone (Some ["docs"]) identity true []
                            ["widgets_src"; "README.md"] ScenarioFiles.consumer))
           [["docs"; "README.md"]] "widgets" ["README.md"]).
  - reflexivity.
  - reflexivity.
  - vm_compute. reflexivity.
Defined.

End OneMatch.
